(** * A shallow embedding of the MOSN proxying engine

  The development follows the Go sources of the sidecar: the dubbo
  x-protocol codec, the x-protocol stream connection, the sofa-RPC
  keep-alive, the health-check stream filter, the cluster load balancers,
  the HTTP/2 frame scanner, the websocket stream connection, the feature
  gate, the xDS start parameters and the parsing and dumping of the
  configuration.  The first half of the file holds the models (one module
  per Go package), the second half the properties proved about them.

  Conventions.  Go's [int] is taken to be 64 bits wide.  A [uint32],
  [uint64] or [int64] value is a [Z] together with its wrap-around
  ([uint32], [uint64], [int64] below).  A byte slice is a [list byte];
  [data[a:b]] is [slice data a b].  A nil interface value is [None]. *)

From Stdlib Require Import ZArith List Lia Bool String Ascii.
From Stdlib Require Import Strings.Byte.
From stdpp Require Import gmap strings list fin_maps sorting.

Import ListNotations.
Local Open Scope Z_scope.

(** ** Machine integers *)

Module GoInt.

Definition uint32 (z : Z) : Z := z mod 2 ^ 32.
Definition uint64 (z : Z) : Z := z mod 2 ^ 64.

(** Two's complement reading of the low 64 bits. *)
Definition int64 (z : Z) : Z := (z + 2 ^ 63) mod 2 ^ 64 - 2 ^ 63.

(** [uint8(b)] and [byte(z)]. *)
Definition u8 (b : byte) : Z := Z.of_N (Byte.to_N b).

Definition byte_of_Z (z : Z) : byte :=
  match Byte.of_N (Z.to_N (z mod 256)) with
  | Some b => b
  | None => x00
  end.

(** [data[a:b]] for [0 <= a <= b <= len(data)]. *)
Definition slice {A} (data : list A) (a b : nat) : list A :=
  firstn (b - a) (skipn a data).

(** [encoding/binary.BigEndian.Uint32] and [Uint64]: the bytes are read
    most significant first. *)
Definition BigEndian_decode (bs : list byte) : Z :=
  fold_left (fun acc b => Z.lor (Z.shiftl acc 8) (u8 b)) bs 0.

(** [encoding/binary.BigEndian.PutUint64], which [binary.Write] uses for an
    [int64] after converting it to [uint64]. *)
Definition BigEndian_PutUint64 (v : Z) : list byte :=
  [ byte_of_Z (Z.shiftr v 56); byte_of_Z (Z.shiftr v 48);
    byte_of_Z (Z.shiftr v 40); byte_of_Z (Z.shiftr v 32);
    byte_of_Z (Z.shiftr v 24); byte_of_Z (Z.shiftr v 16);
    byte_of_Z (Z.shiftr v 8);  byte_of_Z v ].

End GoInt.

(** ** [strconv]: decimal rendering and parsing *)

Module Strconv.

Definition digit_char (d : Z) : ascii := ascii_of_nat (48 + Z.to_nat d).

(** [strconv.formatBits] in base 10: the digits are produced from the
    right.  A [uint64] has at most twenty decimal digits. *)
Fixpoint formatBits (fuel : nat) (n : Z) (acc : string) : string :=
  match fuel with
  | O => acc
  | S fuel' =>
      let acc' := String (digit_char (n mod 10)) acc in
      if n <? 10 then acc' else formatBits fuel' (n / 10) acc'
  end.

(** [strconv.FormatUint(n, 10)], also [fmt.Sprintf("%d", n)] for an
    unsigned [n]. *)
Definition FormatUint (n : Z) : string := formatBits 20 n EmptyString.

Definition digit_val (c : ascii) : option Z :=
  let k := Z.of_nat (nat_of_ascii c) in
  if (48 <=? k) && (k <=? 57) then Some (k - 48) else None.

(** The digit loop of [strconv.ParseUint] in base 10; [None] is the
    syntax error.  The accumulator is unbounded here, the range is
    checked by the callers. *)
Fixpoint parseDigits (s : string) (acc : Z) : option Z :=
  match s with
  | EmptyString => Some acc
  | String c s' =>
      match digit_val c with
      | Some d => parseDigits s' (acc * 10 + d)
      | None => None
      end
  end.

(** [strconv.ParseUint(s, 10, 64)]; [None] when [err != nil]. *)
Definition ParseUint (s : string) : option Z :=
  match s with
  | EmptyString => None
  | _ => match parseDigits s 0 with
         | Some v => if v <? 2 ^ 64 then Some v else None
         | None => None
         end
  end.

(** [strconv.ParseInt(s, 10, 64)]; [None] when [err != nil] (syntax or
    range). *)
Definition ParseInt (s : string) : option Z :=
  match s with
  | EmptyString => None
  | String c s' =>
      let neg := Ascii.eqb c "-"%char in
      let body := if Ascii.eqb c "+"%char || neg then s' else s in
      match body with
      | EmptyString => None
      | _ =>
          match parseDigits body 0 with
          | Some un =>
              if negb neg && (2 ^ 63 <=? un) then None
              else if neg && (2 ^ 63 <? un) then None
              else Some (if neg then - un else un)
          | None => None
          end
      end
  end.

End Strconv.

(** ** pkg/protocol/rpc/xprotocol/dubbo *)

Module Dubbo.
Import GoInt Strconv.

Definition DUBBO_HEADER_LEN : Z := 16.
Definition DUBBO_ID_LEN : nat := 8.
Definition DUBBO_MAGIC_IDX : nat := 0.
Definition DUBBO_FLAG_IDX : nat := 2.
Definition DUBBO_ID_IDX : nat := 4.
Definition DUBBO_DATA_LEN_IDX : nat := 12.

Definition DUBBO_MAGIC_TAG : list byte := [xda; xbb].

(** [bytes.Compare(a, b) == 0]. *)
Fixpoint bytes_eqb (a b : list byte) : bool :=
  match a, b with
  | [], [] => true
  | x :: a', y :: b' => Byte.eqb x y && bytes_eqb a' b'
  | _, _ => false
  end.

Definition isValidDubboData (data : list byte) : bool * Z :=
  let dataLen := Z.of_nat (length data) in
  if dataLen <? DUBBO_HEADER_LEN then (false, -1)
  else if negb (bytes_eqb (slice data DUBBO_MAGIC_IDX DUBBO_FLAG_IDX)
                          DUBBO_MAGIC_TAG)
  then (false, -1)
  else
    let bodyLen := BigEndian_decode (slice data 12 (12 + 4)) in
    let frameLen := uint32 (uint32 DUBBO_HEADER_LEN + bodyLen) in
    if uint32 dataLen <? frameLen then (false, -1)
    else (true, bodyLen).

Definition getDubboLen (data : list byte) : Z :=
  let '(rslt, bodyLen) := isValidDubboData data in
  if negb rslt then -1 else DUBBO_HEADER_LEN + bodyLen.

(** The [for true] loop of [SplitFrame]; one unit of fuel per iteration,
    [None] when the fuel is used up before a [break]. *)
Fixpoint SplitFrame_loop (fuel : nat) (data : list byte)
         (start dataLen : Z) (frames : list (list byte))
  : option (list (list byte)) :=
  match fuel with
  | O => None
  | S fuel' =>
      let frameLen := getDubboLen (skipn (Z.to_nat start) data) in
      if (0 <? frameLen) && (frameLen <=? dataLen) then
        let frames' :=
          frames ++ [slice data (Z.to_nat start) (Z.to_nat (start + frameLen))] in
        let start' := start + frameLen in
        let dataLen' := dataLen - frameLen in
        if dataLen' =? 0 then Some frames'
        else SplitFrame_loop fuel' data start' dataLen' frames'
      else Some frames
  end.

(** Every iteration that goes on consumes a whole frame of at least
    sixteen bytes, so [len(data) + 1] iterations are enough. *)
Definition SplitFrame (data : list byte) : list (list byte) :=
  match SplitFrame_loop (S (length data)) data 0
                        (Z.of_nat (length data)) [] with
  | Some frames => frames
  | None => []
  end.

Definition GetStreamID (data : list byte) : string :=
  let '(rslt, _) := isValidDubboData data in
  if negb rslt then EmptyString
  else
    let reqIDRaw := slice data DUBBO_ID_IDX (DUBBO_ID_IDX + DUBBO_ID_LEN) in
    FormatUint (BigEndian_decode reqIDRaw).

(** The copy loop [for i := 0; i < DUBBO_ID_LEN && i <= reqIDStrLen; i++].
    [None] stands for the run-time panic of an index out of range. *)
Fixpoint SetStreamID_loop (fuel : nat) (i : nat)
         (data reqIDStr : list byte) : option (list byte) :=
  match fuel with
  | O => Some data
  | S fuel' =>
      if (i <? DUBBO_ID_LEN)%nat && (i <=? length reqIDStr)%nat then
        match reqIDStr !! i with
        | Some b =>
            if (DUBBO_ID_IDX + i <? length data)%nat
            then SetStreamID_loop fuel' (S i)
                                  (<[(DUBBO_ID_IDX + i)%nat := b]> data) reqIDStr
            else None
        | None => None
        end
      else Some data
  end.

(** The slice is written in place and returned; [None] is a panic. *)
Definition SetStreamID (data : list byte) (streamID : string)
  : option (list byte) :=
  let '(rslt, _) := isValidDubboData data in
  if negb rslt then Some data
  else
    match ParseInt streamID with
    | None => Some data
    | Some reqID =>
        let reqIDStr := BigEndian_PutUint64 (uint64 reqID) in
        SetStreamID_loop (S DUBBO_ID_LEN) 0 data reqIDStr
    end.

(** The frame-boundary property in the words of the specification: what
    is left after the returned frames is shorter than a header. *)
Definition frame_boundaries_as_stated (B : list byte) : Prop :=
  exists rest : list byte,
    B = concat (SplitFrame B) ++ rest /\ (Z.of_nat (length rest) < DUBBO_HEADER_LEN).

(** The round trip in the words of the specification, for one frame and
    one stream-ID string. *)
Definition streamid_roundtrip_as_stated (d : list byte) (s : string) : Prop :=
  exists d', SetStreamID d s = Some d' /\ GetStreamID d' = s.

(** What [SplitFrame] leaves unread: nothing, bytes that are no dubbo
    header, or a frame whose end is still to come. *)
Definition leftover_ok (rest : list byte) : Prop :=
  rest = [] \/ getDubboLen rest = -1 \/
  Z.of_nat (length rest) < getDubboLen rest.

(** A header announcing one byte of payload, with the payload still on
    the wire. *)
Definition partial_frame : list byte :=
  [xda; xbb; xc2; x00;
   x00; x00; x00; x00; x00; x00; x00; x07;
   x00; x00; x00; x01].

(** A request of two payload bytes carrying the ID 263. *)
Definition sample_frame : list byte :=
  [xda; xbb; xc2; x00;
   x00; x00; x00; x00; x00; x00; x01; x07;
   x00; x00; x00; x02;
   x4e; x4e].

End Dubbo.

(** ** pkg/proxy: response flags *)

Module Proxy.

(** Modelled from the spec: the response flags ([types.ResponseFlag]) of
    section 4.10.  The declaration is not among the sources; the names are
    those used by [TestIsRequestFailed]. *)
Inductive ResponseFlag : Set :=
| NoHealthyUpstream
| UpstreamRequestTimeout
| UpstreamRemoteReset
| UpstreamConnectionFailure
| UpstreamConnectionTermination
| NoRouteFound
| DelayInjected
| FaultInjected
| RateLimited.

Definition ResponseFlag_eqb (a b : ResponseFlag) : bool :=
  match a, b with
  | NoHealthyUpstream, NoHealthyUpstream
  | UpstreamRequestTimeout, UpstreamRequestTimeout
  | UpstreamRemoteReset, UpstreamRemoteReset
  | UpstreamConnectionFailure, UpstreamConnectionFailure
  | UpstreamConnectionTermination, UpstreamConnectionTermination
  | NoRouteFound, NoRouteFound
  | DelayInjected, DelayInjected
  | FaultInjected, FaultInjected
  | RateLimited, RateLimited => true
  | _, _ => false
  end.

(** Modelled from the spec: the request-info of an active request, of
    which only the set of response flags matters here
    ([network.RequestInfo] is not among the sources). *)
Record RequestInfo : Set := { responseFlags : list ResponseFlag }.

Definition NewRequestInfo : RequestInfo := {| responseFlags := [] |}.

Definition SetResponseFlag (f : ResponseFlag) (ri : RequestInfo) : RequestInfo :=
  {| responseFlags := f :: responseFlags ri |}.

Definition GetResponseFlag (ri : RequestInfo) (f : ResponseFlag) : bool :=
  existsb (ResponseFlag_eqb f) (responseFlags ri).

(** The four flags that do not make a request count as failed. *)
Definition not_a_failure (f : ResponseFlag) : bool :=
  match f with
  | UpstreamRequestTimeout
  | UpstreamRemoteReset
  | UpstreamConnectionTermination
  | DelayInjected => true
  | _ => false
  end.

(** Modelled from the spec: [downStream.isRequestFailed] (its body is not
    among the sources): true for any flag except the four above. *)
Definition isRequestFailed (ri : RequestInfo) : bool :=
  existsb (fun f => negb (not_a_failure f)) (responseFlags ri).

(** The table of [TestIsRequestFailed]. *)
Definition TestIsRequestFailed_cases : list (list ResponseFlag * bool) :=
  [ ([NoHealthyUpstream], true);
    ([UpstreamRequestTimeout], false);
    ([UpstreamRemoteReset], false);
    ([NoRouteFound], true);
    ([DelayInjected], false);
    ([FaultInjected], true);
    ([RateLimited], true);
    ([DelayInjected; FaultInjected], true);
    ([UpstreamRequestTimeout; NoHealthyUpstream], true);
    ([UpstreamConnectionTermination; UpstreamRemoteReset], false) ].

(** The loop body of the test: set the flags, then compare. *)
Definition TestIsRequestFailed_case (tc : list ResponseFlag * bool) : bool :=
  let s := fold_left (fun ri f => SetResponseFlag f ri) (fst tc) NewRequestInfo in
  Bool.eqb (isRequestFailed s) (snd tc).

End Proxy.

(** ** pkg/filter/stream/healthcheck/sofarpc *)

Module HealthCheck.

(** Modelled from the spec: the header that marks an x-protocol heartbeat
    ([types.HeaderXprotocolHeartbeat]; the constant is declared outside the
    sources, scenario S4 gives its value). *)
Definition HeaderXprotocolHeartbeat : string := "x-protocol-heartbeat".

(** [xprotocol.X_PROTOCOL_HEARTBEAT_HIJACK]. *)
Definition X_PROTOCOL_HEARTBEAT_HIJACK : string := "xprotocol-heartbeat-hijack".

Inductive StreamFilterStatus : Set :=
| StreamFilterContinue
| StreamFilterStop.

(** The calls made on the filter's [handler]. *)
Inductive HandlerCall : Type :=
| SetHealthCheck (b : bool)
| AppendHeaders (headers : gmap string string) (endStream : bool).

Record healthCheckFilter : Set := {
  passThrough : bool;
  protocol : string;
  healthCheckReq : bool
}.

Definition NewHealthCheckFilter (PassThrough : bool) : healthCheckFilter :=
  {| passThrough := PassThrough; protocol := EmptyString; healthCheckReq := false |}.

(** The header map is shared with the caller: the updated map is
    returned. *)
Definition handleIntercept (f : healthCheckFilter) (headers : gmap string string)
  : gmap string string * list HandlerCall :=
  let headers' := <[X_PROTOCOL_HEARTBEAT_HIJACK := "true"%string]> headers in
  (headers', [AppendHeaders headers' true]).

Record OnReceiveResult : Type := {
  status : StreamFilterStatus;
  filter : healthCheckFilter;
  headersAfter : gmap string string;
  calls : list HandlerCall
}.

Definition OnReceive (f : healthCheckFilter) (headers : gmap string string)
  : OnReceiveResult :=
  match headers !! HeaderXprotocolHeartbeat with
  | Some protocol' =>
      let f' := {| passThrough := passThrough f;
                   protocol := protocol';
                   healthCheckReq := true |} in
      if negb (passThrough f') then
        let '(headers', cs) := handleIntercept f' headers in
        {| status := StreamFilterStop; filter := f';
           headersAfter := headers'; calls := SetHealthCheck true :: cs |}
      else
        {| status := StreamFilterContinue; filter := f';
           headersAfter := headers; calls := [SetHealthCheck true] |}
  | None =>
      {| status := StreamFilterContinue; filter := f;
         headersAfter := headers; calls := [] |}
  end.

(** The specification in its own words: the header set by the interception is
    named [x-protocol-heartbeat-hijack]. *)
Definition hijack_header_as_stated (f : healthCheckFilter)
           (headers : gmap string string) : Prop :=
  let r := OnReceive f headers in
  status r = StreamFilterStop /\
  headersAfter r !! "x-protocol-heartbeat-hijack"%string = Some "true"%string /\
  In (AppendHeaders (headersAfter r) true) (calls r).

End HealthCheck.

(** ** pkg/stream/xprotocol: the stream connection *)

Module XStream.
Import GoInt Strconv.

Inductive StreamDirection : Set :=
| ServerStream
| ClientStream.

(** A stream of the table; the receiver is kept as an opaque handle. *)
Record stream : Set := {
  streamID : string;
  direction : StreamDirection;
  streamReceiver : nat
}.

Record streamConnection : Type := {
  streamIDXprotocolCount : Z;
  activeStream : gmap string stream;
  (** [serverStreamConnectionEventListener != nil] *)
  hasServerListener : bool
}.

Definition newStreamConnection (serverCallbacks : bool) : streamConnection :=
  {| streamIDXprotocolCount := 0;
     activeStream := ∅;
     hasServerListener := serverCallbacks |}.

(** [streamMap.Has], [Set] and [Remove]. *)
Definition Has (m : gmap string stream) (id : string) : bool :=
  bool_decide (is_Some (m !! id)).

Definition with_table (conn : streamConnection) (m : gmap string stream)
  : streamConnection :=
  {| streamIDXprotocolCount := streamIDXprotocolCount conn;
     activeStream := m;
     hasServerListener := hasServerListener conn |}.

Definition NewStream (conn : streamConnection) (responseDecoder : nat)
  : stream * streamConnection :=
  let nStreamID := uint64 (streamIDXprotocolCount conn + 1) in
  let id := FormatUint nStreamID in
  let s := {| streamID := id; direction := ClientStream;
              streamReceiver := responseDecoder |} in
  (s, {| streamIDXprotocolCount := nStreamID;
         activeStream := <[id := s]> (activeStream conn);
         hasServerListener := hasServerListener conn |}).

(** [receiver] is what [NewStreamDetect] hands back. *)
Definition onNewStreamDetected (conn : streamConnection) (id : string)
           (receiver : nat) : streamConnection :=
  if Has (activeStream conn) id then conn
  else
    let s := {| streamID := id; direction := ServerStream;
                streamReceiver := receiver |} in
    with_table conn (<[id := s]> (activeStream conn)).

(** [OnReceive], the table side of it: the write of a heartbeat reply and
    the receiver's callback do not touch the table. *)
Definition OnReceive (conn : streamConnection) (id : string) (receiver : nat)
  : streamConnection :=
  let conn1 :=
    if hasServerListener conn then onNewStreamDetected conn id receiver
    else conn in
  match activeStream conn1 !! id with
  | Some s =>
      match direction s with
      | ClientStream => with_table conn1 (delete (streamID s) (activeStream conn1))
      | ServerStream => conn1
      end
  | None => conn1
  end.

(** [stream.endStream]: a server stream leaves the table once its response
    is written. *)
Definition endStream (conn : streamConnection) (s : stream) : streamConnection :=
  match direction s with
  | ServerStream => with_table conn (delete (streamID s) (activeStream conn))
  | ClientStream => conn
  end.

(** What can happen to a connection. *)
Inductive Event : Set :=
| EvNewStream (responseDecoder : nat)
| EvOnReceive (id : string) (receiver : nat)
| EvEndStream (s : stream).

Definition step (conn : streamConnection) (e : Event) : streamConnection :=
  match e with
  | EvNewStream r => snd (NewStream conn r)
  | EvOnReceive id r => OnReceive conn id r
  | EvEndStream s => endStream conn s
  end.

Definition run (conn : streamConnection) (es : list Event) : streamConnection :=
  fold_left step es conn.

(** The stream IDs of the streams held in the table. *)
Definition tableStreamIDs (conn : streamConnection) : list string :=
  map (fun kv => streamID (snd kv)) (map_to_list (activeStream conn)).

(** Every stream of the table sits under its own ID, and the counter is a
    [uint64]. *)
Definition table_ok (conn : streamConnection) : Prop :=
  (forall k s, activeStream conn !! k = Some s -> streamID s = k) /\
  0 <= streamIDXprotocolCount conn < 2 ^ 64.

End XStream.

(** ** pkg/stream/sofarpc: keep-alive *)

Module KeepAlive.
Import GoInt.

Inductive KeepAliveStatus : Set :=
| KeepAliveSuccess
| KeepAliveTimeout.

(** What a handler does besides updating the keep-alive itself. *)
Inductive Effect : Set :=
| CodecClose
| TimerStop (id : Z)
| RunCallback (status : KeepAliveStatus).

Record sofaRPCKeepAlive : Type := {
  Threshold : Z;
  timeoutCount : Z;
  (** the [stop] channel is closed *)
  stopped : bool;
  (** the running requests, by stream ID; the value is the timer *)
  requests : gmap Z nat
}.

Definition NewSofaRPCKeepAlive (thres : Z) : sofaRPCKeepAlive :=
  {| Threshold := thres; timeoutCount := 0; stopped := false; requests := ∅ |}.

Definition Stop (kp : sofaRPCKeepAlive) : sofaRPCKeepAlive :=
  {| Threshold := Threshold kp; timeoutCount := timeoutCount kp;
     stopped := true; requests := requests kp |}.

(** The last step of [sendKeepAlive]: [kp.requests[id] = startTimeout(id, kp)]. *)
Definition registerRequest (kp : sofaRPCKeepAlive) (id : Z) (timer : nat)
  : sofaRPCKeepAlive :=
  {| Threshold := Threshold kp; timeoutCount := timeoutCount kp;
     stopped := stopped kp; requests := <[id := timer]> (requests kp) |}.

Definition HandleTimeout (kp : sofaRPCKeepAlive) (id : Z)
  : sofaRPCKeepAlive * list Effect :=
  if stopped kp then (kp, [])
  else
    match requests kp !! id with
    | Some _ =>
        let count := uint32 (timeoutCount kp + 1) in
        ({| Threshold := Threshold kp; timeoutCount := count;
            stopped := stopped kp; requests := delete id (requests kp) |},
         (if Threshold kp <=? count then [CodecClose] else [])
           ++ [RunCallback KeepAliveTimeout])
    | None => (kp, [])
    end.

Definition HandleSuccess (kp : sofaRPCKeepAlive) (id : Z)
  : sofaRPCKeepAlive * list Effect :=
  if stopped kp then (kp, [])
  else
    match requests kp !! id with
    | Some _ =>
        ({| Threshold := Threshold kp; timeoutCount := 0;
            stopped := stopped kp; requests := delete id (requests kp) |},
         [TimerStop id; RunCallback KeepAliveSuccess])
    | None => (kp, [])
    end.

(** A timer expiry or a heartbeat response for a stream ID. *)
Inductive Event : Set :=
| Expired (id : Z)
| Responded (id : Z).

Definition eventID (e : Event) : Z :=
  match e with Expired id | Responded id => id end.

Definition handle (kp : sofaRPCKeepAlive) (e : Event)
  : sofaRPCKeepAlive * list Effect :=
  match e with
  | Expired id => HandleTimeout kp id
  | Responded id => HandleSuccess kp id
  end.

(** A handler that found its request outstanding leaves effects behind. *)
Definition wasHandled (effects : list Effect) : bool :=
  match effects with
  | [] => false
  | _ :: _ => true
  end.

(** How many of the events [es], delivered in order, were handled for
    [id], that is ran the callbacks. *)
Fixpoint handledCount (id : Z) (kp : sofaRPCKeepAlive) (es : list Event) : nat :=
  match es with
  | [] => O
  | e :: es' =>
      let '(kp', effects) := handle kp e in
      let here := if Z.eqb (eventID e) id && wasHandled effects then 1%nat else O in
      Nat.add here (handledCount id kp' es')
  end.

End KeepAlive.

(** ** pkg/stream: protocol auto-selection *)

Module AutoSelect.

Inductive Protocol : Set :=
| HTTP1
| HTTP2
| SofaRPC
| Xprotocol.

(** Modelled from the spec: the answer of a codec's [matchProtocol]
    (section 4.4). *)
Inductive MatchResult : Set :=
| MATCH
| AGAIN
| FAIL.

(** The outcome of [stream.SelectStreamFactoryProtocol]: a protocol, or
    one of the errors [stream.EAGAIN] and [stream.FAILED]. *)
Inductive SelectResult : Set :=
| Selected (p : Protocol)
| EAGAIN
| FAILED.

(** [bytes.HasPrefix(s, p)]. *)
Fixpoint is_prefix (p s : list byte) : bool :=
  match p, s with
  | [], _ => true
  | x :: p', y :: s' => Byte.eqb x y && is_prefix p' s'
  | _ :: _, [] => false
  end.

(** Modelled from the spec: magic-byte recognition (section 4.4).  The
    input matches when it starts with one of the codec's magics, more
    bytes are needed when it is the beginning of one, and it fails
    otherwise.  The recognizers of the HTTP and sofa-RPC stream factories
    are not among the sources. *)
Definition matchMagic (magics : list (list byte)) (input : list byte)
  : MatchResult :=
  if existsb (fun m => is_prefix m input) magics then MATCH
  else if existsb (fun m => is_prefix input m) magics then AGAIN
  else FAIL.

(** [http2.ClientPreface], the 24 bytes
    [PRI * HTTP/2.0\r\n\r\nSM\r\n\r\n]. *)
Definition ClientPreface : list byte :=
  [x50; x52; x49; x20; x2a; x20; x48; x54; x54; x50; x2f; x32; x2e; x30;
   x0d; x0a; x0d; x0a; x53; x4d; x0d; x0a; x0d; x0a].

Definition GET : list byte := [x47; x45; x54].
Definition POST : list byte := [x50; x4f; x53; x54].

(** Modelled from the spec: the method prefixes [GET|POST|...] of the
    HTTP/1 recognizer, taken to be the request methods of HTTP/1.1. *)
Definition httpMethods : list (list byte) :=
  [ GET; POST;
    [x50; x55; x54];                               (* PUT *)
    [x48; x45; x41; x44];                          (* HEAD *)
    [x44; x45; x4c; x45; x54; x45];                (* DELETE *)
    [x4f; x50; x54; x49; x4f; x4e; x53];           (* OPTIONS *)
    [x50; x41; x54; x43; x48];                     (* PATCH *)
    [x54; x52; x41; x43; x45];                     (* TRACE *)
    [x43; x4f; x4e; x4e; x45; x43; x54] ].         (* CONNECT *)

(** The magics written in text: the methods and the preface. *)
Definition textMagics : list (list byte) := httpMethods ++ [ClientPreface].

(** [streamConnFactory.ProtocolMatch] of the x-protocol stream factory:
    the bytes are not looked at, the sub-protocol of the context decides. *)
Definition xprotocolMatch (ContextSubProtocol : option string)
           (magic : list byte) : MatchResult :=
  match ContextSubProtocol with
  | Some _ => MATCH
  | None => FAIL
  end.

(** Modelled from the spec: the ordered list of codecs the selector is
    configured with, each with its recognizer.  [rpcMagic] holds the magic
    bytes (protocol codes) of the binary RPC family, which the spec does
    not give. *)
Definition codecs (rpcMagic : list byte) (ContextSubProtocol : option string)
  : list (Protocol * (list byte -> MatchResult)) :=
  [ (HTTP1, matchMagic httpMethods);
    (HTTP2, matchMagic [ClientPreface]);
    (SofaRPC, matchMagic (map (fun b => [b]) rpcMagic));
    (Xprotocol, xprotocolMatch ContextSubProtocol) ].

(** Modelled from the spec: the selector of section 4.5 asks each codec in
    turn; the first MATCH selects, otherwise any AGAIN asks for more bytes,
    otherwise the selection has failed. *)
Fixpoint selectFrom (cs : list (Protocol * (list byte -> MatchResult)))
         (peek : list byte) (again : bool) : SelectResult :=
  match cs with
  | [] => if again then EAGAIN else FAILED
  | (p, matchProtocol) :: cs' =>
      match matchProtocol peek with
      | MATCH => Selected p
      | AGAIN => selectFrom cs' peek true
      | FAIL => selectFrom cs' peek again
      end
  end.

Definition SelectStreamFactoryProtocol (rpcMagic : list byte)
           (ContextSubProtocol : option string) (peek : list byte)
  : SelectResult :=
  selectFrom (codecs rpcMagic ContextSubProtocol) peek false.

Inductive ConnectionEvent : Set :=
| LocalClose
| RemoteClose.

(** Modelled from the spec: what the connection does with the outcome
    (sections 4.5 and 7). *)
Inductive ConnAction : Set :=
| SetProtocol (p : Protocol)
| WaitForMoreData
| CloseConnection (event : ConnectionEvent).

Definition onInitialBytes (r : SelectResult) : ConnAction :=
  match r with
  | Selected p => SetProtocol p
  | EAGAIN => WaitForMoreData
  | FAILED => CloseConnection LocalClose
  end.

(** No RPC magic byte is the first byte of a method or of the preface. *)
Definition rpcMagic_apart (rpcMagic : list byte) : bool :=
  forallb (fun b => negb (existsb (fun m => is_prefix [b] m) textMagics))
          rpcMagic.

(** Every magic of the configured recognizers. *)
Definition allMagics (rpcMagic : list byte) : list (list byte) :=
  textMagics ++ map (fun b => [b]) rpcMagic.

(** The sofa-RPC protocol codes used for the examples below. *)
Definition sampleRpcMagic : list byte := [x01; x02; x0d].

End AutoSelect.

(** ** pkg/upstream/cluster: hosts and the random source *)

Module Cluster.

(** What the load balancers read of a [types.Host].  [Weight] is a
    [uint32]; [UpstreamRequestActive] is the count of the host's
    active-request counter. *)
Record Host : Set := {
  AddressString : string;
  Weight : N;
  Health : bool;
  UpstreamRequestActive : Z
}.

(** A [*rand.Rand], as the values it is going to deliver: [Intn(n)] takes
    the next one, reduced to the interval from 0 up to [n - 1].  It is only
    called with [n > 0]. *)
Definition Rand : Set := list nat.

Definition Intn (r : Rand) (n : nat) : nat * Rand :=
  match r with
  | [] => (O, [])
  | x :: r' => (Nat.modulo x n, r')
  end.

Definition hostWeightsAreEqual (hosts : list Host) : bool :=
  match hosts with
  | [] => true
  | h0 :: rest => forallb (fun h => N.eqb (Weight h) (Weight h0)) rest
  end.

End Cluster.

(** ** The round-robin balancer *)

Module RoundRobin.
Import GoInt Cluster.

Record roundRobinLoadBalancer : Set := {
  hosts : list Host;
  rrIndex : Z
}.

(** The loop [for i := 0; i < total; i++]. *)
Fixpoint ChooseHost_loop (n : nat) (targets : list Host) (rrIndex : Z)
  : option Host * Z :=
  match n with
  | O => (None, rrIndex)
  | S n' =>
      let rrIndex' := uint32 (rrIndex + 1) in
      let index := rrIndex' mod uint32 (Z.of_nat (length targets)) in
      match targets !! Z.to_nat index with
      | Some host =>
          if Health host then (Some host, rrIndex')
          else ChooseHost_loop n' targets rrIndex'
      | None => (None, rrIndex')
      end
  end.

Definition ChooseHost (lb : roundRobinLoadBalancer)
  : option Host * roundRobinLoadBalancer :=
  let targets := hosts lb in
  let total := length targets in
  if Nat.eqb total 0 then (None, lb)
  else
    let '(h, idx) := ChooseHost_loop total targets (rrIndex lb) in
    (h, {| hosts := targets; rrIndex := idx |}).

End RoundRobin.

(** ** The EDF balancer and least-active-request *)

Module Edf.
Import GoInt Cluster.

(** What a call of [ChooseHost] comes to: a host or nil is returned, or
    the call panics on a nil candidate. *)
Inductive Outcome : Set :=
| Returned (h : option Host)
| Panicked.

Definition returnsNil (o : Outcome) : bool :=
  match o with
  | Returned None => true
  | _ => false
  end.

(** [leastActiveRequestLoadBalancer.unweightChooseHost]: the loop
    [for cur := 0; cur < int(lb.choice); cur++]. *)
Fixpoint unweightChooseHost_loop (n : nat) (allHosts : list Host)
         (rand : Rand) (candicate : option Host) : option Host * Rand :=
  match n with
  | O => (candicate, rand)
  | S n' =>
      let '(randIdx, rand') := Intn rand (length allHosts) in
      match allHosts !! randIdx with
      | Some tempHost =>
          match candicate with
          | None => unweightChooseHost_loop n' allHosts rand' (Some tempHost)
          | Some c =>
              if UpstreamRequestActive tempHost <? UpstreamRequestActive c
              then unweightChooseHost_loop n' allHosts rand' (Some tempHost)
              else unweightChooseHost_loop n' allHosts rand' candicate
          end
      | None => (None, rand')
      end
  end.

Definition unweightChooseHost (choice : nat) (allHosts : list Host)
           (rand : Rand) : option Host * Rand :=
  unweightChooseHost_loop choice allHosts rand None.

(** The indices drawn by one call of [unweightChooseHost], in order. *)
Fixpoint sampledIndices (n : nat) (total : nat) (rand : Rand) : list nat :=
  match n with
  | O => []
  | S n' =>
      let '(randIdx, rand') := Intn rand total in
      randIdx :: sampledIndices n' total rand'
  end.

Section Scheduler.

(** The EDF scheduler ([edfSchduler], [newEdfScheduler], [Add] and
    [NextAndPush]) is declared outside the sources: it is a parameter.
    [NextAndPush] yields the next item, nil included, and the new state of
    the queue. *)
Variable edfSchduler : Type.
Variable NextAndPush : edfSchduler -> option Host * edfSchduler.
Variable initScheduler : list Host -> edfSchduler.

Record EdfLoadBalancer : Type := {
  scheduler : option edfSchduler;
  hosts : list Host;
  rand : Rand;
  unweightChooseHostFunc : list Host -> Rand -> option Host * Rand
}.

(** The candidate of one round of the loop of [ChooseHost]. *)
Definition nextCandidate (lb : EdfLoadBalancer)
  : option Host * EdfLoadBalancer :=
  match scheduler lb with
  | Some s =>
      let '(c, s') := NextAndPush s in
      (c, {| scheduler := Some s'; hosts := hosts lb; rand := rand lb;
             unweightChooseHostFunc := unweightChooseHostFunc lb |})
  | None =>
      let '(c, rand') := unweightChooseHostFunc lb (hosts lb) (rand lb) in
      (c, {| scheduler := None; hosts := hosts lb; rand := rand';
             unweightChooseHostFunc := unweightChooseHostFunc lb |})
  end.

(** The loop [for i := 0; i < total; i++]; [None] when it ends without a
    [return]. *)
Fixpoint ChooseHost_loop (n : nat) (lb : EdfLoadBalancer)
  : option Outcome * EdfLoadBalancer :=
  match n with
  | O => (None, lb)
  | S n' =>
      let '(candicate, lb') := nextCandidate lb in
      match candicate with
      | None => (Some Panicked, lb')
      | Some h =>
          if Health h then (Some (Returned (Some h)), lb')
          else ChooseHost_loop n' lb'
      end
  end.

Definition ChooseHost (lb : EdfLoadBalancer) : Outcome * EdfLoadBalancer :=
  let targetHosts := hosts lb in
  let total := length targetHosts in
  match targetHosts with
  | [] => (Returned None, lb)
  | [h] => (Returned (Some h), lb)
  | _ =>
      match ChooseHost_loop total lb with
      | (Some o, lb') => (o, lb')
      | (None, lb') =>
          let '(i, rand') := Intn (rand lb') total in
          (Returned (targetHosts !! i),
           {| scheduler := scheduler lb'; hosts := hosts lb'; rand := rand';
              unweightChooseHostFunc := unweightChooseHostFunc lb' |})
      end
  end.

(** [newleastActiveRequestLoadBalancer] with [newEdfLoadBalancerLoadBalancer]
    and [refresh]: no scheduler when the weights are equal. *)
Definition newleastActiveRequestLoadBalancer (choice : nat)
           (hostSet : list Host) (seed : Rand) : EdfLoadBalancer :=
  {| scheduler := if hostWeightsAreEqual hostSet then None
                  else Some (initScheduler hostSet);
     hosts := hostSet;
     rand := seed;
     unweightChooseHostFunc := unweightChooseHost choice |}.

(** The balancer after [k] rounds of the loop, and the candidate of round
    [k]. *)
Fixpoint afterRounds (k : nat) (lb : EdfLoadBalancer) : EdfLoadBalancer :=
  match k with
  | O => lb
  | S k' => afterRounds k' (snd (nextCandidate lb))
  end.

Definition candidateOfRound (k : nat) (lb : EdfLoadBalancer) : option Host :=
  fst (nextCandidate (afterRounds k lb)).

(** The candidate of round [j] exists and is unhealthy. *)
Definition unhealthyRound (lb : EdfLoadBalancer) (j : nat) : Prop :=
  exists hj, candidateOfRound j lb = Some hj /\ Health hj = false.

(** What [candicate.Health()] needs: the source of the candidates never
    hands out nil.  With a scheduler this is [NextAndPush], in whatever
    state the queue is, and without one [unweightChooseHostFunc], whatever
    the random source delivers. *)
Definition candidatesNeverNil (lb : EdfLoadBalancer) : Prop :=
  match scheduler lb with
  | Some _ => forall s : edfSchduler, exists c, fst (NextAndPush s) = Some c
  | None =>
      forall r : Rand,
        exists c, fst (unweightChooseHostFunc lb (hosts lb) r) = Some c
  end.

End Scheduler.

Definition default_choice : nat := 2.

(** The specification of least-active-request in its own words, for one call: the
    indices sampled in the first round are distinct, and the host returned
    is a sampled host with the smallest active-request count among the
    sampled ones. *)
Definition least_active_as_stated (choice : nat) (hostSet : list Host)
           (seed : Rand) : Prop :=
  let idxs := sampledIndices choice (length hostSet) seed in
  NoDup idxs /\
  exists h i,
    fst (ChooseHost unit (fun s => (None, s))
           (newleastActiveRequestLoadBalancer unit (fun _ => tt)
              choice hostSet seed)) = Returned (Some h) /\
    In i idxs /\ hostSet !! i = Some h /\
    forall j hj, In j idxs -> hostSet !! j = Some hj ->
                 UpstreamRequestActive h <= UpstreamRequestActive hj.

(** Two hosts of equal weight: a busy one and an idle one. *)
Definition busyHost : Host :=
  {| AddressString := "10.0.0.1:8080"; Weight := 1%N; Health := true;
     UpstreamRequestActive := 5 |}.

Definition idleHost : Host :=
  {| AddressString := "10.0.0.2:8080"; Weight := 1%N; Health := true;
     UpstreamRequestActive := 0 |}.

Definition downHost (address : string) : Host :=
  {| AddressString := address; Weight := 1%N; Health := false;
     UpstreamRequestActive := 0 |}.

(** A scheduler that is never consulted. *)
Definition noScheduler (s : unit) : option Host * unit := (None, s).

(** A host set with nobody healthy. *)
Definition downPair : list Host :=
  [downHost "10.0.0.1:8080"; downHost "10.0.0.2:8080"].

End Edf.

(** ** The smooth weighted round-robin balancer *)

Module SmoothWRR.
Import GoInt Cluster.

Record hostSmoothWeighted : Set := {
  weight : Z;
  currentWeight : Z;
  effectiveWeight : Z
}.

Record smoothWeightedRRLoadBalancer : Set := {
  hosts : list Host;
  hostsWeighted : list hostSmoothWeighted
}.

Definition newSmoothWeightedRRLoadBalancer (hostSet : list Host)
  : smoothWeightedRRLoadBalancer :=
  {| hosts := hostSet;
     hostsWeighted :=
       map (fun host =>
              let w := int64 (Z.of_N (Weight host)) in
              {| weight := w; currentWeight := 0; effectiveWeight := w |})
           hostSet |}.

(** The loop over [lb.hosts.Hosts()].  [selected] is the host chosen so
    far with its index and its [currentWeight], which the rest of the loop
    does not change.  The two slices have one length; should
    [hostsWeighted] be the shorter one the loop stops (Go would panic). *)
Fixpoint ChooseHost_loop (hostSet : list Host) (hws : list hostSmoothWeighted)
         (idx : nat) (totalWeight : Z) (selected : option (nat * Host * Z))
  : list hostSmoothWeighted * Z * option (nat * Host * Z) :=
  match hostSet, hws with
  | host :: hostSet', hw :: hws' =>
      if negb (Health host) then
        let '(l, t, s) :=
          ChooseHost_loop hostSet' hws' (S idx) totalWeight selected in
        (hw :: l, t, s)
      else
        let cw := int64 (currentWeight hw + effectiveWeight hw) in
        let totalWeight' := int64 (totalWeight + effectiveWeight hw) in
        let eff := if effectiveWeight hw <? weight hw
                   then int64 (effectiveWeight hw + 1)
                   else effectiveWeight hw in
        let hw' := {| weight := weight hw; currentWeight := cw;
                      effectiveWeight := eff |} in
        let selected' :=
          match selected with
          | None => Some (idx, host, cw)
          | Some (_, _, scw) =>
              if scw <? cw then Some (idx, host, cw) else selected
          end in
        let '(l, t, s) :=
          ChooseHost_loop hostSet' hws' (S idx) totalWeight' selected' in
        (hw' :: l, t, s)
  | _, _ => (hws, totalWeight, selected)
  end.

Definition subtractTotal (totalWeight : Z) (hw : hostSmoothWeighted)
  : hostSmoothWeighted :=
  {| weight := weight hw;
     currentWeight := int64 (currentWeight hw - totalWeight);
     effectiveWeight := effectiveWeight hw |}.

(** The selected host comes with its index in the host set. *)
Definition ChooseHost (lb : smoothWeightedRRLoadBalancer)
  : option (nat * Host) * smoothWeightedRRLoadBalancer :=
  let '(hws, totalWeight, selected) :=
    ChooseHost_loop (hosts lb) (hostsWeighted lb) 0 0 None in
  match selected with
  | Some (idx, host, _) =>
      (Some (idx, host),
       {| hosts := hosts lb;
          hostsWeighted := alter (subtractTotal totalWeight) idx hws |})
  | None => (None, {| hosts := hosts lb; hostsWeighted := hws |})
  end.

(** [n] calls in a row: the indices selected, in order, and the balancer
    afterwards. *)
Fixpoint picks (n : nat) (lb : smoothWeightedRRLoadBalancer)
  : list (option nat) * smoothWeightedRRLoadBalancer :=
  match n with
  | O => ([], lb)
  | S n' =>
      let '(sel, lb') := ChooseHost lb in
      let '(rest, lb'') := picks n' lb' in
      (option_map fst sel :: rest, lb'')
  end.

(** How often the host at index [i] was selected. *)
Fixpoint timesSelected (i : nat) (sels : list (option nat)) : Z :=
  match sels with
  | [] => 0
  | s :: sels' =>
      (match s with
       | Some k => if Nat.eqb k i then 1 else 0
       | None => 0
       end) + timesSelected i sels'
  end.

Definition weightsOf (hostSet : list Host) : list Z :=
  map (fun h => Z.of_N (Weight h)) hostSet.

Fixpoint sumZ (l : list Z) : Z :=
  match l with
  | [] => 0
  | x :: l' => x + sumZ l'
  end.

Definition totalWeight (hostSet : list Host) : Z := sumZ (weightsOf hostSet).

Definition maxWeight (hostSet : list Host) : Z :=
  fold_right Z.max 0 (weightsOf hostSet).

(** *** The algorithm on unbounded integers

    The state is the list of current weights; every host is taken to be
    healthy and its effective weight to be its weight.  The code is compared
    with this below. *)

Definition mk (w c : Z) : hostSmoothWeighted :=
  {| weight := w; currentWeight := c; effectiveWeight := w |}.

Definition raise (ws cs : list Z) : list Z := zip_with Z.add cs ws.

(** The first host with the greatest value, with its index. *)
Fixpoint argmax_from (hs : list Host) (l : list Z) (idx : nat)
         (best : option (nat * Host * Z)) : option (nat * Host * Z) :=
  match hs, l with
  | h :: hs', c :: l' =>
      let best' :=
        match best with
        | None => Some (idx, h, c)
        | Some (_, _, b) => if b <? c then Some (idx, h, c) else best
        end in
      argmax_from hs' l' (S idx) best'
  | _, _ => best
  end.

Definition idealStep (hostSet : list Host) (cs : list Z)
  : option (nat * Host) * list Z :=
  let ws := weightsOf hostSet in
  let cs' := raise ws cs in
  match argmax_from hostSet cs' 0 None with
  | Some (k, h, m) => (Some (k, h), <[k := m - sumZ ws]> cs')
  | None => (None, cs')
  end.

Fixpoint idealAfter (t : nat) (hostSet : list Host) (cs : list Z) : list Z :=
  match t with
  | O => cs
  | S t' => idealAfter t' hostSet (snd (idealStep hostSet cs))
  end.

Fixpoint idealPicks (t : nat) (hostSet : list Host) (cs : list Z)
  : list (option nat) :=
  match t with
  | O => []
  | S t' =>
      option_map fst (fst (idealStep hostSet cs))
        :: idealPicks t' hostSet (snd (idealStep hostSet cs))
  end.

(** The balancer whose current weights are [cs]. *)
Definition balancerAt (hostSet : list Host) (cs : list Z)
  : smoothWeightedRRLoadBalancer :=
  {| hosts := hostSet;
     hostsWeighted := zip_with mk (weightsOf hostSet) cs |}.

Definition zeros (hostSet : list Host) : list Z :=
  map (fun _ => 0) hostSet.

(** The values an [int64] holds. *)
Definition fits (z : Z) : Prop := - 2 ^ 63 <= z < 2 ^ 63.

(** Nginx's example: weights 5, 1 and 1. *)
Definition weighted (address : string) (w : N) : Host :=
  {| AddressString := address; Weight := w; Health := true;
     UpstreamRequestActive := 0 |}.

Definition abc : list Host :=
  [weighted "a" 5; weighted "b" 1; weighted "c" 1].

End SmoothWRR.

(** ** The dubbo codec: frame attributes and the heartbeat reply *)

Module DubboAttr.
Import GoInt Strconv Dubbo.

Definition DUBBO_STATUS_IDX : nat := 3.
Definition XPROTOCOL_PLUGIN_DUBBO : string := "dubbo".

Definition RESPONSE_WITH_EXCEPTION : Z := 0.
Definition RESPONSE_WITH_EXCEPTION_WITH_ATTACHMENTS : Z := 3.

Definition getSerializeId (flag : byte) : Z := Z.land (u8 flag) 31.

Definition getEventPing (flag : byte) : bool :=
  negb (Z.land (u8 flag) (Z.shiftl 1 5) =? 0).

Definition isReqFrame (flag : byte) : bool :=
  negb (Z.land (u8 flag) (Z.shiftl 1 7) =? 0).

(** A call returns or panics. *)
Inductive Result (A : Type) : Type :=
| Done (a : A)
| Panic.
Arguments Done {A} a.
Arguments Panic {A}.

Record dubboAttr : Type := {
  serviceName : string;
  methodName : string;
  path : string;
  version : string;
  dubboVersion : string;
  (** [None] is the nil map *)
  attachments : option (gmap string string)
}.

Definition unserializeCtlDubboVersion : Z := 1.
Definition unserializeCtlPath : Z := 2.
Definition unserializeCtlVersion : Z := 3.
Definition unserializeCtlMethod : Z := 4.
Definition unserializeCtlArgsTypes : Z := 5.
Definition unserializeCtlAttachments : Z := 6.

(** What the hessian decoder hands out: a string, an [int32], a map (kept
    as [hessian.ToMapStringString] renders it) or a value of another
    type. *)
Inductive Field : Type :=
| FString (s : string)
| FInt32 (v : Z)
| FMap (m : gmap string string)
| FOther.

(** [strEchoBytes], the frame [BuildHeartbeatResp] starts from:
    [hex.DecodeString("dabb22140000000000000001000000024e4e")]. *)
Definition strEchoBytes : list byte :=
  [xda; xbb; x22; x14;
   x00; x00; x00; x00; x00; x00; x00; x01;
   x00; x00; x00; x02;
   x4e; x4e].

Section Hessian.

(** The hessian2 decoder is a library outside the sources: its state, its
    constructor and [Decode] are parameters.  [Decode] yields [None] for
    [err != nil].  [descCount s] is the number of matches of
    [hessian.DescRegex] in [s]. *)
Variable Decoder : Type.
Variable NewDecoder : list byte -> Decoder.
Variable Decode : Decoder -> option Field * Decoder.
Variable descCount : string -> nat.

(** The header keys [types.HeaderXprotocolStreamId],
    [types.HeaderXprotocolRespStatus] and
    [types.HeaderXprotocolRespIsException] are declared outside the
    sources. *)
Variable HeaderXprotocolStreamId : string.
Variable HeaderXprotocolRespStatus : string.
Variable HeaderXprotocolRespIsException : string.

(** The loop that decodes and drops the arguments; [None] when one of them
    fails to decode. *)
Fixpoint skipArgs (n : nat) (decoder : Decoder) : option Decoder :=
  match n with
  | O => Some decoder
  | S n' =>
      match Decode decoder with
      | (Some _, decoder') => skipArgs n' decoder'
      | (None, _) => None
      end
  end.

(** [unSerialize]: [Done None] is the nil result. *)
Definition unSerialize (serializeId : Z) (data : list byte) (parseCtl : Z)
  : Result (option dubboAttr) :=
  if negb (serializeId =? 2) then Done None
  else
    match Decode (NewDecoder data) with
    | (Some (FString str), decoder) =>
        let attr := {| serviceName := ""; methodName := ""; path := "";
                       version := ""; dubboVersion := str;
                       attachments := None |} in
        if parseCtl <=? unserializeCtlDubboVersion then Done (Some attr)
        else
          match Decode decoder with
          | (Some (FString str), decoder) =>
              let attr := {| serviceName := str; methodName := "";
                             path := str; version := "";
                             dubboVersion := dubboVersion attr;
                             attachments := None |} in
              if parseCtl <=? unserializeCtlPath then Done (Some attr)
              else
                match Decode decoder with
                | (Some (FString str), decoder) =>
                    let attr := {| serviceName := serviceName attr;
                                   methodName := ""; path := path attr;
                                   version := str;
                                   dubboVersion := dubboVersion attr;
                                   attachments := None |} in
                    if parseCtl <=? unserializeCtlVersion then Done (Some attr)
                    else
                      match Decode decoder with
                      | (Some (FString str), decoder) =>
                          let attr := {| serviceName := serviceName attr;
                                         methodName := str; path := path attr;
                                         version := version attr;
                                         dubboVersion := dubboVersion attr;
                                         attachments := None |} in
                          if parseCtl <=? unserializeCtlMethod
                          then Done (Some attr)
                          else
                            match Decode decoder with
                            | (None, _) => Done None
                            | (Some (FString argsTypes), decoder) =>
                                match skipArgs (descCount argsTypes) decoder with
                                | None => Done None
                                | Some decoder =>
                                    match Decode decoder with
                                    | (None, _) => Done None
                                    | (Some (FMap m), _) =>
                                        Done (Some
                                          {| serviceName := serviceName attr;
                                             methodName := methodName attr;
                                             path := path attr;
                                             version := version attr;
                                             dubboVersion := dubboVersion attr;
                                             attachments := Some m |})
                                    | (Some _, _) => Done (Some attr)
                                    end
                                end
                            | (Some _, _) => Panic
                            end
                      | _ => Done None
                      end
                | _ => Done None
                end
          | _ => Done None
          end
    | _ => Done None
    end.

(** [dubboGetServiceName] and [dubboGetMethodName], which [init] installs
    as [serviceNameFunc] and [methodNameFunc], so that [GetServiceName] and
    [GetMethodName] of the codec are these.  A missing
    [data[DUBBO_FLAG_IDX]] would be a panic. *)
Definition dubboGetServiceName (data : list byte) : Result string :=
  let '(rslt, bodyLen) := isValidDubboData data in
  if negb rslt || (bodyLen <=? 0) then Done ""%string
  else
    match data !! DUBBO_FLAG_IDX with
    | None => Panic
    | Some flag =>
        if getEventPing flag then Done ""%string
        else if negb (isReqFrame flag) then Done ""%string
        else
          let serializeId := getSerializeId flag in
          match unSerialize serializeId (skipn 16 data) unserializeCtlPath with
          | Panic => Panic
          | Done None => Done ""%string
          | Done (Some ret) => Done (serviceName ret)
          end
    end.

Definition dubboGetMethodName (data : list byte) : Result string :=
  let '(rslt, bodyLen) := isValidDubboData data in
  if negb rslt || (bodyLen <=? 0) then Done ""%string
  else
    match data !! DUBBO_FLAG_IDX with
    | None => Panic
    | Some flag =>
        if getEventPing flag then Done ""%string
        else if negb (isReqFrame flag) then Done ""%string
        else
          let serializeId := getSerializeId flag in
          match unSerialize serializeId (skipn 16 data) unserializeCtlMethod with
          | Panic => Panic
          | Done None => Done ""%string
          | Done (Some ret) => Done (methodName ret)
          end
    end.

(** [dubboGetMeta]; [Done None] is the nil map.  A nil [ret] is
    dereferenced in the request branch. *)
Definition dubboGetMeta (data : list byte)
  : Result (option (gmap string string)) :=
  let '(rslt, bodyLen) := isValidDubboData data in
  if negb rslt || (bodyLen <=? 0) then Done None
  else
    match data !! DUBBO_FLAG_IDX with
    | None => Panic
    | Some flag =>
        if getEventPing flag then
          Done (Some {[ HealthCheck.HeaderXprotocolHeartbeat
                        := XPROTOCOL_PLUGIN_DUBBO ]})
        else if negb (isReqFrame flag) then
          match data !! DUBBO_STATUS_IDX with
          | None => Panic
          | Some status =>
              let retMap : gmap string string :=
                {[ HeaderXprotocolRespStatus := FormatUint (u8 status) ]} in
              match fst (Decode (NewDecoder (skipn 16 data))) with
              | Some (FInt32 resWithException) =>
                  if (resWithException =? RESPONSE_WITH_EXCEPTION)
                     || (resWithException
                         =? RESPONSE_WITH_EXCEPTION_WITH_ATTACHMENTS)
                  then Done (Some (<[HeaderXprotocolRespIsException
                                     := "true"%string]> retMap))
                  else Done (Some retMap)
              | _ => Done (Some retMap)
              end
          end
        else
          let serializeId := getSerializeId flag in
          match unSerialize serializeId (skipn 16 data)
                            unserializeCtlAttachments with
          | Panic => Panic
          | Done None => Panic
          | Done (Some ret) =>
              let retMap : gmap string string :=
                <["version"%string := version ret]>
                  (<["path"%string := path ret]>
                     (<["methodName"%string := methodName ret]>
                        (<["dubboVersion"%string := dubboVersion ret]>
                           {[ "serviceName"%string := serviceName ret ]}))) in
              match attachments ret with
              | Some m => Done (Some (m ∪ retMap))
              | None => Done (Some retMap)
              end
          end
    end.

(** [rpcDubbo.BuildHeartbeatResp]; [Done None] is the nil slice. *)
Definition BuildHeartbeatResp (headers : gmap string string)
  : Result (option (list byte)) :=
  match headers !! HeaderXprotocolStreamId with
  | None => Done None
  | Some requestId =>
      match SetStreamID strEchoBytes requestId with
      | Some d => Done (Some d)
      | None => Panic
      end
  end.

End Hessian.

(** Frames as [SplitFrame] cuts them: a valid header and exactly the
    payload it announces. *)
Definition wholeFrame (f : list byte) : Prop :=
  getDubboLen f = Z.of_nat (length f).

(** A request of one payload byte whose flag announces serialization 6,
    which is not hessian2. *)
Definition fastjson_frame : list byte :=
  [xda; xbb; xc6; x00;
   x00; x00; x00; x00; x00; x00; x00; x09;
   x00; x00; x00; x01;
   x7b].

(** A decoder for examples: nothing decodes. *)
Definition noDecode (d : unit) : option Field * unit := (None, d).

End DubboAttr.

(** ** The random balancer, and balancers called again and again *)

Module RandomLB.
Import GoInt Cluster.

(** [roundRobinLoadBalancerFactory.newRoundRobinLoadBalancer]; [r] is the
    value of [f.rand.Uint32()]. *)
Definition newRoundRobinLoadBalancer (r : Z) (hostSet : list Host)
  : RoundRobin.roundRobinLoadBalancer :=
  {| RoundRobin.hosts := hostSet;
     RoundRobin.rrIndex :=
       if negb (Nat.eqb (length hostSet) 0)
       then uint32 r mod uint32 (Z.of_nat (length hostSet))
       else 0 |}.

(** [n] calls of the round-robin [ChooseHost] in a row. *)
Fixpoint roundRobinPicks (n : nat) (lb : RoundRobin.roundRobinLoadBalancer)
  : list (option Host) * RoundRobin.roundRobinLoadBalancer :=
  match n with
  | O => ([], lb)
  | S n' =>
      let '(h, lb') := RoundRobin.ChooseHost lb in
      let '(rest, lb'') := roundRobinPicks n' lb' in
      (h :: rest, lb'')
  end.

(** The host set is one object, which the balancer and its round-robin
    fallback both read: [rrLB] is kept as the index of the fallback. *)
Record randomLoadBalancer : Set := {
  rand : Rand;
  hosts : list Host;
  rrLB : Z
}.

Definition newRandomLoadBalancer (seed : Rand) (r : Z) (hostSet : list Host)
  : randomLoadBalancer :=
  {| rand := seed; hosts := hostSet;
     rrLB := RoundRobin.rrIndex (newRoundRobinLoadBalancer r hostSet) |}.

(** [randomLoadBalancer.ChooseHost].  [Intn] stays below [total], so that
    [targets[idx]] is always there (an index out of range would panic). *)
Definition ChooseHost (lb : randomLoadBalancer)
  : option Host * randomLoadBalancer :=
  let targets := hosts lb in
  let total := length targets in
  if Nat.eqb total 0 then (None, lb)
  else
    let '(idx, rand') := Intn (rand lb) total in
    match targets !! idx with
    | None => (None, {| rand := rand'; hosts := targets; rrLB := rrLB lb |})
    | Some host =>
        if Health host
        then (Some host, {| rand := rand'; hosts := targets; rrLB := rrLB lb |})
        else
          let '(h, rr') :=
            RoundRobin.ChooseHost
              {| RoundRobin.hosts := targets; RoundRobin.rrIndex := rrLB lb |} in
          (h, {| rand := rand'; hosts := targets;
                 rrLB := RoundRobin.rrIndex rr' |})
    end.

(** The host the round-robin index points at after [j] more steps. *)
Definition hostAfter (targets : list Host) (rrIndex j : Z) : option Host :=
  targets !! Z.to_nat ((rrIndex + j) mod Z.of_nat (length targets)).

End RandomLB.



(** ** pkg/types: connection events *)

Module NetworkTypes.

(** [type ConnectionEvent string]. *)
Definition ConnectionEvent : Set := string.

Definition RemoteClose : ConnectionEvent := "RemoteClose".
Definition LocalClose : ConnectionEvent := "LocalClose".
Definition OnReadErrClose : ConnectionEvent := "OnReadErrClose".
Definition OnWriteErrClose : ConnectionEvent := "OnWriteErrClose".
Definition OnConnect : ConnectionEvent := "OnConnect".
Definition Connected : ConnectionEvent := "ConnectedFlag".
Definition ConnectTimeout : ConnectionEvent := "ConnectTimeout".
Definition ConnectFailed : ConnectionEvent := "ConnectFailed".
Definition OnReadTimeout : ConnectionEvent := "OnReadTimeout".
Definition OnWriteTimeout : ConnectionEvent := "OnWriteTimeout".

Definition IsClose (ce : ConnectionEvent) : bool :=
  String.eqb ce LocalClose || String.eqb ce RemoteClose ||
  String.eqb ce OnReadErrClose || String.eqb ce OnWriteErrClose ||
  String.eqb ce OnWriteTimeout.

Definition ConnectFailure (ce : ConnectionEvent) : bool :=
  String.eqb ce ConnectFailed || String.eqb ce ConnectTimeout.

End NetworkTypes.

(** ** The keep-alive as a connection event listener *)

Module KeepAliveConn.
Import GoInt KeepAlive NetworkTypes.

(** [sofaRPCKeepAlive.OnEvent]. *)
Definition OnEvent (kp : sofaRPCKeepAlive) (event : ConnectionEvent)
  : sofaRPCKeepAlive :=
  if IsClose event || ConnectFailure event then Stop kp else kp.

(** [sofaRPCKeepAlive.SendKeepAlive]; [sendKeepAlive], which goes through
    the codec, is a parameter. *)
Definition SendKeepAlive {A : Type}
           (sendKeepAlive : sofaRPCKeepAlive -> sofaRPCKeepAlive * list A)
           (kp : sofaRPCKeepAlive) : sofaRPCKeepAlive * list A :=
  if stopped kp then (kp, []) else sendKeepAlive kp.

(** What reaches a keep-alive: an event of its connection, the expiry of a
    timer or a heartbeat response. *)
Inductive Input : Set :=
| OnConnEvent (event : ConnectionEvent)
| OnTimeout (id : Z)
| OnSuccess (id : Z).

Definition deliver (kp : sofaRPCKeepAlive) (i : Input)
  : sofaRPCKeepAlive * list Effect :=
  match i with
  | OnConnEvent event => (OnEvent kp event, [])
  | OnTimeout id => HandleTimeout kp id
  | OnSuccess id => HandleSuccess kp id
  end.

(** The inputs delivered in order, with all the effects they have. *)
Fixpoint deliverAll (kp : sofaRPCKeepAlive) (inputs : list Input)
  : sofaRPCKeepAlive * list Effect :=
  match inputs with
  | [] => (kp, [])
  | i :: rest =>
      let '(kp', effects) := deliver kp i in
      let '(kp'', effects') := deliverAll kp' rest in
      (kp'', effects ++ effects')
  end.

End KeepAliveConn.

(** ** The x-protocol stream as a sender *)

Module XStreamSender.
Import GoInt Strconv Dubbo XStream NetworkTypes.

(** [streamMap.Get], [Len] and [streamConnection.ActiveStreamsNum]. *)
Definition Get (m : gmap string stream) (id : string) : option stream :=
  m !! id.

Definition ActiveStreamsNum (conn : streamConnection) : nat :=
  size (activeStream conn).

(** [stream.ID]: the error of [strconv.ParseUint] is dropped, and 0 is
    what is left in [id] then. *)
Definition ID (s : stream) : Z :=
  match ParseUint (streamID s) with
  | Some id => id
  | None => 0
  end.

(** The sender handed out by [NewStream] or made in [onNewStreamDetected]:
    the stream with its [encodedData]; [None] is the nil buffer. *)
Record sender : Set := {
  self : stream;
  encodedData : option (list byte)
}.

Definition newSender (s : stream) : sender :=
  {| self := s; encodedData := None |}.

(** What a call did to the connection: the buffers written, in order, and
    whether [DestroyStream] ran. *)
Record Sent : Type := {
  after : streamConnection;
  written : list (list byte);
  destroyed : bool
}.

(** [stream.endStream]. *)
Definition endStream (conn : streamConnection) (s : sender) : Sent :=
  let w :=
    match Get (activeStream conn) (streamID (self s)) with
    | Some _ =>
        match encodedData s with
        | Some bytes => [bytes]
        | None => []
        end
    | None => []
    end in
  match direction (self s) with
  | ServerStream =>
      {| after := with_table conn (delete (streamID (self s)) (activeStream conn));
         written := w; destroyed := true |}
  | ClientStream =>
      {| after := conn; written := w; destroyed := false |}
  end.

(** [stream.AppendData] with the dubbo codec; [None] is a panic of
    [SetStreamID]. *)
Definition AppendData (conn : streamConnection) (s : sender)
           (data : list byte) (endStream' : bool) : option (sender * Sent) :=
  match SetStreamID data (streamID (self s)) with
  | None => None
  | Some newData =>
      let s' := {| self := self s; encodedData := Some newData |} in
      if endStream' then Some (s', endStream conn s')
      else Some (s', {| after := conn; written := []; destroyed := false |})
  end.

(** [stream.AppendTrailers]. *)
Definition AppendTrailers (conn : streamConnection) (s : sender) : Sent :=
  endStream conn s.

(** On a connection without a server listener the table holds streams
    made by [NewStream] only: every key is the decimal form of a counter
    value already used. *)
Definition clientTable (conn : streamConnection) (n : Z) : Prop :=
  hasServerListener conn = false /\
  0 <= streamIDXprotocolCount conn <= n /\
  forall key s, activeStream conn !! key = Some s ->
                exists k, 1 <= k <= streamIDXprotocolCount conn /\
                          key = FormatUint k.

End XStreamSender.

(** ** The HTTP/2 frame scanner *)

Module Http2.
Import GoInt.

Definition http2frameHeaderLen : Z := 9.

(** ["PRI * HTTP/2.0\r\n\r\nSM\r\n\r\n"]. *)
Definition CRLF : string :=
  String (ascii_of_nat 13) (String (ascii_of_nat 10) EmptyString).

Definition clientPreface : string :=
  ("PRI * HTTP/2.0" ++ CRLF ++ CRLF ++ "SM" ++ CRLF ++ CRLF)%string.

(** [header] is the array [[http2frameHeaderLen]byte]. *)
Record protocols : Set := {
  preface : bool;
  parseHeader : bool;
  header : list byte
}.

Definition NewProtocols : protocols :=
  {| preface := false; parseHeader := false; header := replicate 9 x00 |}.

(** [copyHeader]: the loop [for i := 0; i < http2frameHeaderLen; i++];
    [None] is the panic of [b[i]] out of range. *)
Fixpoint copyHeader_loop (n i : nat) (header b : list byte)
  : option (list byte) :=
  match n with
  | O => Some header
  | S n' =>
      match b !! i with
      | Some x => copyHeader_loop n' (S i) (<[i := x]> header) b
      | None => None
      end
  end.

Definition copyHeader (header b : list byte) : option (list byte) :=
  copyHeader_loop (Z.to_nat http2frameHeaderLen) 0 header b.

(** [uint32(b[0])<<16 | uint32(b[1])<<8 | uint32(b[2])]. *)
Definition frameLength (b : list byte) : Z :=
  Z.lor (Z.lor (uint32 (Z.shiftl (u8 (nth 0 b x00)) 16))
               (uint32 (Z.shiftl (u8 (nth 1 b x00)) 8)))
        (u8 (nth 2 b x00)).

(** How a call of [Decode] ends: it returns, with the decoder as it is
    then, the offset reached and the number of calls of
    [filter.OnDecodeData], or it panics. *)
Inductive Outcome : Set :=
| Returned (p : protocols) (off : Z) (calls : nat)
| Panicked.

(** The loop [for { ... }] of [Decode]; [None] when the fuel runs out. *)
Fixpoint Decode_loop (fuel : nat) (buf : list byte) (size : Z)
         (p : protocols) (off : Z) (calls : nat) : option Outcome :=
  match fuel with
  | O => None
  | S fuel' =>
      if parseHeader p then
        if int64 (off + http2frameHeaderLen) >? size
        then Some (Returned p off calls)
        else
          match copyHeader (header p) (drop (Z.to_nat off) buf) with
          | Some h =>
              Decode_loop fuel' buf size
                {| preface := preface p; parseHeader := false; header := h |}
                (int64 (off + http2frameHeaderLen)) (S calls)
          | None => Some Panicked
          end
      else
        let length := frameLength (header p) in
        if int64 (off + length) >? size
        then Some (Returned p off calls)
        else
          Decode_loop fuel' buf size
            {| preface := preface p; parseHeader := true;
               header := header p |}
            (int64 (off + length)) (S calls)
  end.

(** [protocols.Decode] on the bytes [buf] of [data]. *)
Definition Decode (p : protocols) (buf : list byte) : option Outcome :=
  let size := Z.of_nat (length buf) in
  let fuel := (2 * length buf + 4)%nat in
  if negb (preface p) then
    if size >=? Z.of_nat (String.length clientPreface) then
      Decode_loop fuel buf size
        {| preface := true; parseHeader := true; header := header p |}
        (Z.of_nat (String.length clientPreface)) 1
    else Some (Returned p 0 0)
  else Decode_loop fuel buf size p 0 0.

(** A frame on the wire: nine bytes of header, of which the first three
    give the length of the payload, and the payload. *)
Definition wholeFrame (f : list byte) : Prop :=
  Z.of_nat (length f) = http2frameHeaderLen + frameLength (take 9 f).

(** The header that the decoder holds after the frames [fs]. *)
Definition lastHeader (h : list byte) (fs : list (list byte)) : list byte :=
  match last fs with
  | Some f => take 9 f
  | None => h
  end.

(** A SETTINGS frame without payload and a DATA frame of two bytes. *)
Definition settingsFrame : list byte :=
  [x00; x00; x00; x04; x00; x00; x00; x00; x00].

Definition dataFrame : list byte :=
  [x00; x00; x02; x00; x01; x00; x00; x00; x01; x68; x69].

Definition prefaceBytes : list byte :=
  map (fun c => byte_of_Z (Z.of_nat (nat_of_ascii c)))
      (list_ascii_of_string clientPreface).

End Http2.

(** ** pkg/types: the xDS start parameters *)

Module XdsFlags.

Definition serviceMetaSeparator : string := ":".

(** [strings.SplitN(s, sep, 2)] for a [sep] that is not empty: [s] is cut
    at the first place where [sep] starts; without one [s] is the only
    piece. *)
Fixpoint dropString (n : nat) (s : string) : string :=
  match n, s with
  | S n', String _ s' => dropString n' s'
  | _, _ => s
  end.

Fixpoint cutAtFirst (sep s : string) : option (string * string) :=
  if String.prefix sep s
  then Some (EmptyString, dropString (String.length sep) s)
  else
    match s with
    | EmptyString => None
    | String c s' =>
        match cutAtFirst sep s' with
        | Some (before, after) => Some (String c before, after)
        | None => None
        end
    end.

Definition SplitN2 (s sep : string) : list string :=
  match cutAtFirst sep s with
  | Some (before, after) => [before; after]
  | None => [s]
  end.

(** [Metadata] is a [*types.Struct], nil in the zero value; of a
    [types.Struct] the string values of [Fields] are kept. *)
Record XdsInfo : Type := {
  ServiceCluster : string;
  ServiceNode : string;
  Metadata : option (gmap string string)
}.

Definition globalXdsInfo : XdsInfo :=
  {| ServiceCluster := ""; ServiceNode := ""; Metadata := None |}.

(** The body of the loop over [serviceMeta]. *)
Definition addMeta (fields : gmap string string) (keyValue : string)
  : gmap string string :=
  match SplitN2 keyValue serviceMetaSeparator with
  | [key; value] => <[key := value]> fields
  | _ => fields
  end.

(** [InitXdsFlags]: what [globalXdsInfo] is afterwards.  Every field is
    assigned, so that nothing of the former value is left. *)
Definition InitXdsFlags (serviceCluster serviceNode : string)
           (serviceMeta : list string) : XdsInfo :=
  {| ServiceCluster := serviceCluster;
     ServiceNode := serviceNode;
     Metadata := Some (fold_left addMeta serviceMeta ∅) |}.

(** A string in which the separator does not occur. *)
Definition noSeparator (s : string) : Prop :=
  cutAtFirst serviceMetaSeparator s = None.

End XdsFlags.

(** ** pkg/featuregate

    A Go map that is ranged over comes as the list of its entries in the
    order in which the [range] delivers them, which Go leaves open: such a
    list has every key once. *)

Module FeatureGate.

(** [type Feature string] and [type prerelease string]. *)
Abbreviation Feature := string (only parsing).
Abbreviation prerelease := string (only parsing).

Definition allAlphaGate : Feature := "AllAlpha".

Definition Alpha : prerelease := "ALPHA".
Definition Beta : prerelease := "BETA".
Definition GA : prerelease := "".

(** [InitFunc] is a [func()]: [None] is nil, a number stands for a
    function. *)
Record FeatureSpec : Set := {
  Default : bool;
  LockToDefault : bool;
  PreRelease : prerelease;
  InitFunc : option nat
}.

(** [reflect.DeepEqual] on two [FeatureSpec]s: func values are deeply
    equal only when both are nil. *)
Definition DeepEqual (a b : FeatureSpec) : bool :=
  Bool.eqb (Default a) (Default b) &&
  Bool.eqb (LockToDefault a) (LockToDefault b) &&
  String.eqb (PreRelease a) (PreRelease b) &&
  match InitFunc a, InitFunc b with
  | None, None => true
  | _, _ => false
  end.

(** [once] has run and [channel] is closed when [closedChannel] is set. *)
Record oneTimeBroadcaster : Set := {
  notified : bool;
  closedChannel : bool
}.

Record defaultFeatureGate : Type := {
  known : gmap Feature FeatureSpec;
  enabled : gmap Feature bool;
  closed : bool;
  ready : gmap Feature bool;
  broadcasters : gmap Feature oneTimeBroadcaster;
  info : string
}.

Inductive Error : Set :=
| ErrUnrecognized (k : Feature)
| ErrLocked (k : Feature) (v default : bool)
| ErrClosed
| ErrDifferentSpec (name : Feature) (existingSpec : FeatureSpec)
| ErrUnknown (key : Feature)
| ErrDisabled (key : Feature)
| ErrRepeat (key : Feature)
| ErrSubscribe (key : Feature).

Definition defaultFeatures : gmap Feature FeatureSpec :=
  {[ allAlphaGate := {| Default := false; LockToDefault := false;
                        PreRelease := Alpha; InitFunc := None |} ]}.

(** [setUnsetAlphaGates]: every round of the loop over [known] reads and
    writes the entry of its own key only. *)
Definition setUnsetAlphaGates (known : gmap Feature FeatureSpec)
           (enabled : gmap Feature bool) (val : bool) : gmap Feature bool :=
  map_fold (fun k v enabled =>
              if String.eqb (PreRelease v) Alpha then
                match enabled !! k with
                | None => <[k := val]> enabled
                | Some _ => enabled
                end
              else enabled)
           enabled known.

(** [specialFeatures], which is what [special] holds in every gate. *)
Definition special (k : Feature)
  : option (gmap Feature FeatureSpec -> gmap Feature bool -> bool
            -> gmap Feature bool) :=
  if String.eqb k allAlphaGate then Some setUnsetAlphaGates else None.

Definition NewFeatureGate : defaultFeatureGate :=
  {| known := defaultFeatures; enabled := ∅; closed := false; ready := ∅;
     broadcasters := ∅; info := "" |}.

(** [fmt.Sprintf("%s=%t", k, v)]. *)
Definition pair_string (k : Feature) (v : bool) : string :=
  (k ++ "=" ++ (if v then "true" else "false"))%string.

(** [strings.Join(pairs, ",")]. *)
Fixpoint Join (elems : list string) (sep : string) : string :=
  match elems with
  | [] => ""
  | [s] => s
  | s :: rest => (s ++ sep ++ Join rest sep)%string
  end.

(** The order of [sort.Strings]: strings compare byte by byte. *)
Definition string_le (a b : string) : Prop := String.leb a b = true.

#[global] Instance string_le_dec (a b : string) : Decision (string_le a b).
Proof. unfold string_le. apply _. Defined.

(** The info string: the pairs of [enabled], sorted by [sort.Strings], so
    that the order in which [enabled] is ranged over does not show. *)
Definition infoOf (enabled : gmap Feature bool) : string :=
  Join (merge_sort string_le
          (map (fun kv => pair_string (fst kv) (snd kv))
               (map_to_list enabled)))
       ",".

(** The loop of [SetFromMap] over [m], on the copies of [known] and
    [enabled]. *)
Fixpoint SetFromMap_loop (known : gmap Feature FeatureSpec)
         (enabled : gmap Feature bool) (m : list (string * bool))
  : Error + gmap Feature bool :=
  match m with
  | [] => inr enabled
  | (k, v) :: rest =>
      match known !! k with
      | None => inl (ErrUnrecognized k)
      | Some featureSpec =>
          if LockToDefault featureSpec
             && negb (Bool.eqb (Default featureSpec) v)
          then inl (ErrLocked k v (Default featureSpec))
          else
            let enabled1 := <[k := v]> enabled in
            let enabled2 :=
              match special k with
              | Some fn => fn known enabled1 v
              | None => enabled1
              end in
            SetFromMap_loop known enabled2 rest
      end
  end.

(** [SetFromMap]: the error, if any, and the gate afterwards. *)
Definition SetFromMap (f : defaultFeatureGate) (m : list (string * bool))
  : option Error * defaultFeatureGate :=
  match SetFromMap_loop (known f) (enabled f) m with
  | inl err => (Some err, f)
  | inr enabled' =>
      (None,
       {| known := known f; enabled := enabled'; closed := closed f;
          ready := ready f; broadcasters := broadcasters f;
          info := infoOf enabled' |})
  end.

(** The loop of [Add]: [known] is a copy, [broadcasters] is the map of the
    gate itself. *)
Fixpoint Add_loop (known : gmap Feature FeatureSpec)
         (broadcasters : gmap Feature oneTimeBroadcaster)
         (features : list (Feature * FeatureSpec))
  : option Error * gmap Feature FeatureSpec
    * gmap Feature oneTimeBroadcaster :=
  match features with
  | [] => (None, known, broadcasters)
  | (name, spec) :: rest =>
      match known !! name with
      | Some existingSpec =>
          if DeepEqual existingSpec spec
          then Add_loop known broadcasters rest
          else (Some (ErrDifferentSpec name existingSpec), known, broadcasters)
      | None =>
          let known' := <[name := spec]> known in
          let broadcasters' :=
            match broadcasters !! name with
            | Some _ => broadcasters
            | None =>
                <[name := {| notified := false; closedChannel := false |}]>
                  broadcasters
            end in
          Add_loop known' broadcasters' rest
      end
  end.

Definition Add (f : defaultFeatureGate)
           (features : list (Feature * FeatureSpec))
  : option Error * defaultFeatureGate :=
  if closed f then (Some ErrClosed, f)
  else
    match Add_loop (known f) (broadcasters f) features with
    | (Some err, _, broadcasters') =>
        (Some err,
         {| known := known f; enabled := enabled f; closed := closed f;
            ready := ready f; broadcasters := broadcasters';
            info := info f |})
    | (None, known', broadcasters') =>
        (None,
         {| known := known'; enabled := enabled f; closed := closed f;
            ready := ready f; broadcasters := broadcasters';
            info := info f |})
    end.

Definition AddFeatureSpec (f : defaultFeatureGate) (key : Feature)
           (spec : FeatureSpec) : option Error * defaultFeatureGate :=
  Add f [(key, spec)].

Definition Enabled (f : defaultFeatureGate) (key : Feature) : bool :=
  match enabled f !! key with
  | Some v => v
  | None =>
      match known f !! key with
      | Some v => Default v
      | None => false
      end
  end.

(** The part of [AddFlag] that changes the gate. *)
Definition AddFlag (f : defaultFeatureGate) : defaultFeatureGate :=
  {| known := known f; enabled := enabled f; closed := true;
     ready := ready f; broadcasters := broadcasters f; info := info f |}.

(** [DeepCopy]: the entries of [ready] are written into [enabled], and
    [ready] of the copy stays empty; [info] is not set.  A broadcaster of
    the copy has a [once] of its own on the channel of the original. *)
Definition DeepCopy (f : defaultFeatureGate) : defaultFeatureGate :=
  {| known := known f;
     enabled := ready f ∪ enabled f;
     closed := closed f;
     ready := ∅;
     broadcasters := broadcasters f;
     info := "" |}.

Definition doUpdateToReady (f : defaultFeatureGate) (key : Feature)
  : defaultFeatureGate :=
  {| known := known f; enabled := enabled f; closed := closed f;
     ready := <[key := true]> (ready f); broadcasters := broadcasters f;
     info := info f |}.

Definition updateToReady (f : defaultFeatureGate) (key : Feature)
  : option Error * defaultFeatureGate :=
  match known f !! key with
  | None => (Some (ErrUnknown key), f)
  | Some _ =>
      if negb (Enabled f key) then (Some (ErrDisabled key), f)
      else
        match broadcasters f !! key with
        | Some b =>
            if notified b then (Some (ErrRepeat key), f)
            else
              (None,
               doUpdateToReady
                 {| known := known f; enabled := enabled f;
                    closed := closed f; ready := ready f;
                    broadcasters :=
                      <[key := {| notified := true; closedChannel := true |}]>
                        (broadcasters f);
                    info := info f |}
                 key)
        | None => (Some (ErrUnrecognized key), f)
        end
  end.

Definition IsReady (f : defaultFeatureGate) (key : Feature) : bool :=
  match ready f !! key with
  | Some v => v
  | None => false
  end.

(** [Subscribe]: the channel handed out, as whether it is closed. *)
Definition Subscribe (f : defaultFeatureGate) (key : Feature)
  : Error + bool :=
  match known f !! key with
  | None => inl (ErrUnknown key)
  | Some _ =>
      match broadcasters f !! key with
      | Some broadcaster => inr (closedChannel broadcaster)
      | None => inl (ErrSubscribe key)
      end
  end.

(** What happens to a gate. *)
Inductive Call : Type :=
| CallSetFromMap (m : list (string * bool))
| CallAdd (features : list (Feature * FeatureSpec))
| CallAddFlag
| CallUpdateToReady (key : Feature).

Definition call (f : defaultFeatureGate) (c : Call) : defaultFeatureGate :=
  match c with
  | CallSetFromMap m => snd (SetFromMap f m)
  | CallAdd features => snd (Add f features)
  | CallAddFlag => AddFlag f
  | CallUpdateToReady key => snd (updateToReady f key)
  end.

Definition calls (f : defaultFeatureGate) (cs : list Call)
  : defaultFeatureGate :=
  fold_left call cs f.

(** An entry that [SetFromMap] takes: its feature is known, and if the
    feature is locked the value is its default. *)
Definition settable (known : gmap Feature FeatureSpec) (kv : string * bool)
  : Prop :=
  exists featureSpec,
    known !! fst kv = Some featureSpec /\
    (LockToDefault featureSpec = true -> Default featureSpec = snd kv).

(** The value [m] holds for [k]. *)
Definition valueOf (m : list (string * bool)) (k : string) : option bool :=
  (list_to_map m : gmap string bool) !! k.

(** The gate of [TestFeatureGateSetFromMap]. *)
Definition testSpecs : list (Feature * FeatureSpec) :=
  [("TestAlpha"%string,
    {| Default := false; LockToDefault := false; PreRelease := Alpha;
       InitFunc := None |});
   ("TestBeta"%string,
    {| Default := false; LockToDefault := false; PreRelease := Beta;
       InitFunc := None |});
   ("TestLockedTrue"%string,
    {| Default := true; LockToDefault := true; PreRelease := GA;
       InitFunc := None |});
   ("TestLockedFalse"%string,
    {| Default := false; LockToDefault := true; PreRelease := GA;
       InitFunc := None |})].

Definition testGate : defaultFeatureGate := snd (Add NewFeatureGate testSpecs).

End FeatureGate.

(** ** pkg/config: the weights of the hosts *)

Module Config.
Import GoInt.

Definition MinHostWeight : Z := uint32 1.
Definition MaxHostWeight : Z := uint32 128.

(** Of a [v2.Host] the weight, a [uint32], and the other fields, which
    the parser hands on. *)
Record Host (A : Type) : Type := {
  Weight : Z;
  others : A
}.
Arguments Weight {A} _.
Arguments others {A} _.

Definition transHostWeight (weight : Z) : Z :=
  if weight >? MaxHostWeight then MaxHostWeight
  else if weight <? MinHostWeight then MinHostWeight
  else weight.

(** [parseHostConfig]: the loop appends to [hs], which is nil at first. *)
Definition parseHostConfig {A : Type} (hosts : list (Host A))
  : list (Host A) :=
  fold_left (fun hs host =>
               hs ++ [{| Weight := transHostWeight (Weight host);
                         others := others host |}])
            hosts [].

(** A host of a cluster whose weight is one that the parser hands out. *)
Definition parsedWeight (h : Cluster.Host) : Prop :=
  exists weight : Z,
    0 <= weight < 2 ^ 32 /\
    Z.of_N (Cluster.Weight h) = transHostWeight weight.

End Config.

(** ** The websocket stream connection *)

Module WebSocket.
Import NetworkTypes.

(** [ConnectionState] is a string type; the code assigns these constants
    only. *)
Inductive ConnectionState : Set :=
| PreConnect
| Connected
| Failed.

(** Of the connection: whether [proxy] is there (not nil), the data in the
    queue, nil or not, and the state. *)
Record streamConnection : Set := {
  proxy : bool;
  queueData : option (list byte);
  state : ConnectionState
}.

Definition newStreamConnection : streamConnection :=
  {| proxy := false; queueData := None; state := PreConnect |}.

(** The TCP proxy is outside the sources: what is kept of it are the calls
    made to it, in order. *)
Inductive ProxyCall : Set :=
| NewProxyForWebSocket
| OnData (buffer : list byte)
| InitializeReadFilterCallbacks
| OnNewConnection.

Inductive UpstreamEventIterator : Set :=
| EventStop
| EventContinue.

(** [Upgrade]: [hasData] is true. *)
Definition Upgrade (conn : streamConnection) (buffer : list byte)
  : streamConnection * list ProxyCall :=
  ({| proxy := true; queueData := queueData conn; state := state conn |},
   [NewProxyForWebSocket; OnData buffer]).

(** [Dispatch]; in the queue goes a clone of the buffer. *)
Definition Dispatch (conn : streamConnection) (buffer : list byte)
  : streamConnection * list ProxyCall :=
  if proxy conn then
    match state conn with
    | PreConnect =>
        ({| proxy := proxy conn; queueData := Some buffer;
            state := state conn |}, [])
    | _ => (conn, [OnData buffer])
    end
  else
    let '(conn', calls) := Upgrade conn buffer in
    (conn', calls ++ [InitializeReadFilterCallbacks; OnNewConnection]).

(** [onConnectionSuccess]; [None] is the panic of a call on a nil
    [proxy]. *)
Definition onConnectionSuccess (conn : streamConnection)
  : option (streamConnection * list ProxyCall) :=
  match state conn with
  | PreConnect =>
      match queueData conn with
      | Some data =>
          if proxy conn
          then Some ({| proxy := proxy conn; queueData := None;
                        state := Connected |}, [OnData data])
          else None
      | None =>
          Some ({| proxy := proxy conn; queueData := queueData conn;
                   state := Connected |}, [])
      end
  | _ => Some (conn, [])
  end.

(** [OnEvent]: the case of [types.OnConnect] is empty and does not fall
    through. *)
Definition OnEvent (conn : streamConnection) (event : ConnectionEvent)
  : option (streamConnection * list ProxyCall * UpstreamEventIterator) :=
  if String.eqb event NetworkTypes.OnConnect then Some (conn, [], EventContinue)
  else if String.eqb event NetworkTypes.Connected then
    match onConnectionSuccess conn with
    | Some (conn', calls) => Some (conn', calls, EventStop)
    | None => None
    end
  else Some (conn, [], EventContinue).

(** What reaches the connection: data to dispatch and events of the
    upstream connection. *)
Inductive Input : Set :=
| InDispatch (buffer : list byte)
| InEvent (event : ConnectionEvent).

Definition step (conn : streamConnection) (i : Input)
  : option (streamConnection * list ProxyCall) :=
  match i with
  | InDispatch buffer => Some (Dispatch conn buffer)
  | InEvent event =>
      match OnEvent conn event with
      | Some (conn', calls, _) => Some (conn', calls)
      | None => None
      end
  end.

Fixpoint run (conn : streamConnection) (inputs : list Input)
  : option (streamConnection * list ProxyCall) :=
  match inputs with
  | [] => Some (conn, [])
  | i :: rest =>
      match step conn i with
      | Some (conn', calls) =>
          match run conn' rest with
          | Some (conn'', calls') => Some (conn'', calls ++ calls')
          | None => None
          end
      | None => None
      end
  end.

(** The buffers dispatched, and the buffers handed to the proxy. *)
Definition dispatched (inputs : list Input) : list (list byte) :=
  omap (fun i => match i with InDispatch b => Some b | InEvent _ => None end)
       inputs.

Definition forwarded (calls : list ProxyCall) : list (list byte) :=
  omap (fun c => match c with OnData b => Some b | _ => None end) calls.

(** No input is the event [types.Connected]. *)
Definition notConnected (inputs : list Input) : Prop :=
  Forall (fun i => i <> InEvent NetworkTypes.Connected) inputs.

End WebSocket.

(** ** pkg/config: when the configuration is dumped *)

Module ConfigDump.

(** [atomic.CompareAndSwapInt32] on the value [v] of the variable: the new
    value and whether the swap took place. *)
Definition CompareAndSwapInt32 (v old new : Z) : Z * bool :=
  if v =? old then (new, true) else (v, false).

(** [setDump], [getDump] and [dump] on the value of [dumping]. *)
Definition setDump (dumping : Z) : Z :=
  fst (CompareAndSwapInt32 dumping 0 1).

Definition getDump (dumping : Z) : Z * bool :=
  CompareAndSwapInt32 dumping 1 0.

Definition dump (dirty : bool) (dumping : Z) : Z :=
  if dirty then setDump dumping else dumping.

(** [DumpConfig]: whether the configuration was written out (the router
    configuration merged, the store set and the file written). *)
Definition DumpConfig (dumping : Z) : Z * bool := getDump dumping.

Inductive Event : Set :=
| EvDump (dirty : bool)
| EvDumpConfig.

(** The events in order: the value of [dumping] in the end and, for every
    [DumpConfig], whether it wrote. *)
Fixpoint run (dumping : Z) (es : list Event) : Z * list bool :=
  match es with
  | [] => (dumping, [])
  | EvDump dirty :: rest => run (dump dirty dumping) rest
  | EvDumpConfig :: rest =>
      let '(dumping', wrote) := DumpConfig dumping in
      let '(d, ws) := run dumping' rest in
      (d, wrote :: ws)
  end.

(** Whether one of the events is [dump(true)]. *)
Definition marked (es : list Event) : bool :=
  existsb (fun e => match e with EvDump true => true | _ => false end) es.

Definition noDumpConfig (es : list Event) : Prop :=
  Forall (fun e => e <> EvDumpConfig) es.

End ConfigDump.

(* ================================================================== *)
(** * Properties *)
(* ================================================================== *)

(** ** Machine integers and byte order *)

Module GoIntFacts.
Import GoInt.

Lemma u8_range (b : byte) : 0 <= u8 b < 256.
Proof.
  unfold u8. pose proof (Byte.to_N_bounded b) as H. lia.
Qed.

Lemma u8_byte_of_Z (z : Z) : u8 (byte_of_Z z) = z mod 256.
Proof.
  unfold u8, byte_of_Z.
  assert (Hr : 0 <= z mod 256 < 256) by (apply Z.mod_pos_bound; lia).
  destruct (Byte.of_N (Z.to_N (z mod 256))) as [b|] eqn:E.
  - apply Byte.to_of_N in E. rewrite E. lia.
  - apply Byte.of_N_None_iff in E. lia.
Qed.

Lemma byte_of_Z_u8 (b : byte) : byte_of_Z (u8 b) = b.
Proof.
  unfold byte_of_Z. pose proof (u8_range b) as Hr.
  rewrite Z.mod_small by lia. unfold u8. rewrite N2Z.id.
  now rewrite Byte.of_to_N.
Qed.

(** Appending a byte below a shifted accumulator is base-256 Horner. *)
Lemma lor_shiftl_8 (a b : Z) :
  0 <= b < 256 -> Z.lor (Z.shiftl a 8) b = a * 256 + b.
Proof.
  intros Hb.
  assert (Hland : Z.land (Z.shiftl a 8) b = 0).
  { apply Z.bits_inj'. intros n Hn.
    rewrite Z.land_spec, Z.bits_0.
    destruct (Z.ltb_spec n 8).
    - rewrite Z.shiftl_spec_low by lia. reflexivity.
    - destruct (Z.eq_dec b 0) as [->|Hb0].
      + rewrite Z.bits_0. apply andb_false_r.
      + rewrite (Z.bits_above_log2 b n); [apply andb_false_r | lia |].
        assert (Z.log2 b < 8) by (apply Z.log2_lt_pow2; lia). lia. }
  rewrite <- Z.lxor_lor by exact Hland.
  rewrite <- Z.add_nocarry_lxor by exact Hland.
  rewrite Z.shiftl_mul_pow2 by lia. reflexivity.
Qed.

Lemma BigEndian_decode_acc (bs : list byte) (acc : Z) :
  fold_left (fun acc b => Z.lor (Z.shiftl acc 8) (u8 b)) bs acc
  = acc * 256 ^ Z.of_nat (length bs) + BigEndian_decode bs.
Proof.
  unfold BigEndian_decode.
  revert acc. induction bs as [|b bs IH]; intros acc.
  - simpl. lia.
  - cbn [fold_left length]. rewrite IH. rewrite (IH (Z.lor _ _)).
    rewrite !lor_shiftl_8 by apply u8_range.
    rewrite Nat2Z.inj_succ, Z.pow_succ_r by lia. ring.
Qed.

Lemma BigEndian_decode_cons (b : byte) (bs : list byte) :
  BigEndian_decode (b :: bs)
  = u8 b * 256 ^ Z.of_nat (length bs) + BigEndian_decode bs.
Proof.
  unfold BigEndian_decode at 1. cbn [fold_left].
  rewrite BigEndian_decode_acc, lor_shiftl_8 by apply u8_range.
  ring.
Qed.

Lemma BigEndian_decode_range (bs : list byte) :
  0 <= BigEndian_decode bs < 256 ^ Z.of_nat (length bs).
Proof.
  induction bs as [|b bs IH].
  - cbn. lia.
  - rewrite BigEndian_decode_cons. pose proof (u8_range b) as Hb.
    cbn [length]. rewrite Nat2Z.inj_succ, Z.pow_succ_r by lia.
    nia.
Qed.

(** Reading back the eight bytes written for [v] gives [v]. *)
Lemma BigEndian_Uint64_PutUint64 (v : Z) :
  0 <= v < 2 ^ 64 -> BigEndian_decode (BigEndian_PutUint64 v) = v.
Proof.
  intros Hv. unfold BigEndian_PutUint64.
  rewrite !BigEndian_decode_cons. unfold BigEndian_decode. cbn [fold_left length].
  rewrite !u8_byte_of_Z. rewrite !Z.shiftr_div_pow2 by lia.
  change (Z.of_nat 0) with 0. change (Z.of_nat 1) with 1.
  change (Z.of_nat 2) with 2. change (Z.of_nat 3) with 3.
  change (Z.of_nat 4) with 4. change (Z.of_nat 5) with 5.
  change (Z.of_nat 6) with 6. change (Z.of_nat 7) with 7.
  change (2 ^ 8) with 256. change (2 ^ 16) with 65536.
  change (2 ^ 24) with 16777216. change (2 ^ 32) with 4294967296.
  change (2 ^ 40) with 1099511627776. change (2 ^ 48) with 281474976710656.
  change (2 ^ 56) with 72057594037927936.
  change (2 ^ 64) with 18446744073709551616 in Hv.
  change (256 ^ 0) with 1. change (256 ^ 1) with 256.
  change (256 ^ 2) with 65536. change (256 ^ 3) with 16777216.
  change (256 ^ 4) with 4294967296. change (256 ^ 5) with 1099511627776.
  change (256 ^ 6) with 281474976710656.
  change (256 ^ 7) with 72057594037927936.
  Z.div_mod_to_equations. lia.
Qed.

End GoIntFacts.

(** ** Decimal strings *)

Module StrconvFacts.
Import Strconv.

Lemma digit_cases (d : Z) :
  0 <= d <= 9 ->
  d = 0 \/ d = 1 \/ d = 2 \/ d = 3 \/ d = 4 \/
  d = 5 \/ d = 6 \/ d = 7 \/ d = 8 \/ d = 9.
Proof. lia. Qed.

Ltac each_digit H :=
  apply digit_cases in H;
  repeat (destruct H as [H|H]); subst; reflexivity.

Lemma digit_val_digit_char (d : Z) :
  0 <= d <= 9 -> digit_val (digit_char d) = Some d.
Proof. intros H. each_digit H. Qed.

Lemma digit_char_not_sign (d : Z) :
  0 <= d <= 9 ->
  Ascii.eqb (digit_char d) "+"%char = false /\
  Ascii.eqb (digit_char d) "-"%char = false.
Proof. intros H. split; each_digit H. Qed.

(** Parsing what [formatBits] wrote continues with the number appended to
    the accumulator. *)
Lemma parseDigits_formatBits (fuel : nat) :
  forall (n : Z) (rest : string),
    0 <= n < 10 ^ Z.of_nat (S fuel) ->
    exists k : Z, 0 < k /\
      forall v, parseDigits (formatBits (S fuel) n rest) v
                = parseDigits rest (v * 10 ^ k + n).
Proof.
  assert (Hsmall : forall f n rest, 0 <= n < 10 ->
            forall v, parseDigits (formatBits (S f) n rest) v
                      = parseDigits rest (v * 10 ^ 1 + n)).
  { intros f n rest Hn v. cbn [formatBits].
    destruct (Z.ltb_spec n 10); [|lia]. cbn [parseDigits].
    rewrite Z.mod_small by lia.
    rewrite digit_val_digit_char by lia. f_equal. }
  induction fuel as [|fuel IH]; intros n rest Hn.
  - exists 1. split; [lia|]. apply Hsmall.
    change (10 ^ Z.of_nat 1) with 10 in Hn. lia.
  - destruct (Z.ltb_spec n 10) as [Hlt|Hge].
    + exists 1. split; [lia|]. apply Hsmall. lia.
    + rewrite Nat2Z.inj_succ, Z.pow_succ_r in Hn by lia.
      destruct (IH (n / 10) (String (digit_char (n mod 10)) rest))
        as (k & Hk & Hparse).
      { split; [apply Z.div_pos; lia|].
        apply Z.div_lt_upper_bound; lia. }
      exists (k + 1). split; [lia|]. intros v.
      change (formatBits (S (S fuel)) n rest)
        with (let acc' := String (digit_char (n mod 10)) rest in
              if n <? 10 then acc' else formatBits (S fuel) (n / 10) acc').
      cbv zeta. destruct (Z.ltb_spec n 10); [lia|].
      rewrite Hparse. cbn [parseDigits].
      rewrite digit_val_digit_char by (pose proof (Z.mod_pos_bound n 10); lia).
      f_equal. rewrite Z.pow_add_r by lia.
      pose proof (Z.div_mod n 10). lia.
Qed.

(** A rendering starts with a digit. *)
Lemma formatBits_head (fuel : nat) :
  forall (n : Z) (rest : string),
    0 <= n ->
    exists d s', 0 <= d <= 9 /\
      formatBits (S fuel) n rest = String (digit_char d) s'.
Proof.
  induction fuel as [|fuel IH]; intros n rest Hn.
  - cbn [formatBits]. exists (n mod 10), rest.
    split; [pose proof (Z.mod_pos_bound n 10); lia|].
    destruct (n <? 10); reflexivity.
  - cbn [formatBits]. destruct (Z.ltb_spec n 10) as [Hlt|Hge].
    + exists (n mod 10), rest.
      split; [pose proof (Z.mod_pos_bound n 10); lia | reflexivity].
    + apply (IH (n / 10)). apply Z.div_pos; lia.
Qed.

Lemma parseDigits_FormatUint (n : Z) :
  0 <= n < 2 ^ 64 -> parseDigits (FormatUint n) 0 = Some n.
Proof.
  intros Hn. unfold FormatUint.
  destruct (parseDigits_formatBits 19 n EmptyString) as (k & _ & Hk).
  { change (10 ^ Z.of_nat 20) with 100000000000000000000.
    change (2 ^ 64) with 18446744073709551616 in Hn. lia. }
  rewrite Hk. cbn [parseDigits]. f_equal; lia.
Qed.

(** The canonical rendering of a non-negative [int64] parses back. *)
Lemma ParseInt_FormatUint (n : Z) :
  0 <= n < 2 ^ 63 -> ParseInt (FormatUint n) = Some n.
Proof.
  intros Hn.
  assert (Hn64 : 0 <= n < 2 ^ 64).
  { change (2 ^ 63) with 9223372036854775808 in Hn.
    change (2 ^ 64) with 18446744073709551616. lia. }
  pose proof (parseDigits_FormatUint n Hn64) as Hp.
  unfold FormatUint in *.
  destruct (formatBits_head 19 n EmptyString) as (d & s' & Hd & Hs); [lia|].
  rewrite Hs in *. unfold ParseInt.
  destruct (digit_char_not_sign d Hd) as [-> ->].
  cbn [orb]. rewrite Hp. cbn [negb andb].
  destruct (Z.leb_spec (2 ^ 63) n); [lia | reflexivity].
Qed.

Example ParseInt_leading_zeros : ParseInt "007" = Some 7.
Proof. reflexivity. Qed.

Example ParseInt_plus_sign : ParseInt "+7" = Some 7.
Proof. reflexivity. Qed.

Example ParseInt_out_of_range : ParseInt "9223372036854775808" = None.
Proof. reflexivity. Qed.

Example FormatUint_max : FormatUint (2 ^ 64 - 1) = "18446744073709551615"%string.
Proof. reflexivity. Qed.

End StrconvFacts.

(** ** The dubbo codec: frame splitting and stream identifiers *)

Module DubboFacts.
Import GoInt Strconv Dubbo GoIntFacts StrconvFacts.

Lemma bytes_eqb_eq (a b : list byte) : bytes_eqb a b = true <-> a = b.
Proof.
  revert b. induction a as [|x a IH]; intros [|y b]; cbn; try easy.
  rewrite andb_true_iff, IH. split.
  - intros [Hxy ->]. apply Byte.byte_dec_bl in Hxy. now subst.
  - intros [= -> ->]. split; [now apply Byte.byte_dec_lb | reflexivity].
Qed.

(** What [isValidDubboData] accepts. *)
Lemma isValidDubboData_true (data : list byte) (bodyLen : Z) :
  isValidDubboData data = (true, bodyLen) <->
  DUBBO_HEADER_LEN <= Z.of_nat (length data) /\
  slice data 0 2 = DUBBO_MAGIC_TAG /\
  bodyLen = BigEndian_decode (slice data 12 16) /\
  uint32 (uint32 DUBBO_HEADER_LEN + bodyLen)
    <= uint32 (Z.of_nat (length data)).
Proof.
  unfold isValidDubboData, DUBBO_MAGIC_IDX, DUBBO_FLAG_IDX.
  change (12 + 4)%nat with 16%nat.
  destruct (Z.ltb_spec (Z.of_nat (length data)) DUBBO_HEADER_LEN) as [Hl|Hl].
  { split; [discriminate | lia]. }
  destruct (bytes_eqb (slice data 0 2) DUBBO_MAGIC_TAG) eqn:Hm; cbn [negb].
  2:{ split; [discriminate|]. intros (_ & Hmagic & _).
      apply bytes_eqb_eq in Hmagic. congruence. }
  apply bytes_eqb_eq in Hm.
  destruct (Z.ltb_spec (uint32 (Z.of_nat (length data)))
              (uint32 (uint32 DUBBO_HEADER_LEN
                       + BigEndian_decode (slice data 12 16)))) as [Hf|Hf].
  { split; [discriminate|]. intros (_ & _ & -> & Hle). lia. }
  split.
  - intros [= <-]. auto.
  - intros (_ & _ & -> & _). reflexivity.
Qed.

Lemma isValidDubboData_false (data : list byte) :
  fst (isValidDubboData data) = false -> isValidDubboData data = (false, -1).
Proof.
  unfold isValidDubboData.
  repeat match goal with |- context [if ?c then _ else _] => destruct c end;
    cbn; congruence.
Qed.

Lemma slice_4_length (data : list byte) (a : nat) :
  (length (slice data a (a + 4)) <= 4)%nat.
Proof.
  unfold slice. rewrite length_take. lia.
Qed.

Lemma bodyLen_range (data : list byte) :
  0 <= BigEndian_decode (slice data 12 16) < 2 ^ 32.
Proof.
  pose proof (BigEndian_decode_range (slice data 12 16)) as H.
  pose proof (slice_4_length data 12) as Hl.
  change (12 + 4)%nat with 16%nat in Hl.
  assert (256 ^ Z.of_nat (length (slice data 12 16)) <= 256 ^ 4)
    by (apply Z.pow_le_mono_r; lia).
  change (256 ^ 4) with (2 ^ 32) in *. lia.
Qed.

(** [getDubboLen] is [-1] or the length of a whole frame, header
    included. *)
Lemma getDubboLen_cases (data : list byte) :
  getDubboLen data = -1 \/
  (DUBBO_HEADER_LEN <= getDubboLen data /\
   isValidDubboData data = (true, getDubboLen data - DUBBO_HEADER_LEN)).
Proof.
  unfold getDubboLen.
  destruct (isValidDubboData data) as [[|] bodyLen] eqn:E; cbn [negb].
  - right. apply isValidDubboData_true in E as Hv.
    destruct Hv as (_ & _ & -> & _).
    pose proof (bodyLen_range data). unfold DUBBO_HEADER_LEN.
    split; [lia|]. f_equal. lia.
  - now left.
Qed.

(** The first [getDubboLen r] bytes of [r], when [r] holds them, are a
    frame that [isValidDubboData] accepts with exactly that length. *)
Lemma frame_prefix_valid (r : list byte) :
  DUBBO_HEADER_LEN <= getDubboLen r <= Z.of_nat (length r) ->
  getDubboLen (firstn (Z.to_nat (getDubboLen r)) r)
  = Z.of_nat (length (firstn (Z.to_nat (getDubboLen r)) r)).
Proof.
  intros Hlen. unfold DUBBO_HEADER_LEN in Hlen.
  destruct (getDubboLen_cases r) as [Hneg | [_ Hv]]; [lia|].
  set (fl := getDubboLen r) in *.
  set (f := firstn (Z.to_nat fl) r).
  assert (Hlf : length f = Z.to_nat fl)
    by (subst f; rewrite length_take; lia).
  apply isValidDubboData_true in Hv as (_ & Hmagic & Hbody & _).
  assert (Hvf : isValidDubboData f = (true, fl - DUBBO_HEADER_LEN)).
  { apply isValidDubboData_true. repeat split.
    - unfold DUBBO_HEADER_LEN. lia.
    - rewrite <- Hmagic. unfold slice, f. rewrite !drop_0.
      rewrite take_take. f_equal. lia.
    - rewrite Hbody. unfold slice, f.
      rewrite !take_drop_commute, take_take.
      replace (Nat.min (12 + (16 - 12)) (Z.to_nat fl))
        with (12 + (16 - 12))%nat by lia.
      reflexivity.
    - unfold DUBBO_HEADER_LEN. change (uint32 16) with 16.
      replace (16 + (fl - 16)) with fl by lia.
      pose proof (bodyLen_range r). unfold DUBBO_HEADER_LEN in Hbody.
      rewrite Hlf. rewrite Z2Nat.id by lia. lia. }
  unfold getDubboLen at 1. rewrite Hvf. cbn [negb].
  unfold DUBBO_HEADER_LEN. lia.
Qed.

(** The loop invariant of [SplitFrame]: the frames collected so far are
    the first [start] bytes, and [dataLen] bytes remain. *)
Lemma SplitFrame_loop_spec (fuel : nat) :
  forall (data : list byte) (start dataLen : Z) (frames : list (list byte)),
    0 <= start ->
    0 <= dataLen ->
    dataLen = Z.of_nat (length data) - start ->
    dataLen < Z.of_nat fuel ->
    concat frames = firstn (Z.to_nat start) data ->
    Forall (fun f => getDubboLen f = Z.of_nat (length f)) frames ->
    exists frames' rest,
      SplitFrame_loop fuel data start dataLen frames = Some frames' /\
      data = concat frames' ++ rest /\
      leftover_ok rest /\
      Forall (fun f => getDubboLen f = Z.of_nat (length f)) frames'.
Proof.
  induction fuel as [|fuel IH];
    intros data start dataLen frames Hs Hd Hlen Hfuel Hcat Hall; [lia|].
  cbn [SplitFrame_loop].
  set (r := skipn (Z.to_nat start) data).
  assert (Hr : Z.of_nat (length r) = dataLen)
    by (subst r; rewrite length_drop; lia).
  destruct (Z.ltb_spec 0 (getDubboLen r)) as [Hpos|Hpos]; cbn [andb].
  2:{ exists frames, r. repeat split; auto.
      - rewrite Hcat. subst r. symmetry. apply take_drop.
      - right. left. destruct (getDubboLen_cases r) as [?|[? _]];
          [assumption | unfold DUBBO_HEADER_LEN in *; lia]. }
  destruct (Z.leb_spec (getDubboLen r) dataLen) as [Hfit|Hfit].
  2:{ exists frames, r. repeat split; auto.
      - rewrite Hcat. subst r. symmetry. apply take_drop.
      - right. right. lia. }
  destruct (getDubboLen_cases r) as [Hneg|[Hge _]]; [lia|].
  unfold DUBBO_HEADER_LEN in Hge.
  set (fl := getDubboLen r) in *.
  assert (Hframe : slice data (Z.to_nat start) (Z.to_nat (start + fl))
                   = firstn (Z.to_nat fl) r).
  { unfold slice. fold r. f_equal. lia. }
  rewrite Hframe.
  assert (Hcat' : concat (frames ++ [firstn (Z.to_nat fl) r])
                  = firstn (Z.to_nat (start + fl)) data).
  { rewrite concat_app. cbn [concat]. rewrite app_nil_r, Hcat. subst r.
    rewrite take_take_drop. f_equal. lia. }
  assert (Hall' : Forall (fun f => getDubboLen f = Z.of_nat (length f))
                         (frames ++ [firstn (Z.to_nat fl) r])).
  { apply Forall_app. split; [assumption|].
    constructor; [|constructor].
    apply frame_prefix_valid. unfold DUBBO_HEADER_LEN. fold fl. lia. }
  destruct (Z.eqb_spec (dataLen - fl) 0) as [Hz|Hnz].
  - exists (frames ++ [firstn (Z.to_nat fl) r]), [].
    repeat split; auto.
    + rewrite app_nil_r, Hcat'. symmetry. apply take_ge. lia.
    + now left.
  - apply IH; auto; lia.
Qed.

(** The loop always reaches one of its [break]s. *)
Lemma SplitFrame_total (data : list byte) :
  exists frames,
    SplitFrame_loop (S (length data)) data 0 (Z.of_nat (length data)) []
    = Some frames.
Proof.
  destruct (SplitFrame_loop_spec (S (length data)) data 0
              (Z.of_nat (length data)) []) as (frames & rest & H & _);
    try lia; try reflexivity; try constructor.
  now exists frames.
Qed.

(** * C1, as found in the code.  The frames returned by [SplitFrame]
    concatenate to a prefix of the input, every returned frame is a whole
    dubbo frame (header and declared payload), and the bytes left over are
    either none or not the start of a whole frame: fewer than sixteen
    bytes, a wrong magic, or fewer bytes than the header declares. *)
Theorem SplitFrame_frame_boundaries (B : list byte) :
  exists rest : list byte,
    B = concat (SplitFrame B) ++ rest /\
    (rest = [] \/ getDubboLen rest = -1 \/
     Z.of_nat (length rest) < getDubboLen rest) /\
    Forall (fun f => getDubboLen f = Z.of_nat (length f)) (SplitFrame B).
Proof.
  unfold SplitFrame.
  destruct (SplitFrame_loop_spec (S (length B)) B 0
              (Z.of_nat (length B)) []) as (frames & rest & -> & H);
    try lia; try reflexivity; try constructor.
  exists rest. exact H.
Qed.

(** * C1, as stated, fails: a complete header whose payload has not
    arrived yet is left alone, and it is sixteen bytes long. *)
Lemma SplitFrame_leftover_not_short :
  SplitFrame partial_frame = [] /\
  ~ frame_boundaries_as_stated partial_frame.
Proof.
  assert (Hs : SplitFrame partial_frame = []) by reflexivity.
  split; [exact Hs|].
  unfold frame_boundaries_as_stated. rewrite Hs.
  intros (rest & Heq & Hlen). cbn [concat app] in Heq. subst rest.
  unfold DUBBO_HEADER_LEN in Hlen. cbn in Hlen. lia.
Qed.

End DubboFacts.

Module DubboStreamIDFacts.
Import GoInt Strconv Dubbo GoIntFacts StrconvFacts DubboFacts.

Lemma parseDigits_nonneg (s : string) :
  forall acc v, 0 <= acc -> parseDigits s acc = Some v -> 0 <= v.
Proof.
  induction s as [|c s IH]; intros acc v Hacc; cbn [parseDigits].
  - intros [= <-]. exact Hacc.
  - unfold digit_val.
    destruct ((48 <=? Z.of_nat (nat_of_ascii c))
              && (Z.of_nat (nat_of_ascii c) <=? 57)) eqn:E; [|discriminate].
    apply andb_true_iff in E as [E1 E2].
    apply Z.leb_le in E1. apply IH. lia.
Qed.

Lemma ParseInt_range (s : string) (n : Z) :
  ParseInt s = Some n -> - 2 ^ 63 <= n < 2 ^ 63.
Proof.
  unfold ParseInt. destruct s as [|c s']; [discriminate|].
  set (neg := Ascii.eqb c "-"%char).
  set (body := if (Ascii.eqb c "+"%char || neg)%bool then s' else String c s').
  destruct body eqn:Eb; [discriminate|]. rewrite <- Eb. clear Eb.
  destruct (parseDigits body 0) as [un|] eqn:Ep; [|discriminate].
  apply parseDigits_nonneg in Ep; [|lia].
  destruct neg; cbn [negb andb].
  - destruct (Z.ltb_spec (2 ^ 63) un); [discriminate|].
    intros [= <-]. lia.
  - destruct (Z.leb_spec (2 ^ 63) un); [discriminate|].
    intros [= <-]. lia.
Qed.

Lemma sixteen_bytes (d : list byte) :
  (16 <= length d)%nat ->
  exists a0 a1 a2 a3 a4 a5 a6 a7 a8 a9 a10 a11 a12 a13 a14 a15 tl,
    d = a0 :: a1 :: a2 :: a3 :: a4 :: a5 :: a6 :: a7 :: a8 :: a9 ::
        a10 :: a11 :: a12 :: a13 :: a14 :: a15 :: tl.
Proof.
  intros H.
  do 16 (destruct d as [|? d]; [cbn in H; lia|]).
  repeat eexists.
Qed.

(** The copy loop overwrites bytes 4..11 and nothing else. *)
Lemma SetStreamID_loop_writes
      (a0 a1 a2 a3 a4 a5 a6 a7 a8 a9 a10 a11 : byte) (tl : list byte)
      (r0 r1 r2 r3 r4 r5 r6 r7 : byte) :
  SetStreamID_loop (S DUBBO_ID_LEN) 0
    (a0 :: a1 :: a2 :: a3 :: a4 :: a5 :: a6 :: a7 :: a8 :: a9 ::
     a10 :: a11 :: tl)
    [r0; r1; r2; r3; r4; r5; r6; r7]
  = Some (a0 :: a1 :: a2 :: a3 :: r0 :: r1 :: r2 :: r3 :: r4 :: r5 ::
          r6 :: r7 :: tl).
Proof. reflexivity. Qed.

(** Validity looks at the length, the magic and the payload length
    only. *)
Lemma isValidDubboData_id_bytes
      (a0 a1 a2 a3 a4 a5 a6 a7 a8 a9 a10 a11 : byte) (tl : list byte)
      (r0 r1 r2 r3 r4 r5 r6 r7 : byte) :
  isValidDubboData
    (a0 :: a1 :: a2 :: a3 :: r0 :: r1 :: r2 :: r3 :: r4 :: r5 ::
     r6 :: r7 :: tl)
  = isValidDubboData
    (a0 :: a1 :: a2 :: a3 :: a4 :: a5 :: a6 :: a7 :: a8 :: a9 ::
     a10 :: a11 :: tl).
Proof. reflexivity. Qed.

(** * C9, as found in the code.  For a frame accepted by
    [isValidDubboData] and a stream-ID string that [strconv.ParseInt]
    reads as a non-negative [n], [SetStreamID] writes [n] big-endian into
    bytes 4..11, leaves the length and every other byte alone, and
    [GetStreamID] of the result is the canonical decimal rendering of [n],
    which is itself a string that parses to [n]. *)
Theorem SetStreamID_GetStreamID (d : list byte) (s : string) (n : Z) :
  fst (isValidDubboData d) = true ->
  ParseInt s = Some n ->
  0 <= n ->
  exists d',
    SetStreamID d s = Some d' /\
    GetStreamID d' = FormatUint n /\
    ParseInt (FormatUint n) = Some n /\
    slice d' 4 12 = BigEndian_PutUint64 n /\
    length d' = length d /\
    (forall i, (i < 4 \/ 12 <= i)%nat -> d' !! i = d !! i).
Proof.
  intros Hvalid Hparse Hn.
  pose proof (ParseInt_range s n Hparse) as Hrange.
  assert (Hn64 : 0 <= n < 2 ^ 64).
  { change (2 ^ 63) with 9223372036854775808 in Hrange.
    change (2 ^ 64) with 18446744073709551616. lia. }
  destruct (isValidDubboData d) as [rslt bodyLen] eqn:Hv.
  cbn [fst] in Hvalid. subst rslt.
  apply isValidDubboData_true in Hv as Hv'.
  destruct Hv' as (Hlen & _). unfold DUBBO_HEADER_LEN in Hlen.
  destruct (sixteen_bytes d) as
    (a0 & a1 & a2 & a3 & a4 & a5 & a6 & a7 & a8 & a9 & a10 & a11 & tl12 & Hd');
    [lia|].
  destruct Hd' as (a13 & a14 & a15 & tl & ->).
  unfold SetStreamID. rewrite Hv, Hparse. cbn [negb].
  unfold uint64. rewrite Z.mod_small by exact Hn64.
  unfold BigEndian_PutUint64. rewrite SetStreamID_loop_writes.
  eexists. split; [reflexivity|].
  split.
  { unfold GetStreamID.
    rewrite (isValidDubboData_id_bytes a0 a1 a2 a3 a4 a5 a6 a7 a8 a9 a10 a11).
    rewrite Hv. cbn [negb].
    change (slice _ DUBBO_ID_IDX (DUBBO_ID_IDX + DUBBO_ID_LEN))
      with (BigEndian_PutUint64 n).
    now rewrite BigEndian_Uint64_PutUint64. }
  split; [apply ParseInt_FormatUint; lia|].
  split; [reflexivity|].
  split; [reflexivity|].
  intros i [Hi|Hi].
  - do 4 (destruct i as [|i]; [reflexivity|]). lia.
  - replace i with (12 + (i - 12))%nat by lia. reflexivity.
Qed.

Lemma SetStreamID_GetStreamID_witness :
  exists d',
    SetStreamID sample_frame "007" = Some d' /\
    GetStreamID d' = FormatUint 7 /\
    ParseInt (FormatUint 7) = Some 7 /\
    slice d' 4 12 = BigEndian_PutUint64 7 /\
    length d' = length sample_frame /\
    (forall i, (i < 4 \/ 12 <= i)%nat -> d' !! i = sample_frame !! i).
Proof.
  apply (SetStreamID_GetStreamID sample_frame "007" 7);
    [reflexivity | reflexivity | discriminate].
Defined.

(** * C9, as stated, fails: ["007"] parses as the non-negative integer 7,
    and the identifier read back is ["7"]. *)
Lemma SetStreamID_GetStreamID_leading_zeros :
  fst (isValidDubboData sample_frame) = true /\
  ParseInt "007" = Some 7 /\
  ~ streamid_roundtrip_as_stated sample_frame "007".
Proof.
  split; [reflexivity|]. split; [reflexivity|].
  intros (d' & Hset & Hget).
  vm_compute in Hset. injection Hset as <-.
  vm_compute in Hget. discriminate Hget.
Qed.

(** The validity spelled out in words implies the one the code checks,
    for slices shorter than 4 GiB. *)
Lemma valid_in_words_isValidDubboData (d : list byte) :
  16 <= Z.of_nat (length d) < 2 ^ 32 ->
  slice d 0 2 = [xda; xbb] ->
  16 + BigEndian_decode (slice d 12 16) <= Z.of_nat (length d) ->
  fst (isValidDubboData d) = true.
Proof.
  intros Hlen Hmagic Hbody.
  assert (H : isValidDubboData d = (true, BigEndian_decode (slice d 12 16))).
  { apply isValidDubboData_true. unfold DUBBO_HEADER_LEN.
    repeat split; try assumption; try lia.
    pose proof (bodyLen_range d) as Hb.
    change (uint32 16) with 16. unfold uint32.
    change (2 ^ 32) with 4294967296 in *.
    rewrite (Z.mod_small (16 + _)) by lia.
    rewrite (Z.mod_small (Z.of_nat _)) by lia. lia. }
  now rewrite H.
Qed.

End DubboStreamIDFacts.

(** ** Response flags and failed requests *)

Module ProxyFacts.
Import Proxy.

Lemma ResponseFlag_eqb_eq (a b : ResponseFlag) :
  ResponseFlag_eqb a b = true <-> a = b.
Proof. destruct a, b; cbn; split; congruence. Qed.

Lemma GetResponseFlag_In (ri : RequestInfo) (f : ResponseFlag) :
  GetResponseFlag ri f = true <-> In f (responseFlags ri).
Proof.
  unfold GetResponseFlag. rewrite existsb_exists. split.
  - intros (g & Hin & Heq). apply ResponseFlag_eqb_eq in Heq. now subst.
  - intros Hin. exists f. split; [assumption | now apply ResponseFlag_eqb_eq].
Qed.

Lemma SetResponseFlag_Get (ri : RequestInfo) (f g : ResponseFlag) :
  GetResponseFlag (SetResponseFlag f ri) g
  = ResponseFlag_eqb g f || GetResponseFlag ri g.
Proof. reflexivity. Qed.

Lemma not_a_failure_spec (f : ResponseFlag) :
  not_a_failure f = false <->
  f <> UpstreamRequestTimeout /\ f <> UpstreamRemoteReset /\
  f <> UpstreamConnectionTermination /\ f <> DelayInjected.
Proof.
  destruct f; cbn; split; try congruence;
    try (intros _; repeat split; discriminate);
    intros (H1 & H2 & H3 & H4); congruence.
Qed.

(** * C3.  A request counts as failed exactly when its request-info
    carries a response flag other than [UpstreamRequestTimeout],
    [UpstreamRemoteReset], [UpstreamConnectionTermination] and
    [DelayInjected]; with flags of that set only it does not. *)
Theorem isRequestFailed_iff (ri : RequestInfo) :
  (isRequestFailed ri = true <->
   exists f, GetResponseFlag ri f = true /\
             f <> UpstreamRequestTimeout /\ f <> UpstreamRemoteReset /\
             f <> UpstreamConnectionTermination /\ f <> DelayInjected) /\
  ((forall f, GetResponseFlag ri f = true ->
              f = UpstreamRequestTimeout \/ f = UpstreamRemoteReset \/
              f = UpstreamConnectionTermination \/ f = DelayInjected) ->
   isRequestFailed ri = false).
Proof.
  assert (Hiff : isRequestFailed ri = true <->
            exists f, GetResponseFlag ri f = true /\
              f <> UpstreamRequestTimeout /\ f <> UpstreamRemoteReset /\
              f <> UpstreamConnectionTermination /\ f <> DelayInjected).
  { unfold isRequestFailed. rewrite existsb_exists. split.
    - intros (f & Hin & Hf). exists f. split.
      + now apply GetResponseFlag_In.
      + apply not_a_failure_spec. now apply negb_true_iff.
    - intros (f & Hget & Hf). exists f. split.
      + now apply GetResponseFlag_In.
      + apply negb_true_iff. now apply not_a_failure_spec. }
  split; [exact Hiff|].
  intros Honly. destruct (isRequestFailed ri) eqn:E; [|reflexivity].
  destruct Hiff as [Hex _]. destruct (Hex eq_refl) as (f & Hget & H1 & H2 & H3 & H4).
  destruct (Honly f Hget) as [?|[?|[?|?]]]; congruence.
Qed.

(** The ten cases of [TestIsRequestFailed] pass. *)
Lemma TestIsRequestFailed_passes :
  forallb TestIsRequestFailed_case TestIsRequestFailed_cases = true.
Proof. reflexivity. Qed.

End ProxyFacts.

(** ** The health-check filter *)

Module HealthCheckFacts.
Import HealthCheck.

(** * C6, as found in the code.  With [passThrough = false], a request
    whose headers carry the heartbeat marker is intercepted:
    [handleIntercept] sets the header [xprotocol-heartbeat-hijack] to
    [true], hands the headers to [AppendHeaders] with end-of-stream set,
    and [OnReceive] returns Stop.  Any other request, and every request
    when [passThrough = true], gets Continue, its headers untouched and
    nothing appended. *)
Theorem OnReceive_hijack (f : healthCheckFilter) (headers : gmap string string) :
  (is_Some (headers !! HeaderXprotocolHeartbeat) /\ passThrough f = false ->
   status (OnReceive f headers) = StreamFilterStop /\
   headersAfter (OnReceive f headers)
     = <[X_PROTOCOL_HEARTBEAT_HIJACK := "true"%string]> headers /\
   headersAfter (OnReceive f headers) !! X_PROTOCOL_HEARTBEAT_HIJACK
     = Some "true"%string /\
   calls (OnReceive f headers)
     = [SetHealthCheck true;
        AppendHeaders (headersAfter (OnReceive f headers)) true]) /\
  (headers !! HeaderXprotocolHeartbeat = None \/ passThrough f = true ->
   status (OnReceive f headers) = StreamFilterContinue /\
   headersAfter (OnReceive f headers) = headers /\
   forall h e, ~ In (AppendHeaders h e) (calls (OnReceive f headers))).
Proof.
  unfold OnReceive. split.
  - intros [[p Hp] Hpass]. rewrite Hp. cbn [passThrough]. rewrite Hpass.
    cbn. repeat split. apply lookup_insert_eq.
  - intros Hcase.
    destruct (headers !! HeaderXprotocolHeartbeat) as [p|] eqn:Hp.
    + destruct Hcase as [Hnone|Hpass]; [discriminate|].
      cbn [passThrough]. rewrite Hpass. cbn. repeat split.
      intros h e [H|[]]. discriminate H.
    + cbn. repeat split. intros h e [].
Qed.

Lemma OnReceive_hijack_witness :
  status (OnReceive (NewHealthCheckFilter false)
                    {[ HeaderXprotocolHeartbeat := "dubbo"%string ]})
    = StreamFilterStop /\
  headersAfter (OnReceive (NewHealthCheckFilter false)
                          {[ HeaderXprotocolHeartbeat := "dubbo"%string ]})
    = <[X_PROTOCOL_HEARTBEAT_HIJACK := "true"%string]>
        {[ HeaderXprotocolHeartbeat := "dubbo"%string ]} /\
  headersAfter (OnReceive (NewHealthCheckFilter false)
                          {[ HeaderXprotocolHeartbeat := "dubbo"%string ]})
    !! X_PROTOCOL_HEARTBEAT_HIJACK = Some "true"%string /\
  calls (OnReceive (NewHealthCheckFilter false)
                   {[ HeaderXprotocolHeartbeat := "dubbo"%string ]})
    = [SetHealthCheck true;
       AppendHeaders
         (headersAfter (OnReceive (NewHealthCheckFilter false)
                          {[ HeaderXprotocolHeartbeat := "dubbo"%string ]}))
         true].
Proof.
  apply (proj1 (OnReceive_hijack (NewHealthCheckFilter false)
                  {[ HeaderXprotocolHeartbeat := "dubbo"%string ]})).
  split; [|reflexivity].
  rewrite lookup_singleton_eq. eexists. reflexivity.
Defined.

(** * C6, as stated, fails on the name of the header: after the
    interception of a dubbo heartbeat no header
    [x-protocol-heartbeat-hijack] is present. *)
Lemma OnReceive_hijack_header_name :
  status (OnReceive (NewHealthCheckFilter false)
                    {[ HeaderXprotocolHeartbeat := "dubbo"%string ]})
    = StreamFilterStop /\
  headersAfter (OnReceive (NewHealthCheckFilter false)
                          {[ HeaderXprotocolHeartbeat := "dubbo"%string ]})
    !! "x-protocol-heartbeat-hijack"%string = None /\
  ~ hijack_header_as_stated (NewHealthCheckFilter false)
      {[ HeaderXprotocolHeartbeat := "dubbo"%string ]}.
Proof.
  assert (Hafter :
    headersAfter (OnReceive (NewHealthCheckFilter false)
                            {[ HeaderXprotocolHeartbeat := "dubbo"%string ]})
      !! "x-protocol-heartbeat-hijack"%string = None).
  { unfold OnReceive. rewrite lookup_singleton_eq.
    cbn [negb passThrough NewHealthCheckFilter handleIntercept headersAfter].
    rewrite lookup_insert_ne by (unfold X_PROTOCOL_HEARTBEAT_HIJACK; discriminate).
    apply lookup_singleton_ne. unfold HeaderXprotocolHeartbeat. discriminate. }
  split; [|split].
  - unfold OnReceive. rewrite lookup_singleton_eq. reflexivity.
  - exact Hafter.
  - unfold hijack_header_as_stated. cbv zeta. intros (_ & Hset & _).
    rewrite Hafter in Hset. discriminate Hset.
Qed.

End HealthCheckFacts.

(** ** The stream table of an x-protocol connection *)

Module XStreamFacts.
Import GoInt Strconv XStream StrconvFacts.

Lemma table_ok_new (serverCallbacks : bool) :
  table_ok (newStreamConnection serverCallbacks).
Proof.
  split; cbn.
  - intros k s H. rewrite lookup_empty in H. discriminate.
  - lia.
Qed.

Lemma table_ok_NewStream (conn : streamConnection) (r : nat) :
  table_ok conn -> table_ok (snd (NewStream conn r)).
Proof.
  intros [Hk Hc]. split; cbn.
  - intros k s. rewrite lookup_insert. case_decide as Heq.
    + intros [= <-]. cbn. exact Heq.
    + apply Hk.
  - unfold uint64. apply Z.mod_pos_bound. lia.
Qed.

Lemma table_ok_onNewStreamDetected (conn : streamConnection) (id : string) (r : nat) :
  table_ok conn -> table_ok (onNewStreamDetected conn id r).
Proof.
  intros [Hk Hc]. unfold onNewStreamDetected.
  destruct (Has (activeStream conn) id); [now split|].
  split; cbn; [|exact Hc].
  intros k s. rewrite lookup_insert. case_decide as Heq.
  - intros [= <-]. cbn. exact Heq.
  - apply Hk.
Qed.

Lemma table_ok_delete (conn : streamConnection) (id : string) :
  table_ok conn -> table_ok (with_table conn (delete id (activeStream conn))).
Proof.
  intros [Hk Hc]. split; cbn; [|exact Hc].
  intros k s Hl. apply lookup_delete_Some in Hl as [_ Hl]. now apply Hk.
Qed.

Lemma table_ok_step (conn : streamConnection) (e : Event) :
  table_ok conn -> table_ok (step conn e).
Proof.
  intros Hok. destruct e as [r|id r|s]; cbn [step].
  - now apply table_ok_NewStream.
  - unfold OnReceive.
    set (conn1 := if hasServerListener conn
                  then onNewStreamDetected conn id r else conn).
    assert (Hok1 : table_ok conn1).
    { subst conn1. destruct (hasServerListener conn);
        [now apply table_ok_onNewStreamDetected | assumption]. }
    destruct (activeStream conn1 !! id) as [s|]; [|assumption].
    destruct (direction s); [assumption | now apply table_ok_delete].
  - unfold endStream. destruct (direction s);
      [now apply table_ok_delete | assumption].
Qed.

Lemma table_ok_run (es : list Event) :
  forall conn, table_ok conn -> table_ok (run conn es).
Proof.
  unfold run. induction es as [|e es IH]; intros conn Hok; cbn [fold_left].
  - assumption.
  - apply IH. now apply table_ok_step.
Qed.

Lemma table_ok_NoDup (conn : streamConnection) :
  table_ok conn -> NoDup (tableStreamIDs conn).
Proof.
  intros [Hk _]. unfold tableStreamIDs.
  assert (Heq : map (fun kv => streamID (snd kv)) (map_to_list (activeStream conn))
                = map fst (map_to_list (activeStream conn))).
  { apply map_ext_in. intros [k s] Hin. cbn.
    apply Hk. apply elem_of_map_to_list. now apply list_elem_of_In. }
  rewrite Heq. apply NoDup_fst_map_to_list.
Qed.

(** Different counter values are rendered differently. *)
Lemma FormatUint_inj (a b : Z) :
  0 <= a < 2 ^ 64 -> 0 <= b < 2 ^ 64 -> FormatUint a = FormatUint b -> a = b.
Proof.
  intros Ha Hb Heq.
  pose proof (parseDigits_FormatUint a Ha) as Pa.
  pose proof (parseDigits_FormatUint b Hb) as Pb.
  rewrite Heq in Pa. congruence.
Qed.

(** * C4.  On a connection started empty and driven by any sequence of
    [NewStream], [OnReceive] and [endStream], the stream IDs of the streams
    in the table are pairwise distinct.  [NewStream] adds one to the
    per-connection counter (a [uint64]), names the stream after the new
    value and files it under that name; below [2^64 - 1] the counter
    strictly grows.  A frame whose stream ID is already in the table leaves
    the table as it is. *)
Theorem stream_ids_pairwise_distinct (serverCallbacks : bool) (es : list Event) :
  NoDup (tableStreamIDs (run (newStreamConnection serverCallbacks) es)) /\
  (forall r,
      let conn := run (newStreamConnection serverCallbacks) es in
      let s := fst (NewStream conn r) in
      let conn' := snd (NewStream conn r) in
      streamIDXprotocolCount conn' = uint64 (streamIDXprotocolCount conn + 1) /\
      streamID s = FormatUint (streamIDXprotocolCount conn') /\
      (streamIDXprotocolCount conn < 2 ^ 64 - 1 ->
       streamIDXprotocolCount conn' = streamIDXprotocolCount conn + 1) /\
      activeStream conn' !! streamID s = Some s /\
      NoDup (tableStreamIDs conn')) /\
  (forall id r,
      let conn := run (newStreamConnection serverCallbacks) es in
      is_Some (activeStream conn !! id) ->
      onNewStreamDetected conn id r = conn).
Proof.
  pose proof (table_ok_run es _ (table_ok_new serverCallbacks)) as Hok.
  set (conn := run (newStreamConnection serverCallbacks) es) in *.
  split; [now apply table_ok_NoDup|]. split.
  - intros r. cbv zeta. cbn [NewStream fst snd streamIDXprotocolCount
                             streamID activeStream].
    repeat split.
    + intros Hlt. destruct Hok as [_ Hc]. unfold uint64.
      apply Z.mod_small. lia.
    + apply lookup_insert_eq.
    + apply table_ok_NoDup. apply (table_ok_NewStream conn r Hok).
  - intros id r. cbv zeta. intros Hsome. unfold onNewStreamDetected, Has.
    now rewrite bool_decide_eq_true_2.
Qed.

End XStreamFacts.

(** ** The sofa-RPC keep-alive *)

Module KeepAliveFacts.
Import GoInt KeepAlive.

Lemma handle_keeps_absent (kp : sofaRPCKeepAlive) (e : Event) (id : Z) :
  requests kp !! id = None -> requests (fst (handle kp e)) !! id = None.
Proof.
  intros Hnone.
  destruct e as [j|j]; cbn [handle]; unfold HandleTimeout, HandleSuccess;
    destruct (stopped kp); try assumption;
    destruct (requests kp !! j); try assumption; cbn;
    rewrite lookup_delete; case_decide; auto.
Qed.

Lemma handle_absent_noop (kp : sofaRPCKeepAlive) (e : Event) :
  requests kp !! eventID e = None -> handle kp e = (kp, []).
Proof.
  intros Hnone.
  destruct e as [j|j]; cbn [handle eventID] in *;
    unfold HandleTimeout, HandleSuccess;
    destruct (stopped kp); try reflexivity; now rewrite Hnone.
Qed.

Lemma handledCount_absent (id : Z) (es : list Event) :
  forall kp, requests kp !! id = None -> handledCount id kp es = O.
Proof.
  induction es as [|e es IH]; intros kp Hnone; cbn [handledCount]; [reflexivity|].
  pose proof (handle_keeps_absent kp e id Hnone) as Hkeep.
  destruct (handle kp e) as [kp' effects] eqn:E. cbn [fst] in Hkeep.
  rewrite (IH kp' Hkeep).
  destruct (Z.eqb_spec (eventID e) id) as [Heq|Hne]; cbn [andb]; [|reflexivity].
  subst id. rewrite handle_absent_noop in E by assumption.
  injection E as <- <-. reflexivity.
Qed.

Lemma handle_wasHandled_removes (kp : sofaRPCKeepAlive) (e : Event) :
  wasHandled (snd (handle kp e)) = true ->
  requests (fst (handle kp e)) !! eventID e = None.
Proof.
  destruct e as [j|j]; cbn [handle eventID];
    unfold HandleTimeout, HandleSuccess;
    destruct (stopped kp); try discriminate;
    destruct (requests kp !! j); try discriminate; cbn; intros _;
    apply lookup_delete_eq.
Qed.

Lemma handledCount_le_1 (id : Z) (es : list Event) :
  forall kp, (handledCount id kp es <= 1)%nat.
Proof.
  induction es as [|e es IH]; intros kp; cbn [handledCount]; [lia|].
  pose proof (handle_wasHandled_removes kp e) as Hrm.
  destruct (handle kp e) as [kp' effects] eqn:E. cbn [fst snd] in Hrm.
  destruct (Z.eqb_spec (eventID e) id) as [Heq|Hne]; cbn [andb].
  - destruct (wasHandled effects) eqn:Hw.
    + subst id. rewrite handledCount_absent by auto. lia.
    + specialize (IH kp'). lia.
  - specialize (IH kp'). lia.
Qed.

(** * C5.  While the keep-alive runs, a timer expiry for an outstanding
    stream ID removes the request, adds one to the failure counter (a
    [uint32]) and closes the connection exactly when the new count has
    reached the threshold; a heartbeat response for an outstanding ID
    removes the request, stops its timer and resets the counter to zero,
    without closing.  An ID that is not outstanding is ignored by both
    handlers, so that over any sequence of expiries and responses an ID is
    handled at most once. *)
Theorem keepalive_handled_once (kp : sofaRPCKeepAlive) (id : Z) :
  (stopped kp = false -> is_Some (requests kp !! id) ->
   timeoutCount (fst (HandleTimeout kp id)) = uint32 (timeoutCount kp + 1) /\
   (0 <= timeoutCount kp < 2 ^ 32 - 1 ->
    timeoutCount (fst (HandleTimeout kp id)) = timeoutCount kp + 1) /\
   (In CodecClose (snd (HandleTimeout kp id)) <->
    Threshold kp <= timeoutCount (fst (HandleTimeout kp id))) /\
   In (RunCallback KeepAliveTimeout) (snd (HandleTimeout kp id)) /\
   requests (fst (HandleTimeout kp id)) !! id = None /\
   timeoutCount (fst (HandleSuccess kp id)) = 0 /\
   snd (HandleSuccess kp id) = [TimerStop id; RunCallback KeepAliveSuccess] /\
   requests (fst (HandleSuccess kp id)) !! id = None) /\
  (requests kp !! id = None ->
   HandleTimeout kp id = (kp, []) /\ HandleSuccess kp id = (kp, [])) /\
  (forall es : list Event, (handledCount id kp es <= 1)%nat).
Proof.
  split; [|split].
  - intros Hrun [t Ht]. unfold HandleTimeout, HandleSuccess.
    rewrite Hrun, Ht. cbn [fst snd timeoutCount requests].
    repeat split.
    + intros Hc. unfold uint32. apply Z.mod_small. lia.
    + destruct (Z.leb_spec (Threshold kp) (uint32 (timeoutCount kp + 1)));
        [intros _; assumption|].
      cbn. intros [H'|[]]. discriminate H'.
    + intros Hle.
      destruct (Z.leb_spec (Threshold kp) (uint32 (timeoutCount kp + 1)));
        [now left | lia].
    + apply in_or_app. right. now left.
    + apply lookup_delete_eq.
    + apply lookup_delete_eq.
  - intros Hnone. split.
    + apply (handle_absent_noop kp (Expired id)). exact Hnone.
    + apply (handle_absent_noop kp (Responded id)). exact Hnone.
  - intros es. apply handledCount_le_1.
Qed.

End KeepAliveFacts.

(** ** Protocol auto-selection *)

Module AutoSelectFacts.
Import AutoSelect.

Lemma is_prefix_app (p s : list byte) :
  is_prefix p s = true <-> exists rest, s = p ++ rest.
Proof.
  revert s. induction p as [|x p IH]; intros s; cbn [is_prefix].
  - split; [intros _; now exists s | reflexivity].
  - destruct s as [|y s].
    + split; [discriminate | intros [rest H]; discriminate H].
    + rewrite andb_true_iff, IH. split.
      * intros [Hxy [rest ->]]. apply Byte.byte_dec_bl in Hxy. subst.
        now exists rest.
      * intros [rest [= -> ->]]. split; [now apply Byte.byte_dec_lb|].
        now exists rest.
Qed.

Lemma is_prefix_refl (s : list byte) : is_prefix s s = true.
Proof. apply is_prefix_app. exists []. now rewrite app_nil_r. Qed.

Lemma is_prefix_trans (a b c : list byte) :
  is_prefix a b = true -> is_prefix b c = true -> is_prefix a c = true.
Proof.
  rewrite !is_prefix_app. intros [r1 ->] [r2 ->].
  exists (r1 ++ r2). now rewrite app_assoc.
Qed.

Lemma is_prefix_antisym (a b : list byte) :
  is_prefix a b = true -> is_prefix b a = true -> a = b.
Proof.
  rewrite !is_prefix_app. intros [r1 ->] [r2 H].
  rewrite <- app_assoc in H.
  rewrite <- (app_nil_r a) in H at 1. apply app_inv_head in H.
  symmetry in H. apply app_eq_nil in H as [-> _]. now rewrite app_nil_r.
Qed.

(** Two prefixes of one input are prefixes of one another. *)
Lemma is_prefix_comparable (a b s : list byte) :
  is_prefix a s = true -> is_prefix b s = true ->
  is_prefix a b = true \/ is_prefix b a = true.
Proof.
  revert b s. induction a as [|x a IH]; intros b s Ha Hb; [now left|].
  destruct b as [|y b]; [now right|].
  destruct s as [|z s]; [discriminate|].
  cbn [is_prefix] in *.
  apply andb_true_iff in Ha as [Hxz Ha]. apply andb_true_iff in Hb as [Hyz Hb].
  apply Byte.byte_dec_bl in Hxz, Hyz. subst.
  rewrite (Byte.byte_dec_lb eq_refl). cbn [andb]. eauto.
Qed.

Lemma matchMagic_MATCH (magics : list (list byte)) (input : list byte) :
  matchMagic magics input = MATCH <->
  exists m, In m magics /\ is_prefix m input = true.
Proof.
  unfold matchMagic.
  destruct (existsb (fun m => is_prefix m input) magics) eqn:E.
  - apply existsb_exists in E. tauto.
  - split.
    + destruct (existsb (fun m => is_prefix input m) magics); discriminate.
    + intros Hex. apply existsb_exists in Hex. congruence.
Qed.

Lemma matchMagic_AGAIN (magics : list (list byte)) (input : list byte) :
  matchMagic magics input = AGAIN <->
  (forall m, In m magics -> is_prefix m input = false) /\
  exists m, In m magics /\ is_prefix input m = true.
Proof.
  unfold matchMagic.
  destruct (existsb (fun m => is_prefix m input) magics) eqn:E.
  - split; [discriminate|]. intros [Hno _].
    apply existsb_exists in E as (m & Hin & Hm). rewrite Hno in Hm by assumption.
    discriminate.
  - assert (Hno : forall m, In m magics -> is_prefix m input = false).
    { intros m Hin. destruct (is_prefix m input) eqn:Em; [|reflexivity].
      assert (existsb (fun m => is_prefix m input) magics = true)
        by (apply existsb_exists; eauto).
      congruence. }
    destruct (existsb (fun m => is_prefix input m) magics) eqn:E2.
    + apply existsb_exists in E2. tauto.
    + split; [discriminate|]. intros [_ Hex].
      apply not_true_iff_false in E2. exfalso. apply E2.
      apply existsb_exists. exact Hex.
Qed.

Lemma matchMagic_FAIL (magics : list (list byte)) (input : list byte) :
  matchMagic magics input = FAIL <->
  forall m, In m magics ->
            is_prefix m input = false /\ is_prefix input m = false.
Proof.
  split.
  - intros HF m Hin. split.
    + destruct (is_prefix m input) eqn:E; [|reflexivity].
      assert (matchMagic magics input = MATCH)
        by (apply matchMagic_MATCH; eauto). congruence.
    + destruct (is_prefix input m) eqn:E; [|reflexivity].
      destruct (matchMagic magics input) eqn:EM; try discriminate.
      unfold matchMagic in EM.
      destruct (existsb (fun m => is_prefix m input) magics); [discriminate|].
      assert (existsb (fun m => is_prefix input m) magics = true)
        by (apply existsb_exists; eauto).
      rewrite H in EM. discriminate.
  - intros Hall. unfold matchMagic.
    destruct (existsb (fun m => is_prefix m input) magics) eqn:E.
    { apply existsb_exists in E as (m & Hin & Hm).
      destruct (Hall m Hin). congruence. }
    destruct (existsb (fun m => is_prefix input m) magics) eqn:E2.
    { apply existsb_exists in E2 as (m & Hin & Hm).
      destruct (Hall m Hin). congruence. }
    reflexivity.
Qed.

(** With no MATCH among the codecs the outcome is EAGAIN or FAILED,
    according to whether some codec asked for more bytes. *)
Lemma selectFrom_no_match (cs : list (Protocol * (list byte -> MatchResult)))
      (peek : list byte) :
  (forall c, In c cs -> snd c peek <> MATCH) ->
  forall again,
    selectFrom cs peek again
    = if again || existsb (fun c => match snd c peek with
                                    | AGAIN => true
                                    | _ => false
                                    end) cs
      then EAGAIN else FAILED.
Proof.
  induction cs as [|[p f] cs IH]; intros Hno again; cbn [selectFrom existsb snd].
  - now rewrite orb_false_r.
  - assert (Hf : f peek <> MATCH) by (apply (Hno (p, f)); now left).
    assert (Hrest : forall c, In c cs -> snd c peek <> MATCH)
      by (intros c Hc; apply Hno; now right).
    destruct (f peek); [congruence | |]; rewrite (IH Hrest).
    + cbn. now rewrite orb_true_r.
    + reflexivity.
Qed.

Lemma selectFrom_all_fail (cs : list (Protocol * (list byte -> MatchResult)))
      (peek : list byte) :
  (forall c, In c cs -> snd c peek = FAIL) ->
  selectFrom cs peek false = FAILED.
Proof.
  intros Hall. rewrite selectFrom_no_match.
  - cbn [orb].
    assert (E : existsb (fun c => match snd c peek with
                                  | AGAIN => true | _ => false end) cs = false).
    { apply not_true_is_false. intros H. apply existsb_exists in H as (c & Hin & Hc).
      rewrite (Hall c Hin) in Hc. discriminate. }
    now rewrite E.
  - intros c Hin. rewrite (Hall c Hin). discriminate.
Qed.

(** No magic written in text is the beginning of another one. *)
Lemma textMagics_prefix_free :
  forallb (fun m => forallb (fun m' =>
             implb (is_prefix m' m) (Dubbo.bytes_eqb m' m)) textMagics)
          textMagics = true.
Proof. reflexivity. Qed.

Lemma textMagics_long :
  forallb (fun m => Nat.leb 3 (length m)) textMagics = true.
Proof. reflexivity. Qed.

Lemma allMagics_prefix_free (rpcMagic : list byte) :
  rpcMagic_apart rpcMagic = true ->
  forall m m', In m (allMagics rpcMagic) -> In m' (allMagics rpcMagic) ->
               is_prefix m' m = true -> m' = m.
Proof.
  intros Hapart m m' Hm Hm' Hpre.
  unfold allMagics in *. apply in_app_or in Hm, Hm'.
  pose proof textMagics_prefix_free as Hfree.
  rewrite forallb_forall in Hfree.
  pose proof textMagics_long as Hlong. rewrite forallb_forall in Hlong.
  unfold rpcMagic_apart in Hapart. rewrite forallb_forall in Hapart.
  destruct Hm as [Hm|Hm], Hm' as [Hm'|Hm'].
  - specialize (Hfree m Hm). rewrite forallb_forall in Hfree.
    specialize (Hfree m' Hm'). rewrite Hpre in Hfree. cbn [implb] in Hfree.
    now apply DubboFacts.bytes_eqb_eq.
  - apply in_map_iff in Hm' as (b & <- & Hb).
    specialize (Hapart b Hb). apply negb_true_iff in Hapart.
    assert (existsb (fun m0 => is_prefix [b] m0) textMagics = true)
      by (apply existsb_exists; eauto).
    congruence.
  - apply in_map_iff in Hm as (b & <- & Hb).
    specialize (Hlong m' Hm'). apply Nat.leb_le in Hlong.
    destruct m' as [|x [|y m']]; cbn in Hlong; try lia.
    cbn in Hpre. rewrite andb_false_r in Hpre. discriminate.
  - apply in_map_iff in Hm as (b & <- & Hb).
    apply in_map_iff in Hm' as (b' & <- & Hb').
    cbn in Hpre. rewrite andb_true_r in Hpre.
    apply Byte.byte_dec_bl in Hpre. now subst.
Qed.

(** An input that is the proper beginning of a magic matches no magic. *)
Lemma proper_prefix_no_match (rpcMagic : list byte) (input m m' : list byte) :
  rpcMagic_apart rpcMagic = true ->
  In m (allMagics rpcMagic) -> In m' (allMagics rpcMagic) ->
  is_prefix input m = true -> input <> m ->
  is_prefix m' input = false.
Proof.
  intros Hapart Hm Hm' Hpre Hne.
  destruct (is_prefix m' input) eqn:E; [|reflexivity].
  assert (m' = m)
    by (eapply allMagics_prefix_free; eauto using is_prefix_trans).
  subst m'. exfalso. apply Hne. now apply is_prefix_antisym.
Qed.

(** * C2.  With no sub-protocol in the context and RPC magic bytes that
    differ from the first letters of the HTTP methods and of the preface:
    an input that starts with the HTTP/2 client preface selects HTTP/2, an
    input that starts with [GET] or [POST] (or any other method) selects
    HTTP/1, an input that is the proper beginning of a recognizer's magic
    yields EAGAIN and the connection waits for more bytes, and an input on
    which every recognizer fails yields FAILED, on which the connection is
    closed with LocalClose. *)
Theorem SelectStreamFactoryProtocol_outcomes
        (rpcMagic : list byte) (peek : list byte) :
  rpcMagic_apart rpcMagic = true ->
  (is_prefix ClientPreface peek = true ->
   SelectStreamFactoryProtocol rpcMagic None peek = Selected HTTP2) /\
  ((exists m, In m httpMethods /\ is_prefix m peek = true) ->
   SelectStreamFactoryProtocol rpcMagic None peek = Selected HTTP1) /\
  (is_prefix GET peek = true \/ is_prefix POST peek = true ->
   SelectStreamFactoryProtocol rpcMagic None peek = Selected HTTP1) /\
  ((exists m, In m (allMagics rpcMagic) /\
              is_prefix peek m = true /\ peek <> m) ->
   SelectStreamFactoryProtocol rpcMagic None peek = EAGAIN /\
   onInitialBytes (SelectStreamFactoryProtocol rpcMagic None peek)
     = WaitForMoreData) /\
  ((forall c, In c (codecs rpcMagic None) -> snd c peek = FAIL) ->
   SelectStreamFactoryProtocol rpcMagic None peek = FAILED /\
   onInitialBytes (SelectStreamFactoryProtocol rpcMagic None peek)
     = CloseConnection LocalClose).
Proof.
  intros Hapart.
  assert (Hmeth : (exists m, In m httpMethods /\ is_prefix m peek = true) ->
                  SelectStreamFactoryProtocol rpcMagic None peek = Selected HTTP1).
  { intros Hex. unfold SelectStreamFactoryProtocol, codecs. cbn [selectFrom].
    apply matchMagic_MATCH in Hex. now rewrite Hex. }
  split; [|split; [exact Hmeth | split; [|split]]].
  - (* the preface *)
    intros Hpre. unfold SelectStreamFactoryProtocol, codecs. cbn [selectFrom].
    assert (H1 : matchMagic httpMethods peek <> MATCH).
    { intros HM. apply matchMagic_MATCH in HM as (m & Hin & Hm).
      assert (Hin' : In m textMagics) by (apply in_or_app; now left).
      assert (Hp' : In ClientPreface textMagics)
        by (apply in_or_app; right; now left).
      pose proof textMagics_prefix_free as Hfree.
      rewrite forallb_forall in Hfree.
      destruct (is_prefix_comparable m ClientPreface peek Hm Hpre) as [Hc|Hc].
      - specialize (Hfree _ Hp'). rewrite forallb_forall in Hfree.
        specialize (Hfree _ Hin'). rewrite Hc in Hfree. cbn [implb] in Hfree.
        apply DubboFacts.bytes_eqb_eq in Hfree. subst m.
        revert Hin. clear. cbn. intuition discriminate.
      - specialize (Hfree _ Hin'). rewrite forallb_forall in Hfree.
        specialize (Hfree _ Hp'). rewrite Hc in Hfree. cbn [implb] in Hfree.
        apply DubboFacts.bytes_eqb_eq in Hfree. subst m.
        revert Hin. clear. cbn. intuition discriminate. }
    assert (H2 : matchMagic [ClientPreface] peek = MATCH).
    { apply matchMagic_MATCH. exists ClientPreface. split; [now left | assumption]. }
    rewrite H2. destruct (matchMagic httpMethods peek); congruence.
  - (* GET and POST *)
    intros [Hg|Hp]; apply Hmeth.
    + exists GET. split; [now left | assumption].
    + exists POST. split; [right; now left | assumption].
  - (* the proper beginning of a magic *)
    intros (m & Hm & Hpre & Hne).
    assert (Hnone : forall m', In m' (allMagics rpcMagic) ->
                               is_prefix m' peek = false).
    { intros m' Hm'.
      apply (proper_prefix_no_match rpcMagic peek m m'); assumption. }
    assert (Hres : SelectStreamFactoryProtocol rpcMagic None peek = EAGAIN).
    { unfold SelectStreamFactoryProtocol. rewrite selectFrom_no_match.
      - cbn [orb].
        assert (E : existsb (fun c => match snd c peek with
                                      | AGAIN => true | _ => false end)
                            (codecs rpcMagic None) = true).
        { unfold allMagics, textMagics in Hm.
          apply in_app_or in Hm as [Hm|Hm]; [apply in_app_or in Hm as [Hm|Hm]|].
          - apply existsb_exists. exists (HTTP1, matchMagic httpMethods).
            split; [now left|]. cbn [snd].
            assert (HA : matchMagic httpMethods peek = AGAIN).
            { apply matchMagic_AGAIN. split; [|eauto].
              intros m' Hm'. apply Hnone. unfold allMagics, textMagics.
              apply in_or_app. left. apply in_or_app. now left. }
            now rewrite HA.
          - destruct Hm as [<-|[]].
            apply existsb_exists. exists (HTTP2, matchMagic [ClientPreface]).
            split; [right; now left|]. cbn [snd].
            assert (HA : matchMagic [ClientPreface] peek = AGAIN).
            { apply matchMagic_AGAIN. split.
              - intros m' [<-|[]]. apply Hnone. unfold allMagics, textMagics.
                apply in_or_app. left. apply in_or_app. right. now left.
              - exists ClientPreface. split; [now left | assumption]. }
            now rewrite HA.
          - apply existsb_exists.
            exists (SofaRPC, matchMagic (map (fun b => [b]) rpcMagic)).
            split; [right; right; now left|]. cbn [snd].
            assert (HA : matchMagic (map (fun b => [b]) rpcMagic) peek = AGAIN).
            { apply matchMagic_AGAIN. split; [|eauto].
              intros m' Hm'. apply Hnone. unfold allMagics.
              apply in_or_app. now right. }
            now rewrite HA. }
        now rewrite E.
      - intros c Hc HM. unfold codecs in Hc.
        destruct Hc as [<-|[<-|[<-|[<-|[]]]]]; cbn [snd] in HM.
        + apply matchMagic_MATCH in HM as (m' & Hin & Hm').
          rewrite Hnone in Hm'; [discriminate|].
          unfold allMagics, textMagics. apply in_or_app. left.
          apply in_or_app. now left.
        + apply matchMagic_MATCH in HM as (m' & Hin & Hm').
          rewrite Hnone in Hm'; [discriminate|].
          unfold allMagics, textMagics. apply in_or_app. left.
          apply in_or_app. now right.
        + apply matchMagic_MATCH in HM as (m' & Hin & Hm').
          rewrite Hnone in Hm'; [discriminate|].
          unfold allMagics. apply in_or_app. now right.
        + discriminate HM. }
    rewrite Hres. split; reflexivity.
  - (* every recognizer fails *)
    intros Hall.
    assert (Hres : SelectStreamFactoryProtocol rpcMagic None peek = FAILED)
      by (apply selectFrom_all_fail; exact Hall).
    rewrite Hres. split; reflexivity.
Qed.

Lemma SelectStreamFactoryProtocol_outcomes_witness :
  (is_prefix ClientPreface ClientPreface = true ->
   SelectStreamFactoryProtocol sampleRpcMagic None ClientPreface
   = Selected HTTP2) /\
  ((exists m, In m httpMethods /\ is_prefix m ClientPreface = true) ->
   SelectStreamFactoryProtocol sampleRpcMagic None ClientPreface
   = Selected HTTP1) /\
  (is_prefix GET ClientPreface = true \/ is_prefix POST ClientPreface = true ->
   SelectStreamFactoryProtocol sampleRpcMagic None ClientPreface
   = Selected HTTP1) /\
  ((exists m, In m (allMagics sampleRpcMagic) /\
              is_prefix ClientPreface m = true /\ ClientPreface <> m) ->
   SelectStreamFactoryProtocol sampleRpcMagic None ClientPreface = EAGAIN /\
   onInitialBytes (SelectStreamFactoryProtocol sampleRpcMagic None ClientPreface)
     = WaitForMoreData) /\
  ((forall c, In c (codecs sampleRpcMagic None) -> snd c ClientPreface = FAIL) ->
   SelectStreamFactoryProtocol sampleRpcMagic None ClientPreface = FAILED /\
   onInitialBytes (SelectStreamFactoryProtocol sampleRpcMagic None ClientPreface)
     = CloseConnection LocalClose).
Proof.
  apply (SelectStreamFactoryProtocol_outcomes sampleRpcMagic ClientPreface).
  reflexivity.
Defined.

(** The cases of [TestProtocolHttp2] and [TestProtocolHttp1]. *)
Lemma TestProtocol_cases :
  SelectStreamFactoryProtocol sampleRpcMagic None ClientPreface = Selected HTTP2 /\
  SelectStreamFactoryProtocol sampleRpcMagic None (firstn 23 ClientPreface) = EAGAIN /\
  SelectStreamFactoryProtocol sampleRpcMagic None
    [x68; x65; x6c; x6c; x6f; x77; x6f; x72; x6c; x64] = FAILED /\
  SelectStreamFactoryProtocol sampleRpcMagic None GET = Selected HTTP1 /\
  SelectStreamFactoryProtocol sampleRpcMagic None POST = Selected HTTP1 /\
  SelectStreamFactoryProtocol sampleRpcMagic None [x50; x4f; x53] = EAGAIN /\
  SelectStreamFactoryProtocol sampleRpcMagic None
    [x50; x50; x50; x50; x50; x50; x50] = FAILED.
Proof. repeat split. Qed.

End AutoSelectFacts.

(** ** Round-robin, EDF and least-active-request *)

Module EdfFacts.
Import GoInt Cluster Edf.

Lemma Intn_lt (r : Rand) (n : nat) : (0 < n)%nat -> (fst (Intn r n) < n)%nat.
Proof.
  intros Hn. destruct r as [|x r]; cbn [Intn fst]; [assumption|].
  apply Nat.mod_upper_bound. lia.
Qed.

Lemma Intn_rest (r : Rand) (n : nat) : snd (Intn r n) = skipn 1 r.
Proof. destruct r; reflexivity. Qed.

Lemma Intn_lookup (allHosts : list Host) (r : Rand) :
  allHosts <> [] ->
  exists h, allHosts !! fst (Intn r (length allHosts)) = Some h.
Proof.
  intros Hne. apply lookup_lt_is_Some_2. apply Intn_lt.
  destruct allHosts; [congruence | cbn; lia].
Qed.

(** With every host unhealthy round-robin gives up. *)
Lemma RoundRobin_loop_unhealthy (n : nat) (targets : list Host) :
  Forall (fun h => Health h = false) targets ->
  forall idx, fst (RoundRobin.ChooseHost_loop n targets idx) = None.
Proof.
  intros Hall. induction n as [|n IH]; intros idx; cbn [RoundRobin.ChooseHost_loop];
    [reflexivity|].
  destruct (targets !! _) as [host|] eqn:E; [|reflexivity].
  rewrite Forall_forall in Hall.
  rewrite (Hall host) by (apply list_elem_of_lookup; eauto).
  apply IH.
Qed.

Lemma RoundRobin_unhealthy (targets : list Host) (idx : Z) :
  Forall (fun h => Health h = false) targets ->
  fst (RoundRobin.ChooseHost
         {| RoundRobin.hosts := targets; RoundRobin.rrIndex := idx |}) = None.
Proof.
  intros Hall. unfold RoundRobin.ChooseHost. cbn [RoundRobin.hosts RoundRobin.rrIndex].
  destruct (Nat.eqb (length targets) 0); [reflexivity|].
  pose proof (RoundRobin_loop_unhealthy (length targets) targets Hall idx) as H.
  destruct (RoundRobin.ChooseHost_loop (length targets) targets idx) as [h i].
  exact H.
Qed.

(** One call of [unweightChooseHost]: what the sampling loop returns. *)
Lemma unweightChooseHost_loop_spec (allHosts : list Host) :
  allHosts <> [] ->
  forall (n : nat) (r : Rand) (cand : option Host),
    (n <> O \/ cand <> None) ->
    exists c,
      unweightChooseHost_loop n allHosts r cand = (Some c, skipn n r) /\
      (cand = Some c \/
       exists i, In i (sampledIndices n (length allHosts) r) /\
                 allHosts !! i = Some c) /\
      (forall c0, cand = Some c0 ->
                  UpstreamRequestActive c <= UpstreamRequestActive c0) /\
      (forall j hj, In j (sampledIndices n (length allHosts) r) ->
                    allHosts !! j = Some hj ->
                    UpstreamRequestActive c <= UpstreamRequestActive hj).
Proof.
  intros Hne. induction n as [|n IH]; intros r cand Hstart.
  - destruct cand as [c|]; [|destruct Hstart; congruence].
    exists c. cbn. repeat split; auto.
    + intros c0 [= ->]. lia.
    + intros j hj [].
  - cbn [unweightChooseHost_loop sampledIndices].
    pose proof (Intn_rest r (length allHosts)) as Hrest.
    destruct (Intn_lookup allHosts r Hne) as [tempHost Htemp].
    destruct (Intn r (length allHosts)) as [randIdx rand'] eqn:EI.
    cbn [fst snd] in *. subst rand'. rewrite Htemp.
    assert (Hdrop : forall m, skipn m (skipn 1 r) = skipn (S m) r)
      by (intros m; rewrite drop_drop; reflexivity).
    destruct cand as [c0|].
    + destruct (Z.ltb_spec (UpstreamRequestActive tempHost)
                           (UpstreamRequestActive c0)) as [Hlt|Hge].
      * destruct (IH (skipn 1 r) (Some tempHost)) as (c & Hrun & Hmem & Hcand & Hmin);
          [right; discriminate|].
        exists c. rewrite Hrun, Hdrop. repeat split.
        -- right. destruct Hmem as [[= <-]|(i & Hi & Hl)].
           ++ exists randIdx. split; [now left | assumption].
           ++ exists i. split; [now right | assumption].
        -- intros c1 [= <-]. specialize (Hcand tempHost eq_refl). lia.
        -- intros j hj [<-|Hj] Hl.
           ++ rewrite Htemp in Hl. injection Hl as <-. now apply Hcand.
           ++ now apply (Hmin j).
      * destruct (IH (skipn 1 r) (Some c0)) as (c & Hrun & Hmem & Hcand & Hmin);
          [right; discriminate|].
        exists c. rewrite Hrun, Hdrop. repeat split.
        -- destruct Hmem as [Hc|(i & Hi & Hl)]; [now left|].
           right. exists i. split; [now right | assumption].
        -- assumption.
        -- intros j hj [<-|Hj] Hl.
           ++ rewrite Htemp in Hl. injection Hl as <-.
              specialize (Hcand c0 eq_refl). lia.
           ++ now apply (Hmin j).
    + destruct (IH (skipn 1 r) (Some tempHost)) as (c & Hrun & Hmem & Hcand & Hmin);
        [right; discriminate|].
      exists c. rewrite Hrun, Hdrop. repeat split.
      * right. destruct Hmem as [[= <-]|(i & Hi & Hl)].
        -- exists randIdx. split; [now left | assumption].
        -- exists i. split; [now right | assumption].
      * discriminate.
      * intros j hj [<-|Hj] Hl.
        -- rewrite Htemp in Hl. injection Hl as <-. now apply Hcand.
        -- now apply (Hmin j).
Qed.

Lemma sampledIndices_spec (n total : nat) :
  (0 < total)%nat ->
  forall r, length (sampledIndices n total r) = n /\
            Forall (fun i => (i < total)%nat) (sampledIndices n total r).
Proof.
  intros Htotal. induction n as [|n IH]; intros r; cbn [sampledIndices].
  - split; [reflexivity | constructor].
  - pose proof (Intn_lt r total Htotal) as Hlt.
    destruct (Intn r total) as [i r']. cbn [fst] in Hlt.
    destruct (IH r') as [Hlen Hall]. split; [cbn; now rewrite Hlen|].
    constructor; assumption.
Qed.

Section Scheduler.

Variable edfSchduler : Type.
Variable NextAndPush : edfSchduler -> option Host * edfSchduler.
Variable initScheduler : list Host -> edfSchduler.

Local Abbreviation EdfLoadBalancer := (EdfLoadBalancer edfSchduler).
Local Abbreviation nextCandidate := (nextCandidate edfSchduler NextAndPush).
Local Abbreviation ChooseHost_loop := (ChooseHost_loop edfSchduler NextAndPush).
Local Abbreviation ChooseHost := (ChooseHost edfSchduler NextAndPush).
Local Abbreviation afterRounds := (afterRounds edfSchduler NextAndPush).
Local Abbreviation candidateOfRound := (candidateOfRound edfSchduler NextAndPush).
Local Abbreviation unhealthyRound := (unhealthyRound edfSchduler NextAndPush).
Local Abbreviation candidatesNeverNil :=
  (candidatesNeverNil edfSchduler NextAndPush).

Lemma nextCandidate_hosts (lb : EdfLoadBalancer) :
  hosts _ (snd (nextCandidate lb)) = hosts _ lb.
Proof.
  unfold Edf.nextCandidate. destruct (scheduler _ lb) as [s|].
  - destruct (NextAndPush s). reflexivity.
  - destruct (unweightChooseHostFunc _ lb (hosts _ lb) (rand _ lb)). reflexivity.
Qed.

Lemma afterRounds_hosts (k : nat) :
  forall lb : EdfLoadBalancer, hosts _ (afterRounds k lb) = hosts _ lb.
Proof.
  induction k as [|k IH]; intros lb; cbn [Edf.afterRounds]; [reflexivity|].
  now rewrite IH, nextCandidate_hosts.
Qed.

(** The loop returns the first healthy candidate. *)
Lemma ChooseHost_loop_healthy (k : nat) :
  forall (n : nat) (lb : EdfLoadBalancer) (h : Host),
    (k < n)%nat ->
    candidateOfRound k lb = Some h -> Health h = true ->
    (forall j, (j < k)%nat -> unhealthyRound lb j) ->
    fst (ChooseHost_loop n lb) = Some (Returned (Some h)).
Proof.
  induction k as [|k IH]; intros n lb h Hk Hcand Hh Hbefore;
    (destruct n as [|n]; [lia|]); cbn [Edf.ChooseHost_loop].
  - unfold Edf.candidateOfRound in Hcand. cbn [Edf.afterRounds] in Hcand.
    destruct (nextCandidate lb) as [c lb']. cbn [fst] in Hcand. subst c.
    now rewrite Hh.
  - destruct (Hbefore O ltac:(lia)) as (h0 & Hc0 & Hh0).
    unfold Edf.candidateOfRound in Hc0. cbn [Edf.afterRounds] in Hc0.
    assert (Hrest : forall j, (j < k)%nat -> unhealthyRound (snd (nextCandidate lb)) j).
    { intros j Hj. destruct (Hbefore (S j) ltac:(lia)) as (hj & Hcj & Hhj).
      exists hj. split; [exact Hcj | exact Hhj]. }
    assert (Hcand' : candidateOfRound k (snd (nextCandidate lb)) = Some h)
      by exact Hcand.
    destruct (nextCandidate lb) as [c lb']. cbn [fst snd] in *. subst c.
    rewrite Hh0. apply (IH n lb' h); auto. lia.
Qed.

(** With unhealthy candidates only the loop runs to its end. *)
Lemma ChooseHost_loop_unhealthy (n : nat) :
  forall lb : EdfLoadBalancer,
    (forall j, (j < n)%nat -> unhealthyRound lb j) ->
    ChooseHost_loop n lb = (None, afterRounds n lb).
Proof.
  induction n as [|n IH]; intros lb Hall;
    cbn [Edf.ChooseHost_loop Edf.afterRounds]; [reflexivity|].
  destruct (Hall O ltac:(lia)) as (h0 & Hc0 & Hh0).
  unfold Edf.candidateOfRound in Hc0. cbn [Edf.afterRounds] in Hc0.
  assert (Hrest : forall j, (j < n)%nat -> unhealthyRound (snd (nextCandidate lb)) j).
  { intros j Hj. destruct (Hall (S j) ltac:(lia)) as (hj & Hcj & Hhj).
    exists hj. split; [exact Hcj | exact Hhj]. }
  destruct (nextCandidate lb) as [c lb']. cbn [fst snd] in *. subst c.
  rewrite Hh0. now apply IH.
Qed.

(** The loop never returns nil. *)
Lemma ChooseHost_loop_not_nil (n : nat) :
  forall lb : EdfLoadBalancer,
    fst (ChooseHost_loop n lb) <> Some (Returned None).
Proof.
  induction n as [|n IH]; intros lb; cbn [Edf.ChooseHost_loop]; [discriminate|].
  destruct (nextCandidate lb) as [[h|] lb']; [|discriminate].
  destruct (Health h); [discriminate | apply IH].
Qed.

(** What the loop did, read off its result. *)
Lemma ChooseHost_loop_inv (n : nat) :
  forall lb : EdfLoadBalancer,
    match fst (ChooseHost_loop n lb) with
    | Some (Returned (Some h)) =>
        Health h = true /\
        exists k, (k < n)%nat /\ candidateOfRound k lb = Some h /\
                  forall j, (j < k)%nat -> unhealthyRound lb j
    | Some (Returned None) => False
    | Some Panicked =>
        exists k, (k < n)%nat /\ candidateOfRound k lb = None /\
                  forall j, (j < k)%nat -> unhealthyRound lb j
    | None => forall j, (j < n)%nat -> unhealthyRound lb j
    end.
Proof.
  induction n as [|n IH]; intros lb; cbn [Edf.ChooseHost_loop].
  - cbn. intros j Hj. lia.
  - specialize (IH (snd (nextCandidate lb))).
    assert (Hc0 : candidateOfRound O lb = fst (nextCandidate lb)) by reflexivity.
    assert (Hshift : forall j, candidateOfRound (S j) lb
                               = candidateOfRound j (snd (nextCandidate lb)))
      by reflexivity.
    destruct (nextCandidate lb) as [[h|] lb']; cbn [fst snd] in *.
    + destruct (Health h) eqn:Hh; cbn [fst].
      * split; [assumption|]. exists O. repeat split; [lia | assumption |].
        intros j Hj. lia.
      * assert (Hlift : forall k,
                  (forall j, (j < k)%nat -> unhealthyRound lb' j) ->
                  forall j, (j < S k)%nat -> unhealthyRound lb j).
        { intros k Hk [|j] Hj.
          - exists h. now split.
          - destruct (Hk j ltac:(lia)) as (hj & Hcj & Hhj).
            exists hj. split; [now rewrite Hshift | assumption]. }
        destruct (fst (ChooseHost_loop n lb')) as [[[h'|]|]|].
        -- destruct IH as (Hh' & k & Hk & Hck & Hbefore). split; [assumption|].
           exists (S k). repeat split; [lia | now rewrite Hshift | now apply Hlift].
        -- exact IH.
        -- destruct IH as (k & Hk & Hck & Hbefore).
           exists (S k). repeat split; [lia | now rewrite Hshift | now apply Hlift].
        -- now apply Hlift.
    + cbn [fst]. exists O. repeat split; [lia | assumption |].
      intros j Hj. lia.
Qed.

Lemma ChooseHost_two_or_more (lb : EdfLoadBalancer) :
  (2 <= length (hosts _ lb))%nat ->
  ChooseHost lb
  = match ChooseHost_loop (length (hosts _ lb)) lb with
    | (Some o, lb') => (o, lb')
    | (None, lb') =>
        let '(i, rand') := Intn (rand _ lb') (length (hosts _ lb)) in
        (Returned (hosts _ lb !! i),
         {| scheduler := scheduler _ lb'; hosts := hosts _ lb'; rand := rand';
            unweightChooseHostFunc := unweightChooseHostFunc _ lb' |})
    end.
Proof.
  intros Hlen. unfold Edf.ChooseHost.
  destruct (hosts _ lb) as [|h0 [|h1 tl]] eqn:E; cbn in Hlen; try lia.
  reflexivity.
Qed.

Lemma nextCandidate_is_Some (lb : EdfLoadBalancer) :
  candidatesNeverNil lb ->
  (exists c, fst (nextCandidate lb) = Some c) /\
  candidatesNeverNil (snd (nextCandidate lb)).
Proof.
  unfold Edf.candidatesNeverNil, Edf.nextCandidate. intros Hsrc.
  destruct (scheduler _ lb) as [s|].
  - destruct (Hsrc s) as [c Hc].
    destruct (NextAndPush s) as [c' s']. cbn [fst snd scheduler] in *.
    split; [now exists c | exact Hsrc].
  - destruct (Hsrc (rand _ lb)) as [c Hc].
    destruct (unweightChooseHostFunc _ lb (hosts _ lb) (rand _ lb)) as [c' r'].
    cbn [fst snd scheduler hosts unweightChooseHostFunc] in *.
    split; [now exists c | exact Hsrc].
Qed.

Lemma candidateOfRound_is_Some (k : nat) :
  forall lb : EdfLoadBalancer,
    candidatesNeverNil lb -> exists c, candidateOfRound k lb = Some c.
Proof.
  induction k as [|k IH]; intros lb Hsrc.
  - exact (proj1 (nextCandidate_is_Some lb Hsrc)).
  - exact (IH _ (proj2 (nextCandidate_is_Some lb Hsrc))).
Qed.

(** Least-active-request with a choice count of at least one and hosts of
    equal weight: every round has a candidate. *)
Lemma leastActive_candidatesNeverNil (choice : nat) (hostSet : list Host)
      (seed : Rand) :
  hostSet <> [] ->
  (1 <= choice)%nat ->
  hostWeightsAreEqual hostSet = true ->
  candidatesNeverNil
    (newleastActiveRequestLoadBalancer _ initScheduler choice hostSet seed).
Proof.
  intros Hne Hchoice Hequal.
  unfold newleastActiveRequestLoadBalancer, Edf.candidatesNeverNil.
  rewrite Hequal. cbn [scheduler hosts unweightChooseHostFunc]. intros r.
  destruct (unweightChooseHost_loop_spec hostSet Hne choice r None)
    as (c & Hrun & _); [left; lia|].
  exists c. unfold unweightChooseHost. now rewrite Hrun.
Qed.


Lemma unweightChooseHost_rest (choice : nat) (hostSet : list Host) (r : Rand) :
  hostSet <> [] -> snd (unweightChooseHost choice hostSet r) = skipn choice r.
Proof.
  intros Hne. unfold unweightChooseHost. destruct choice as [|choice].
  - reflexivity.
  - destruct (unweightChooseHost_loop_spec hostSet Hne (S choice) r None)
      as (c & Hrun & _); [left; discriminate|].
    now rewrite Hrun.
Qed.

(** The rounds of least-active-request with equal weights: round [k]
    works on the random source after [k * choice] draws. *)
Lemma leastActive_afterRounds (choice : nat) (hostSet : list Host) (k : nat) :
  hostSet <> [] ->
  forall seed : Rand,
    afterRounds k
      {| scheduler := None; hosts := hostSet; rand := seed;
         unweightChooseHostFunc := unweightChooseHost choice |}
    = {| scheduler := None; hosts := hostSet;
         rand := skipn (k * choice) seed;
         unweightChooseHostFunc := unweightChooseHost choice |}.
Proof.
  intros Hne. induction k as [|k IH]; intros seed; [reflexivity|].
  cbn [Edf.afterRounds]. unfold Edf.nextCandidate at 1.
  cbn [scheduler hosts rand unweightChooseHostFunc].
  pose proof (unweightChooseHost_rest choice hostSet seed Hne) as Hrest.
  destruct (unweightChooseHost choice hostSet seed) as [c r'].
  cbn [snd] in *. subst r'. rewrite IH, drop_drop. reflexivity.
Qed.

Lemma leastActive_candidateOfRound (choice : nat) (hostSet : list Host)
      (seed : Rand) (k : nat) :
  hostSet <> [] ->
  candidateOfRound k
    {| scheduler := None; hosts := hostSet; rand := seed;
       unweightChooseHostFunc := unweightChooseHost choice |}
  = fst (unweightChooseHost choice hostSet (skipn (k * choice) seed)).
Proof.
  intros Hne. unfold Edf.candidateOfRound.
  rewrite leastActive_afterRounds by assumption.
  unfold Edf.nextCandidate. cbn [scheduler hosts rand unweightChooseHostFunc].
  now destruct (unweightChooseHost choice hostSet (skipn (k * choice) seed)).
Qed.

(** * C7, as found in the code.  With two hosts or more, equal host weights
    (so that no EDF scheduler is in the way) and a choice count of at least
    one: each round draws [choice] indices below the number of hosts, one
    after the other from the random source and possibly the same index more
    than once, and its candidate is a drawn host whose active-request count
    is the smallest among the drawn ones; [ChooseHost] returns the first
    healthy candidate of as many rounds as there are hosts, and when none of
    these candidates is healthy the host at a random index of the whole
    set. *)
Theorem leastActive_ChooseHost (choice : nat) (hostSet : list Host) (seed : Rand) :
  (2 <= length hostSet)%nat ->
  (1 <= choice)%nat ->
  hostWeightsAreEqual hostSet = true ->
  (forall r : Rand,
      length (sampledIndices choice (length hostSet) r) = choice /\
      Forall (fun i => (i < length hostSet)%nat)
             (sampledIndices choice (length hostSet) r) /\
      exists c i,
        unweightChooseHost choice hostSet r = (Some c, skipn choice r) /\
        In i (sampledIndices choice (length hostSet) r) /\
        hostSet !! i = Some c /\
        forall j hj, In j (sampledIndices choice (length hostSet) r) ->
                     hostSet !! j = Some hj ->
                     UpstreamRequestActive c <= UpstreamRequestActive hj) /\
  (forall k,
      candidateOfRound k
        (newleastActiveRequestLoadBalancer _ initScheduler choice hostSet seed)
      = fst (unweightChooseHost choice hostSet (skipn (k * choice) seed))) /\
  exists h,
    fst (ChooseHost
           (newleastActiveRequestLoadBalancer _ initScheduler choice hostSet seed))
    = Returned (Some h) /\
    In h hostSet /\
    ((Health h = true /\
      exists k, (k < length hostSet)%nat /\
        candidateOfRound k
          (newleastActiveRequestLoadBalancer _ initScheduler choice hostSet seed)
        = Some h /\
        forall j, (j < k)%nat ->
          unhealthyRound
            (newleastActiveRequestLoadBalancer _ initScheduler choice hostSet seed) j)
     \/
     ((forall j, (j < length hostSet)%nat ->
         unhealthyRound
           (newleastActiveRequestLoadBalancer _ initScheduler choice hostSet seed) j) /\
      hostSet !! fst (Intn (skipn (length hostSet * choice) seed) (length hostSet))
      = Some h)).
Proof.
  intros Hlen Hchoice Hequal.
  assert (Hne : hostSet <> []) by (destruct hostSet; [cbn in Hlen; lia | discriminate]).
  assert (Hpos : (0 < length hostSet)%nat) by lia.
  assert (Hround : forall r : Rand,
      exists c i,
        unweightChooseHost choice hostSet r = (Some c, skipn choice r) /\
        In i (sampledIndices choice (length hostSet) r) /\
        hostSet !! i = Some c /\
        forall j hj, In j (sampledIndices choice (length hostSet) r) ->
                     hostSet !! j = Some hj ->
                     UpstreamRequestActive c <= UpstreamRequestActive hj).
  { intros r.
    destruct (unweightChooseHost_loop_spec hostSet Hne choice r None)
      as (c & Hrun & Hmem & _ & Hmin); [left; lia|].
    destruct Hmem as [Hc|(i & Hi & Hl)]; [discriminate|].
    exists c, i. auto. }
  unfold newleastActiveRequestLoadBalancer. rewrite Hequal.
  set (lb := {| scheduler := None; hosts := hostSet; rand := seed;
                unweightChooseHostFunc := unweightChooseHost choice |}).
  assert (Hcand : forall k, candidateOfRound k lb
            = fst (unweightChooseHost choice hostSet (skipn (k * choice) seed)))
    by (intros k; now apply leastActive_candidateOfRound).
  split; [|split].
  - intros r. destruct (sampledIndices_spec choice (length hostSet) Hpos r).
    auto.
  - exact Hcand.
  - assert (Hmember : forall k h, candidateOfRound k lb = Some h -> In h hostSet).
    { intros k h Hk. rewrite Hcand in Hk.
      destruct (Hround (skipn (k * choice) seed)) as (c & i & Hrun & _ & Hl & _).
      rewrite Hrun in Hk. cbn [fst] in Hk. injection Hk as <-.
      apply list_elem_of_In. apply list_elem_of_lookup. eauto. }
    rewrite ChooseHost_two_or_more by exact Hlen.
    pose proof (ChooseHost_loop_inv (length (hosts _ lb)) lb) as Hinv.
    pose proof (ChooseHost_loop_unhealthy (length (hosts _ lb)) lb) as Hfall.
    destruct (ChooseHost_loop (length (hosts _ lb)) lb) as [[[[h|]|]|] lb'];
      cbn [fst] in Hinv.
    + destruct Hinv as (Hh & k & Hk & Hck & Hbefore).
      exists h. split; [reflexivity|]. split; [now apply (Hmember k)|].
      left. split; [assumption|]. exists k. auto.
    + contradiction.
    + destruct Hinv as (k & Hk & Hck & _). rewrite Hcand in Hck.
      destruct (Hround (skipn (k * choice) seed)) as (c & i & Hrun & _).
      rewrite Hrun in Hck. discriminate.
    + specialize (Hfall Hinv). injection Hfall as ->.
      unfold lb at 1 2 3. cbn [hosts].
      rewrite leastActive_afterRounds by exact Hne.
      cbn [rand hosts scheduler unweightChooseHostFunc].
      destruct (Intn_lookup hostSet (skipn (length hostSet * choice) seed) Hne)
        as [h Hh].
      exists h.
      destruct (Intn (skipn (length hostSet * choice) seed) (length hostSet))
        as [i r'] eqn:EI.
      cbn [fst] in *. split; [now rewrite Hh|].
      split; [apply list_elem_of_In; apply list_elem_of_lookup; eauto|].
      right. split; [exact Hinv | exact Hh].
Qed.

End Scheduler.

Lemma leastActive_ChooseHost_witness :
  exists h,
    fst (ChooseHost unit noScheduler
           (newleastActiveRequestLoadBalancer unit (fun _ => tt)
              default_choice [busyHost; idleHost] [0; 1]%nat))
    = Returned (Some h) /\
    In h [busyHost; idleHost] /\
    ((Health h = true /\
      exists k, (k < length [busyHost; idleHost])%nat /\
        candidateOfRound unit noScheduler k
          (newleastActiveRequestLoadBalancer unit (fun _ => tt)
             default_choice [busyHost; idleHost] [0; 1]%nat)
        = Some h /\
        forall j, (j < k)%nat ->
          unhealthyRound unit noScheduler
            (newleastActiveRequestLoadBalancer unit (fun _ => tt)
               default_choice [busyHost; idleHost] [0; 1]%nat) j)
     \/
     ((forall j, (j < length [busyHost; idleHost])%nat ->
         unhealthyRound unit noScheduler
           (newleastActiveRequestLoadBalancer unit (fun _ => tt)
              default_choice [busyHost; idleHost] [0; 1]%nat) j) /\
      [busyHost; idleHost]
        !! fst (Intn (skipn (length [busyHost; idleHost] * default_choice)
                            [0; 1]%nat)
                     (length [busyHost; idleHost]))
      = Some h)).
Proof.
  apply (leastActive_ChooseHost unit noScheduler (fun _ => tt)
           default_choice [busyHost; idleHost] [0; 1]%nat).
  - cbn. lia.
  - unfold default_choice. lia.
  - reflexivity.
Defined.

(** * C7, as stated, fails: the indices are drawn independently, and the
    same index may come twice.  When it does, the busy host is returned
    although the idle one is in the set. *)
Lemma leastActive_indices_repeat :
  sampledIndices default_choice (length [busyHost; idleHost]) [0; 0]%nat
    = [0; 0]%nat /\
  fst (ChooseHost unit noScheduler
         (newleastActiveRequestLoadBalancer unit (fun _ => tt)
            default_choice [busyHost; idleHost] [0; 0]%nat))
    = Returned (Some busyHost) /\
  ~ least_active_as_stated default_choice [busyHost; idleHost] [0; 0]%nat.
Proof.
  split; [reflexivity|]. split; [reflexivity|].
  unfold least_active_as_stated. cbv zeta. intros [Hnodup _].
  change (sampledIndices default_choice (length [busyHost; idleHost]) [0; 0]%nat)
    with [0; 0]%nat in Hnodup.
  apply NoDup_cons in Hnodup as [Hnotin _]. apply Hnotin. now left.
Qed.



(** With every host down the EDF balancer still hands out a host. *)
Example Edf_all_down :
  fst (ChooseHost unit noScheduler
         (newleastActiveRequestLoadBalancer unit (fun _ => tt)
            default_choice downPair [0; 1; 1; 0; 1]%nat))
  = Returned (Some (downHost "10.0.0.2:8080")).
Proof. reflexivity. Qed.

End EdfFacts.

(** ** Smooth weighted round-robin *)

Module SmoothWRRFacts.
Import GoInt Cluster SmoothWRR.

(** *** Sums, raised weights and the greatest value *)

Lemma sumZ_insert (l : list Z) :
  forall (k : nat) (m x : Z),
    l !! k = Some m -> sumZ (<[k := x]> l) = sumZ l - m + x.
Proof.
  induction l as [|a l IH]; intros k m x Hk; [discriminate|].
  destruct k as [|k].
  - cbn in Hk. injection Hk as ->.
    change (<[O := x]> (m :: l)) with (x :: l). cbn [sumZ]. lia.
  - change (l !! k = Some m) in Hk.
    change (<[S k := x]> (a :: l)) with (a :: <[k := x]> l).
    cbn [sumZ]. rewrite (IH k m x Hk). lia.
Qed.

Lemma sumZ_raise (cs : list Z) :
  forall ws, length cs = length ws ->
             sumZ (raise ws cs) = sumZ cs + sumZ ws.
Proof.
  unfold raise. induction cs as [|c cs IH]; intros [|w ws] Hlen;
    cbn in *; try lia.
  rewrite IH by lia. lia.
Qed.

Lemma sumZ_positive_elem (l : list Z) :
  0 < sumZ l -> exists x, In x l /\ 0 < x.
Proof.
  induction l as [|a l IH]; cbn; [lia|]. intros Hs.
  destruct (Z.ltb_spec 0 a) as [Ha|Ha].
  - exists a. auto.
  - destruct IH as (x & Hin & Hx); [lia|]. exists x. auto.
Qed.

Lemma sumZ_nonneg_zero (l : list Z) :
  Forall (fun x => 0 <= x) l -> sumZ l = 0 -> Forall (fun x => x = 0) l.
Proof.
  induction 1 as [|a l Ha Hl IH]; cbn; [constructor|]. intros Hs.
  assert (0 <= sumZ l).
  { clear -Hl. induction Hl; cbn; lia. }
  constructor; [lia | apply IH; lia].
Qed.

Lemma length_raise (ws cs : list Z) :
  length cs = length ws -> length (raise ws cs) = length ws.
Proof. intros H. unfold raise. rewrite length_zip_with. lia. Qed.

Lemma lookup_raise (ws cs : list Z) (i : nat) (c w : Z) :
  cs !! i = Some c -> ws !! i = Some w -> raise ws cs !! i = Some (c + w).
Proof.
  intros Hc Hw. unfold raise. apply lookup_zip_with_Some. eauto.
Qed.

Lemma lookup_weightsOf (hostSet : list Host) (i : nat) (h : Host) :
  hostSet !! i = Some h -> weightsOf hostSet !! i = Some (Z.of_N (Weight h)).
Proof. intros H. unfold weightsOf. now rewrite list_lookup_fmap, H. Qed.

Lemma length_weightsOf (hostSet : list Host) :
  length (weightsOf hostSet) = length hostSet.
Proof. unfold weightsOf. apply length_map. Qed.

Lemma weightsOf_nonneg (hostSet : list Host) (i : nat) (w : Z) :
  weightsOf hostSet !! i = Some w -> 0 <= w.
Proof.
  unfold weightsOf. rewrite list_lookup_fmap.
  destruct (hostSet !! i); cbn; [|discriminate]. intros [= <-]. lia.
Qed.

Lemma sumZ_lookup_le (l : list Z) :
  Forall (fun x => 0 <= x) l ->
  forall i x, l !! i = Some x -> x <= sumZ l.
Proof.
  induction 1 as [|a l Ha Hl IH]; intros i x Hi; [discriminate|].
  assert (0 <= sumZ l) by (clear -Hl; induction Hl; cbn; lia).
  destruct i as [|i]; cbn in *.
  - injection Hi as ->. lia.
  - specialize (IH i x Hi). lia.
Qed.

Lemma weightsOf_Forall_nonneg (hostSet : list Host) :
  Forall (fun x => 0 <= x) (weightsOf hostSet).
Proof.
  apply Forall_lookup. intros i w. apply weightsOf_nonneg.
Qed.

Lemma totalWeight_nonneg (hostSet : list Host) : 0 <= totalWeight hostSet.
Proof.
  unfold totalWeight. pose proof (weightsOf_Forall_nonneg hostSet) as H.
  induction H; cbn; lia.
Qed.

Lemma maxWeight_ge (hostSet : list Host) (i : nat) (w : Z) :
  weightsOf hostSet !! i = Some w -> w <= maxWeight hostSet.
Proof.
  unfold maxWeight. generalize (weightsOf hostSet) as l.
  intros l. revert i. induction l as [|a l IH]; intros i Hi; [discriminate|].
  destruct i as [|i]; cbn in *.
  - injection Hi as ->. lia.
  - specialize (IH i Hi). lia.
Qed.

Lemma maxWeight_nonneg (hostSet : list Host) : 0 <= maxWeight hostSet.
Proof.
  unfold maxWeight. induction (weightsOf hostSet); cbn; lia.
Qed.

(** The value selected is the greatest one, and it sits at the index
    selected. *)
Lemma argmax_from_spec (hs : list Host) :
  forall (l : list Z) (idx : nat) (best : option (nat * Host * Z)),
    length hs = length l ->
    (best <> None \/ l <> []) ->
    exists k h m,
      argmax_from hs l idx best = Some (k, h, m) /\
      (forall x, In x l -> x <= m) /\
      (forall k0 h0 b, best = Some (k0, h0, b) -> b <= m) /\
      (best = Some (k, h, m) \/
       ((idx <= k)%nat /\ hs !! (k - idx)%nat = Some h /\
        l !! (k - idx)%nat = Some m)).
Proof.
  induction hs as [|h0 hs IH]; intros [|c l] idx best Hlen Hstart;
    cbn in Hlen; try lia.
  - destruct best as [[[k h] m]|]; [|destruct Hstart; congruence].
    exists k, h, m. cbn. repeat split; auto.
    + intros x [].
    + intros k0 h1 b [= _ _ ->]. lia.
  - cbn [argmax_from].
    set (best' := match best with
                  | None => Some (idx, h0, c)
                  | Some (_, _, b) => if b <? c then Some (idx, h0, c) else best
                  end).
    destruct (IH l (S idx) best') as (k & h & m & Hrun & Hmax & Hbest & Hwhere).
    { lia. }
    { left. subst best'. destruct best as [[[k1 h1] b]|]; [|discriminate].
      destruct (b <? c); discriminate. }
    exists k, h, m. rewrite Hrun. split; [reflexivity|].
    assert (Hc : c <= m).
    { subst best'. destruct best as [[[k1 h1] b]|].
      - destruct (Z.ltb_spec b c).
        + apply (Hbest idx h0 c eq_refl).
        + specialize (Hbest k1 h1 b eq_refl). lia.
      - apply (Hbest idx h0 c eq_refl). }
    split; [|split].
    + intros x [<-|Hx]; [exact Hc | now apply Hmax].
    + intros k0 h1 b ->. subst best'. cbn in Hbest.
      destruct (Z.ltb_spec b c).
      * specialize (Hbest idx h0 c eq_refl). lia.
      * apply (Hbest k0 h1 b eq_refl).
    + destruct Hwhere as [Heq|(Hle & Hh & Hm)].
      * subst best'. destruct best as [[[k1 h1] b]|].
        -- destruct (b <? c).
           ++ injection Heq as <- <- <-. right.
              rewrite Nat.sub_diag. cbn. auto.
           ++ now left.
        -- injection Heq as <- <- <-. right.
           rewrite Nat.sub_diag. cbn. auto.
      * right. split; [lia|].
        replace (k - idx)%nat with (S (k - S idx)) by lia. cbn. auto.
Qed.

(** One step of the algorithm on a non-empty host set. *)
Lemma idealStep_spec (hostSet : list Host) (cs : list Z) :
  hostSet <> [] -> length cs = length hostSet ->
  exists k h m,
    idealStep hostSet cs
    = (Some (k, h),
       <[k := m - totalWeight hostSet]> (raise (weightsOf hostSet) cs)) /\
    hostSet !! k = Some h /\
    raise (weightsOf hostSet) cs !! k = Some m /\
    (forall x, In x (raise (weightsOf hostSet) cs) -> x <= m).
Proof.
  intros Hne Hlen. unfold idealStep. cbv zeta.
  assert (Hl : length hostSet = length (raise (weightsOf hostSet) cs))
    by (rewrite length_raise; rewrite length_weightsOf; lia).
  destruct (argmax_from_spec hostSet (raise (weightsOf hostSet) cs) 0 None Hl)
    as (k & h & m & Hrun & Hmax & _ & Hwhere).
  { right. intros E. rewrite E in Hl. destruct hostSet; [congruence | discriminate]. }
  destruct Hwhere as [Hbad|(_ & Hh & Hm)]; [discriminate|].
  rewrite Nat.sub_0_r in Hh, Hm.
  exists k, h, m. rewrite Hrun. auto.
Qed.

Lemma length_idealStep (hostSet : list Host) (cs : list Z) :
  length cs = length hostSet ->
  length (snd (idealStep hostSet cs)) = length hostSet.
Proof.
  intros Hlen. unfold idealStep. cbv zeta.
  destruct (argmax_from hostSet _ 0 None) as [[[k h] m]|]; cbn [snd];
    rewrite ?length_insert, length_raise; rewrite ?length_weightsOf; lia.
Qed.

Lemma length_idealAfter (t : nat) (hostSet : list Host) :
  forall cs, length cs = length hostSet ->
             length (idealAfter t hostSet cs) = length hostSet.
Proof.
  induction t as [|t IH]; intros cs Hlen; cbn [idealAfter]; [assumption|].
  apply IH. now apply length_idealStep.
Qed.

Lemma sumZ_idealStep (hostSet : list Host) (cs : list Z) :
  hostSet <> [] -> length cs = length hostSet ->
  sumZ (snd (idealStep hostSet cs)) = sumZ cs.
Proof.
  intros Hne Hlen.
  destruct (idealStep_spec hostSet cs Hne Hlen) as (k & h & m & -> & _ & Hm & _).
  cbn [snd]. rewrite (sumZ_insert _ k m _ Hm).
  rewrite sumZ_raise by (rewrite length_weightsOf; lia).
  unfold totalWeight. lia.
Qed.

Lemma sumZ_idealAfter (t : nat) (hostSet : list Host) :
  hostSet <> [] ->
  forall cs, length cs = length hostSet ->
             sumZ (idealAfter t hostSet cs) = sumZ cs.
Proof.
  intros Hne. induction t as [|t IH]; intros cs Hlen; cbn [idealAfter];
    [reflexivity|].
  rewrite IH by now apply length_idealStep. now apply sumZ_idealStep.
Qed.

(** *** One step, host by host *)

Lemma idealStep_pointwise (hostSet : list Host) (cs : list Z) :
  hostSet <> [] -> length cs = length hostSet ->
  exists k h,
    fst (idealStep hostSet cs) = Some (k, h) /\
    hostSet !! k = Some h /\
    (forall i c w,
        cs !! i = Some c -> weightsOf hostSet !! i = Some w ->
        snd (idealStep hostSet cs) !! i
        = Some (c + w - (if Nat.eqb k i then totalWeight hostSet else 0))) /\
    (forall c w i c' w',
        cs !! k = Some c -> weightsOf hostSet !! k = Some w ->
        cs !! i = Some c' -> weightsOf hostSet !! i = Some w' ->
        c' + w' <= c + w) /\
    (sumZ cs = 0 -> 0 < totalWeight hostSet ->
     forall c w, cs !! k = Some c -> weightsOf hostSet !! k = Some w ->
                 0 < c + w).
Proof.
  intros Hne Hlen.
  destruct (idealStep_spec hostSet cs Hne Hlen)
    as (k & h & m & Hstep & Hh & Hm & Hmax).
  exists k, h. rewrite Hstep. cbn [fst snd].
  assert (Hk : (k < length (raise (weightsOf hostSet) cs))%nat)
    by (apply lookup_lt_is_Some; eauto).
  assert (Hmk : forall c w, cs !! k = Some c -> weightsOf hostSet !! k = Some w ->
                            m = c + w).
  { intros c w Hc Hw. rewrite (lookup_raise _ _ _ _ _ Hc Hw) in Hm. congruence. }
  split; [reflexivity|]. split; [assumption|]. split; [|split].
  - intros i c w Hc Hw. destruct (Nat.eqb_spec k i) as [<-|Hne'].
    + rewrite list_lookup_insert_eq by assumption.
      now rewrite (Hmk c w Hc Hw).
    + rewrite list_lookup_insert_ne by assumption.
      rewrite (lookup_raise _ _ _ _ _ Hc Hw). f_equal. lia.
  - intros c w i c' w' Hc Hw Hc' Hw'. rewrite <- (Hmk c w Hc Hw).
    apply Hmax. apply list_elem_of_In. apply list_elem_of_lookup.
    exists i. now apply lookup_raise.
  - intros Hsum Hpos c w Hc Hw. rewrite <- (Hmk c w Hc Hw).
    destruct (sumZ_positive_elem (raise (weightsOf hostSet) cs)) as (x & Hin & Hx).
    { rewrite sumZ_raise by (rewrite length_weightsOf; lia).
      unfold totalWeight in Hpos. lia. }
    specialize (Hmax x Hin). lia.
Qed.

(** After [t] steps the current weight of host [i] is what it started
    with, plus [t] times its weight, minus the total weight for every time
    it was selected. *)
Lemma idealAfter_lookup (hostSet : list Host) :
  hostSet <> [] ->
  forall (t : nat) (cs : list Z) (i : nat) (c w : Z),
    length cs = length hostSet ->
    cs !! i = Some c -> weightsOf hostSet !! i = Some w ->
    idealAfter t hostSet cs !! i
    = Some (c + Z.of_nat t * w
            - totalWeight hostSet * timesSelected i (idealPicks t hostSet cs)).
Proof.
  intros Hne. induction t as [|t IH]; intros cs i c w Hlen Hc Hw.
  - cbn [idealAfter idealPicks timesSelected]. rewrite Hc. f_equal. lia.
  - cbn [idealAfter idealPicks timesSelected].
    destruct (idealStep_pointwise hostSet cs Hne Hlen)
      as (k & h & Hpick & _ & Hpoint & _).
    rewrite (IH _ i _ w (length_idealStep hostSet cs Hlen) (Hpoint i c w Hc Hw) Hw).
    rewrite Hpick. cbn [option_map fst]. f_equal.
    destruct (Nat.eqb k i); lia.
Qed.

Lemma idealAfter_add (hostSet : list Host) (a b : nat) :
  forall cs, idealAfter (a + b) hostSet cs
             = idealAfter b hostSet (idealAfter a hostSet cs).
Proof.
  induction a as [|a IH]; intros cs; cbn [Nat.add idealAfter]; [reflexivity|].
  apply IH.
Qed.

Lemma idealPicks_add (hostSet : list Host) (a b : nat) :
  forall cs, idealPicks (a + b) hostSet cs
             = idealPicks a hostSet cs
               ++ idealPicks b hostSet (idealAfter a hostSet cs).
Proof.
  induction a as [|a IH]; intros cs; cbn [Nat.add idealAfter idealPicks];
    [reflexivity|].
  rewrite IH. reflexivity.
Qed.

Lemma timesSelected_app (i : nat) (l1 l2 : list (option nat)) :
  timesSelected i (l1 ++ l2) = timesSelected i l1 + timesSelected i l2.
Proof.
  induction l1 as [|s l1 IH]; cbn [app timesSelected]; [reflexivity|].
  rewrite IH. lia.
Qed.

Lemma timesSelected_nonneg (i : nat) (l : list (option nat)) :
  0 <= timesSelected i l.
Proof.
  induction l as [|[k|] l IH]; cbn [timesSelected]; try lia.
  destruct (Nat.eqb k i); lia.
Qed.

Lemma lookup_zeros (hostSet : list Host) (i : nat) (w : Z) :
  weightsOf hostSet !! i = Some w -> zeros hostSet !! i = Some 0.
Proof.
  unfold weightsOf, zeros. rewrite !list_lookup_fmap.
  destruct (hostSet !! i); cbn; [reflexivity | discriminate].
Qed.

Lemma length_zeros (hostSet : list Host) :
  length (zeros hostSet) = length hostSet.
Proof. unfold zeros. apply length_map. Qed.

Lemma sumZ_zeros (hostSet : list Host) : sumZ (zeros hostSet) = 0.
Proof. unfold zeros. induction hostSet; cbn; lia. Qed.

(** *** The first [W] picks

    Within the first [W] picks, [W] the total weight, host [i] is selected
    at most [w_i] times: a host that has had its share is not ahead of the
    others any more. *)
Lemma picks_le_weight (hostSet : list Host) :
  hostSet <> [] -> 0 < totalWeight hostSet ->
  forall (t : nat) (i : nat) (w : Z),
    Z.of_nat t <= totalWeight hostSet ->
    weightsOf hostSet !! i = Some w ->
    timesSelected i (idealPicks t hostSet (zeros hostSet)) <= w.
Proof.
  intros Hne HW. induction t as [|t IH]; intros i w Ht Hw.
  - cbn. now apply (weightsOf_nonneg hostSet i).
  - replace (S t) with (t + 1)%nat by lia.
    rewrite idealPicks_add, timesSelected_app.
    specialize (IH i w ltac:(lia) Hw).
    set (X := idealAfter t hostSet (zeros hostSet)).
    assert (HlenX : length X = length hostSet)
      by (apply length_idealAfter, length_zeros).
    assert (HsumX : sumZ X = 0)
      by (unfold X; rewrite sumZ_idealAfter;
          [apply sumZ_zeros | assumption | apply length_zeros]).
    cbn [idealPicks timesSelected].
    destruct (idealStep_pointwise hostSet X Hne HlenX)
      as (k & h & Hpick & _ & _ & _ & Hpos).
    rewrite Hpick. cbn [option_map fst].
    destruct (Nat.eqb_spec k i) as [->|Hki]; [|lia].
    pose proof (idealAfter_lookup hostSet Hne t (zeros hostSet) i 0 w
                  (length_zeros hostSet) (lookup_zeros hostSet i w Hw) Hw) as HX.
    fold X in HX.
    specialize (Hpos HsumX HW _ w HX Hw).
    set (ts := timesSelected i (idealPicks t hostSet (zeros hostSet))) in *.
    pose proof (weightsOf_nonneg hostSet i w Hw) as Hw0.
    assert (Hshare : Z.of_nat t * w + w <= totalWeight hostSet * w) by nia.
    assert (Hless : totalWeight hostSet * ts < totalWeight hostSet * w) by lia.
    assert (ts < w) by nia. lia.
Qed.

Lemma all_zero_zeros (hostSet : list Host) (l : list Z) :
  length l = length hostSet -> Forall (fun x => x = 0) l -> l = zeros hostSet.
Proof.
  intros Hlen Hall. apply list_eq. intros i. unfold zeros.
  rewrite list_lookup_fmap.
  destruct (l !! i) as [x|] eqn:El.
  - rewrite Forall_lookup in Hall. rewrite (Hall i x El).
    destruct (hostSet !! i) eqn:Eh; [reflexivity|].
    apply lookup_ge_None in Eh. apply lookup_lt_Some in El. lia.
  - destruct (hostSet !! i) eqn:Eh; [|reflexivity].
    apply lookup_ge_None in El. apply lookup_lt_Some in Eh. lia.
Qed.

(** After [W] picks every current weight is back at zero. *)
Lemma idealAfter_period (hostSet : list Host) :
  hostSet <> [] -> 0 < totalWeight hostSet ->
  idealAfter (Z.to_nat (totalWeight hostSet)) hostSet (zeros hostSet)
  = zeros hostSet.
Proof.
  intros Hne HW.
  set (Wn := Z.to_nat (totalWeight hostSet)).
  set (X := idealAfter Wn hostSet (zeros hostSet)).
  assert (HlenX : length X = length hostSet)
    by (apply length_idealAfter, length_zeros).
  apply all_zero_zeros; [assumption|].
  apply sumZ_nonneg_zero.
  - apply Forall_lookup. intros i x Hx.
    assert (Hi : (i < length hostSet)%nat)
      by (rewrite <- HlenX; eapply lookup_lt_Some; eauto).
    destruct (lookup_lt_is_Some_2 (weightsOf hostSet) i) as [w Hw];
      [rewrite length_weightsOf; lia|].
    pose proof (idealAfter_lookup hostSet Hne Wn (zeros hostSet) i 0 w
                  (length_zeros hostSet) (lookup_zeros hostSet i w Hw) Hw) as HX.
    fold X in HX. rewrite Hx in HX. injection HX as ->.
    pose proof (picks_le_weight hostSet Hne HW Wn i w ltac:(unfold Wn; lia) Hw)
      as Hshare.
    pose proof (weightsOf_nonneg hostSet i w Hw) as Hw0.
    set (ts := timesSelected i (idealPicks Wn hostSet (zeros hostSet))) in *.
    replace (Z.of_nat Wn) with (totalWeight hostSet) by (unfold Wn; lia).
    nia.
  - unfold X. rewrite sumZ_idealAfter;
      [apply sumZ_zeros | assumption | apply length_zeros].
Qed.

(** So host [i] is selected exactly [w_i] times in the first [W] picks. *)
Lemma picks_period_count (hostSet : list Host) (i : nat) (w : Z) :
  hostSet <> [] -> 0 < totalWeight hostSet ->
  weightsOf hostSet !! i = Some w ->
  timesSelected i (idealPicks (Z.to_nat (totalWeight hostSet)) hostSet
                              (zeros hostSet)) = w.
Proof.
  intros Hne HW Hw.
  pose proof (idealAfter_lookup hostSet Hne (Z.to_nat (totalWeight hostSet))
                (zeros hostSet) i 0 w
                (length_zeros hostSet) (lookup_zeros hostSet i w Hw) Hw) as HX.
  rewrite (idealAfter_period hostSet Hne HW) in HX.
  rewrite (lookup_zeros hostSet i w Hw) in HX. injection HX as HX.
  rewrite Z2Nat.id in HX by lia. nia.
Qed.

(** *** Windows of picks *)

Lemma idealAfter_shift (hostSet : list Host) (s : nat) :
  hostSet <> [] -> 0 < totalWeight hostSet ->
  idealAfter (Z.to_nat (totalWeight hostSet) + s) hostSet (zeros hostSet)
  = idealAfter s hostSet (zeros hostSet).
Proof.
  intros Hne HW. rewrite idealAfter_add. now rewrite idealAfter_period.
Qed.

(** Any [W] picks in a row select host [i] exactly [w_i] times. *)
Lemma window_full (hostSet : list Host) (s i : nat) (w : Z) :
  hostSet <> [] -> 0 < totalWeight hostSet ->
  weightsOf hostSet !! i = Some w ->
  timesSelected i (idealPicks (Z.to_nat (totalWeight hostSet)) hostSet
                              (idealAfter s hostSet (zeros hostSet))) = w.
Proof.
  intros Hne HW Hw.
  set (Wn := Z.to_nat (totalWeight hostSet)).
  pose proof (idealPicks_add hostSet s Wn (zeros hostSet)) as H1.
  pose proof (idealPicks_add hostSet Wn s (zeros hostSet)) as H2.
  unfold Wn in H2 at 3. rewrite (idealAfter_period hostSet Hne HW) in H2.
  replace (s + Wn)%nat with (Wn + s)%nat in H1 by lia.
  rewrite H2 in H1.
  apply (f_equal (timesSelected i)) in H1.
  rewrite !timesSelected_app in H1.
  pose proof (picks_period_count hostSet i w Hne HW Hw) as Hp. fold Wn in Hp.
  lia.
Qed.

(** The drift over a window of [N] picks that starts after [s] picks. *)
Lemma window_drift (hostSet : list Host) (i : nat) (w : Z) :
  hostSet <> [] -> 0 < totalWeight hostSet ->
  weightsOf hostSet !! i = Some w ->
  forall (N s : nat),
    Z.abs (totalWeight hostSet
           * timesSelected i (idealPicks N hostSet
                                (idealAfter s hostSet (zeros hostSet)))
           - Z.of_nat N * w)
    <= totalWeight hostSet * w.
Proof.
  intros Hne HW Hw.
  pose proof (weightsOf_nonneg hostSet i w Hw) as Hw0.
  set (Wn := Z.to_nat (totalWeight hostSet)).
  assert (HWn : Z.of_nat Wn = totalWeight hostSet) by (unfold Wn; lia).
  induction N as [N IH] using (well_founded_induction lt_wf). intros s.
  destruct (le_lt_dec Wn N) as [Hge|Hlt].
  - (* a whole period, then the rest *)
    replace N with (Wn + (N - Wn))%nat at 1 by lia.
    rewrite idealPicks_add, timesSelected_app.
    unfold Wn at 1. rewrite (window_full hostSet s i w Hne HW Hw). fold Wn.
    rewrite <- idealAfter_add.
    specialize (IH (N - Wn)%nat ltac:(lia) (s + Wn)%nat).
    set (ts := timesSelected i _) in *.
    replace (Z.of_nat N) with (totalWeight hostSet + Z.of_nat (N - Wn)) by lia.
    replace (totalWeight hostSet * (w + ts)
             - (totalWeight hostSet + Z.of_nat (N - Wn)) * w)
      with (totalWeight hostSet * ts - Z.of_nat (N - Wn) * w) by ring.
    exact IH.
  - (* less than a period: part of a full window *)
    pose proof (window_full hostSet s i w Hne HW Hw) as Hfull. fold Wn in Hfull.
    replace Wn with (N + (Wn - N))%nat in Hfull by lia.
    rewrite idealPicks_add, timesSelected_app in Hfull.
    pose proof (timesSelected_nonneg i
                  (idealPicks N hostSet (idealAfter s hostSet (zeros hostSet)))).
    pose proof (timesSelected_nonneg i
                  (idealPicks (Wn - N) hostSet
                     (idealAfter N hostSet (idealAfter s hostSet (zeros hostSet))))).
    set (ts := timesSelected i (idealPicks N hostSet _)) in *.
    apply Z.abs_le. split; nia.
Qed.

(** Hence the current weights stay within [W * w_i] of zero. *)
Lemma idealAfter_bound (hostSet : list Host) (t i : nat) (c w : Z) :
  idealAfter t hostSet (zeros hostSet) !! i = Some c ->
  weightsOf hostSet !! i = Some w ->
  - (totalWeight hostSet * w) <= c <= totalWeight hostSet * w.
Proof.
  intros Hc Hw.
  assert (Hne : hostSet <> []).
  { intros ->. discriminate Hw. }
  pose proof (weightsOf_nonneg hostSet i w Hw) as Hw0.
  pose proof (idealAfter_lookup hostSet Hne t (zeros hostSet) i 0 w
                (length_zeros hostSet) (lookup_zeros hostSet i w Hw) Hw) as HX.
  rewrite Hc in HX. injection HX as ->.
  pose proof (totalWeight_nonneg hostSet) as HW0.
  destruct (Z.eq_dec (totalWeight hostSet) 0) as [HW|HW].
  - pose proof (sumZ_lookup_le _ (weightsOf_Forall_nonneg hostSet) i w Hw) as Hle.
    fold (totalWeight hostSet) in Hle.
    assert (w = 0) by lia. subst w. rewrite HW. lia.
  - pose proof (window_drift hostSet i w Hne ltac:(lia) Hw t O) as Hd.
    cbn [idealAfter] in Hd. apply Z.abs_le in Hd. lia.
Qed.

Lemma maxWeight_le_total (hostSet : list Host) :
  maxWeight hostSet <= totalWeight hostSet.
Proof.
  unfold maxWeight, totalWeight.
  pose proof (weightsOf_Forall_nonneg hostSet) as H.
  induction H as [|a l Ha Hl IH]; cbn; [lia|].
  assert (0 <= fold_right Z.max 0 l) by (clear; induction l; cbn; lia).
  lia.
Qed.

(** *** The code follows the algorithm on unbounded integers *)

Lemma int64_fits (z : Z) : fits z -> int64 z = z.
Proof.
  unfold fits, int64. intros H.
  change (2 ^ 63) with 9223372036854775808 in *.
  change (2 ^ 64) with 18446744073709551616.
  rewrite Z.mod_small; lia.
Qed.

Lemma ChooseHost_loop_refines (hs : list Host) :
  Forall (fun h => Health h = true) hs ->
  forall (cs : list Z) (idx : nat) (total : Z)
         (selected : option (nat * Host * Z)),
    length cs = length hs ->
    (forall i c w, cs !! i = Some c -> weightsOf hs !! i = Some w ->
                   fits (c + w)) ->
    0 <= total -> total + sumZ (weightsOf hs) < 2 ^ 63 ->
    ChooseHost_loop hs (zip_with mk (weightsOf hs) cs) idx total selected
    = (zip_with mk (weightsOf hs) (raise (weightsOf hs) cs),
       total + sumZ (weightsOf hs),
       argmax_from hs (raise (weightsOf hs) cs) idx selected).
Proof.
  induction 1 as [|h hs Hh Hall IH]; intros cs idx total selected Hlen Hfit Ht Hsum.
  - cbn. destruct cs; cbn; repeat f_equal; lia.
  - destruct cs as [|c cs]; [discriminate|].
    cbn [weightsOf map zip_with raise sumZ ChooseHost_loop argmax_from] in *.
    fold (weightsOf hs) in *. fold (raise (weightsOf hs) cs).
    rewrite Hh. cbn [negb].
    assert (Hw0 : 0 <= Z.of_N (Weight h)) by lia.
    pose proof (weightsOf_Forall_nonneg hs) as Hnn.
    assert (Hs0 : 0 <= sumZ (weightsOf hs))
      by (clear -Hnn; induction Hnn; cbn; lia).
    cbn [mk weight currentWeight effectiveWeight].
    rewrite Z.ltb_irrefl.
    rewrite (int64_fits (c + Z.of_N (Weight h)))
      by (apply (Hfit O c (Z.of_N (Weight h))); reflexivity).
    rewrite (int64_fits (total + Z.of_N (Weight h)))
      by (unfold fits; change (2 ^ 63) with 9223372036854775808 in *; lia).
    rewrite (IH cs (S idx) (total + Z.of_N (Weight h))).
    + replace (total + (Z.of_N (Weight h) + sumZ (weightsOf hs)))
        with (total + Z.of_N (Weight h) + sumZ (weightsOf hs)) by lia.
      reflexivity.
    + cbn in Hlen. lia.
    + intros i c' w' Hc' Hw'. apply (Hfit (S i) c' w'); assumption.
    + lia.
    + lia.
Qed.

Lemma alter_subtractTotal (T : Z) (ws : list Z) :
  forall (l : list Z) (k : nat) (m : Z),
    l !! k = Some m -> fits (m - T) ->
    alter (subtractTotal T) k (zip_with mk ws l)
    = zip_with mk ws (<[k := m - T]> l).
Proof.
  induction ws as [|w ws IH]; intros l k m Hk Hfit; [reflexivity|].
  destruct l as [|c l]; [discriminate|].
  destruct k as [|k].
  - cbn in Hk. injection Hk as ->. cbn. unfold subtractTotal, mk. cbn.
    now rewrite int64_fits.
  - change (l !! k = Some m) in Hk.
    change (alter (subtractTotal T) (S k) (zip_with mk (w :: ws) (c :: l)))
      with (mk w c :: alter (subtractTotal T) k (zip_with mk ws l)).
    rewrite (IH l k m Hk Hfit). reflexivity.
Qed.

(** One call of [ChooseHost], as long as the sums fit an [int64]. *)
Lemma ChooseHost_refines (hostSet : list Host) (cs : list Z) :
  Forall (fun h => Health h = true) hostSet ->
  length cs = length hostSet ->
  (forall i c w, cs !! i = Some c -> weightsOf hostSet !! i = Some w ->
                 fits (c + w) /\ fits (c + w - totalWeight hostSet)) ->
  totalWeight hostSet < 2 ^ 63 ->
  ChooseHost (balancerAt hostSet cs)
  = (fst (idealStep hostSet cs),
     balancerAt hostSet (snd (idealStep hostSet cs))).
Proof.
  intros Hall Hlen Hfit HW.
  unfold ChooseHost, balancerAt. cbn [hosts hostsWeighted].
  rewrite (ChooseHost_loop_refines hostSet Hall cs O 0 None Hlen);
    [| intros i c w Hc Hw; apply (Hfit i c w Hc Hw) | lia
     | unfold totalWeight in HW; lia].
  unfold idealStep. cbv zeta.
  assert (Hl : length hostSet = length (raise (weightsOf hostSet) cs))
    by (rewrite length_raise; rewrite length_weightsOf; lia).
  destruct (argmax_from hostSet (raise (weightsOf hostSet) cs) 0 None)
    as [[[k h] m]|] eqn:Harg; cbn [fst snd]; [|reflexivity].
  destruct hostSet as [|h0 hostSet']; [discriminate Harg|].
  destruct (argmax_from_spec (h0 :: hostSet')
              (raise (weightsOf (h0 :: hostSet')) cs) 0 None Hl)
    as (k' & h' & m' & Hrun & _ & _ & Hwhere).
  { right. intros E. rewrite E in Hl. discriminate Hl. }
  rewrite Harg in Hrun. injection Hrun as <- <- <-.
  destruct Hwhere as [Hbad|(_ & _ & Hm)]; [discriminate|].
  rewrite Nat.sub_0_r in Hm.
  apply lookup_zip_with_Some in Hm as Hparts.
  destruct Hparts as (c & w & -> & Hc & Hw).
  rewrite Z.add_0_l. fold (totalWeight (h0 :: hostSet')).
  rewrite (alter_subtractTotal _ _ _ k (c + w) Hm);
    [reflexivity | apply (Hfit k c w Hc Hw)].
Qed.

Lemma new_balancerAt (hostSet : list Host) :
  totalWeight hostSet < 2 ^ 63 ->
  newSmoothWeightedRRLoadBalancer hostSet = balancerAt hostSet (zeros hostSet).
Proof.
  intros HW. unfold newSmoothWeightedRRLoadBalancer, balancerAt. f_equal.
  pose proof (weightsOf_Forall_nonneg hostSet) as Hnn.
  unfold totalWeight in HW. unfold zeros.
  induction hostSet as [|h hs IH]; [reflexivity|].
  cbn [map weightsOf zip_with sumZ] in *. fold (weightsOf hs) in *.
  inversion Hnn as [|? ? Hh Hrest]; subst.
  assert (0 <= sumZ (weightsOf hs)) by (clear -Hrest; induction Hrest; cbn; lia).
  rewrite IH by (assumption || lia).
  rewrite int64_fits
    by (unfold fits; change (2 ^ 63) with 9223372036854775808 in *; lia).
  reflexivity.
Qed.

(** The states met from the start fit. *)
Lemma idealAfter_fits (hostSet : list Host) (t i : nat) (c w : Z) :
  totalWeight hostSet * (maxWeight hostSet + 1) < 2 ^ 63 ->
  idealAfter t hostSet (zeros hostSet) !! i = Some c ->
  weightsOf hostSet !! i = Some w ->
  fits (c + w) /\ fits (c + w - totalWeight hostSet).
Proof.
  intros Hsmall Hc Hw.
  pose proof (idealAfter_bound hostSet t i c w Hc Hw) as Hb.
  pose proof (weightsOf_nonneg hostSet i w Hw) as Hw0.
  pose proof (maxWeight_ge hostSet i w Hw) as HwM.
  pose proof (maxWeight_le_total hostSet) as HMW.
  pose proof (totalWeight_nonneg hostSet) as HW0.
  unfold fits. change (2 ^ 63) with 9223372036854775808 in *.
  assert (totalWeight hostSet * w <= totalWeight hostSet * maxWeight hostSet)
    by nia.
  split; lia.
Qed.

Lemma totalWeight_small (hostSet : list Host) :
  totalWeight hostSet * (maxWeight hostSet + 1) < 2 ^ 63 ->
  totalWeight hostSet < 2 ^ 63.
Proof.
  intros H. pose proof (maxWeight_nonneg hostSet).
  pose proof (totalWeight_nonneg hostSet). nia.
Qed.

(** Any number of calls, from any state met from the start. *)
Lemma picks_refines (hostSet : list Host) :
  Forall (fun h => Health h = true) hostSet ->
  totalWeight hostSet * (maxWeight hostSet + 1) < 2 ^ 63 ->
  forall (N s : nat),
    picks N (balancerAt hostSet (idealAfter s hostSet (zeros hostSet)))
    = (idealPicks N hostSet (idealAfter s hostSet (zeros hostSet)),
       balancerAt hostSet (idealAfter (s + N) hostSet (zeros hostSet))).
Proof.
  intros Hall Hsmall. induction N as [|N IH]; intros s.
  - cbn [picks idealPicks]. now rewrite Nat.add_0_r.
  - cbn [picks idealPicks].
    rewrite ChooseHost_refines;
      [| assumption
       | apply length_idealAfter, length_zeros
       | intros i c w Hc Hw; now apply (idealAfter_fits hostSet s i c w)
       | now apply totalWeight_small].
    replace (snd (idealStep hostSet (idealAfter s hostSet (zeros hostSet))))
      with (idealAfter (s + 1) hostSet (zeros hostSet))
      by (rewrite idealAfter_add; reflexivity).
    rewrite (IH (s + 1)%nat).
    replace (s + 1 + N)%nat with (s + S N)%nat by lia.
    reflexivity.
Qed.

Lemma picks_from_new (hostSet : list Host) (s : nat) :
  Forall (fun h => Health h = true) hostSet ->
  totalWeight hostSet * (maxWeight hostSet + 1) < 2 ^ 63 ->
  snd (picks s (newSmoothWeightedRRLoadBalancer hostSet))
  = balancerAt hostSet (idealAfter s hostSet (zeros hostSet)).
Proof.
  intros Hall Hsmall.
  rewrite new_balancerAt by now apply totalWeight_small.
  pose proof (picks_refines hostSet Hall Hsmall s O) as H.
  cbn [idealAfter Nat.add] in H. now rewrite H.
Qed.

(** * C8.  On a fully healthy host set whose weights are small enough for
    the sums to fit an [int64], and at any point of a run that started
    with a fresh balancer: a pick adds to every host's current weight its
    effective weight (which is its weight), selects a host whose raised
    current weight is the greatest, and takes the total weight off the
    current weight of that host; and over any [N] picks in a row the number
    of times host [i] is selected, taken times the total weight [W],
    differs from [N * w_i] by [W * max w] at most, that is the count differs
    from [N * w_i / W] by [max w] at most. *)
Theorem smoothWRR_drift (hostSet : list Host) (s N i : nat) (h : Host) :
  Forall (fun h => Health h = true) hostSet ->
  totalWeight hostSet * (maxWeight hostSet + 1) < 2 ^ 63 ->
  hostSet !! i = Some h ->
  (exists k hk,
      fst (ChooseHost (snd (picks s (newSmoothWeightedRRLoadBalancer hostSet))))
      = Some (k, hk) /\
      hostSet !! k = Some hk /\
      (forall j hw,
          hostsWeighted (snd (picks s (newSmoothWeightedRRLoadBalancer hostSet)))
            !! j = Some hw ->
          effectiveWeight hw = weight hw /\
          exists hw',
            hostsWeighted
              (snd (ChooseHost
                      (snd (picks s (newSmoothWeightedRRLoadBalancer hostSet)))))
              !! j = Some hw' /\
            currentWeight hw'
            = currentWeight hw + effectiveWeight hw
              - (if Nat.eqb k j then totalWeight hostSet else 0)) /\
      (forall j hwj hwk,
          hostsWeighted (snd (picks s (newSmoothWeightedRRLoadBalancer hostSet)))
            !! j = Some hwj ->
          hostsWeighted (snd (picks s (newSmoothWeightedRRLoadBalancer hostSet)))
            !! k = Some hwk ->
          currentWeight hwj + effectiveWeight hwj
          <= currentWeight hwk + effectiveWeight hwk)) /\
  Z.abs (totalWeight hostSet
         * timesSelected i
             (fst (picks N (snd (picks s (newSmoothWeightedRRLoadBalancer hostSet)))))
         - Z.of_nat N * Z.of_N (Weight h))
  <= totalWeight hostSet * maxWeight hostSet.
Proof.
  intros Hall Hsmall Hi.
  assert (Hne : hostSet <> []) by (intros ->; discriminate Hi).
  rewrite (picks_from_new hostSet s Hall Hsmall).
  set (X := idealAfter s hostSet (zeros hostSet)).
  assert (HlenX : length X = length hostSet)
    by (apply length_idealAfter, length_zeros).
  split.
  - rewrite ChooseHost_refines;
      [| assumption | assumption
       | intros j c w Hc Hw; now apply (idealAfter_fits hostSet s j c w)
       | now apply totalWeight_small].
    cbn [fst snd].
    destruct (idealStep_pointwise hostSet X Hne HlenX)
      as (k & hk & Hpick & Hk & Hpoint & Hmax & _).
    exists k, hk. split; [exact Hpick|]. split; [exact Hk|].
    unfold balancerAt. cbn [hostsWeighted]. split.
    + intros j hw Hj.
      apply lookup_zip_with_Some in Hj as (w & c & -> & Hw & Hc).
      split; [reflexivity|].
      exists (mk w (c + w - (if Nat.eqb k j then totalWeight hostSet else 0))).
      split; [|reflexivity].
      apply lookup_zip_with_Some.
      exists w, (c + w - (if Nat.eqb k j then totalWeight hostSet else 0)).
      split; [reflexivity|].
      split; [assumption | now apply Hpoint].
    + intros j hwj hwk Hj Hkk.
      apply lookup_zip_with_Some in Hj as (w & c & -> & Hw & Hc).
      apply lookup_zip_with_Some in Hkk as (wk & ck & -> & Hwk & Hck).
      cbn [mk currentWeight effectiveWeight].
      apply (Hmax ck wk j c w); assumption.
  - subst X. rewrite (picks_refines hostSet Hall Hsmall N s). cbn [fst].
    pose proof (lookup_weightsOf hostSet i h Hi) as Hw.
    pose proof (maxWeight_ge hostSet i _ Hw) as HwM.
    pose proof (weightsOf_nonneg hostSet i _ Hw) as Hw0.
    pose proof (totalWeight_nonneg hostSet) as HW0.
    destruct (Z.eq_dec (totalWeight hostSet) 0) as [HW|HW].
    + pose proof (sumZ_lookup_le _ (weightsOf_Forall_nonneg hostSet) i _ Hw) as Hle.
      fold (totalWeight hostSet) in Hle.
      assert (Hz : Z.of_N (Weight h) = 0) by lia.
      rewrite Hz, HW. cbn. lia.
    + pose proof (window_drift hostSet i _ Hne ltac:(lia) Hw N s) as Hd.
      assert (totalWeight hostSet * Z.of_N (Weight h)
              <= totalWeight hostSet * maxWeight hostSet) by nia.
      lia.
Qed.

Example smoothWRR_abc :
  fst (picks 7 (newSmoothWeightedRRLoadBalancer abc))
  = [Some 0; Some 0; Some 1; Some 0; Some 2; Some 0; Some 0]%nat.
Proof. reflexivity. Qed.

Lemma smoothWRR_drift_witness :
  (exists k hk,
      fst (ChooseHost (snd (picks 2 (newSmoothWeightedRRLoadBalancer abc))))
      = Some (k, hk) /\
      abc !! k = Some hk /\
      (forall j hw,
          hostsWeighted (snd (picks 2 (newSmoothWeightedRRLoadBalancer abc)))
            !! j = Some hw ->
          effectiveWeight hw = weight hw /\
          exists hw',
            hostsWeighted
              (snd (ChooseHost
                      (snd (picks 2 (newSmoothWeightedRRLoadBalancer abc)))))
              !! j = Some hw' /\
            currentWeight hw'
            = currentWeight hw + effectiveWeight hw
              - (if Nat.eqb k j then totalWeight abc else 0)) /\
      (forall j hwj hwk,
          hostsWeighted (snd (picks 2 (newSmoothWeightedRRLoadBalancer abc)))
            !! j = Some hwj ->
          hostsWeighted (snd (picks 2 (newSmoothWeightedRRLoadBalancer abc)))
            !! k = Some hwk ->
          currentWeight hwj + effectiveWeight hwj
          <= currentWeight hwk + effectiveWeight hwk)) /\
  Z.abs (totalWeight abc
         * timesSelected 0
             (fst (picks 4 (snd (picks 2 (newSmoothWeightedRRLoadBalancer abc)))))
         - Z.of_nat 4 * Z.of_N (Weight (weighted "a" 5)))
  <= totalWeight abc * maxWeight abc.
Proof.
  apply (smoothWRR_drift abc 2 4 0 (weighted "a" 5)).
  - repeat constructor.
  - reflexivity.
  - reflexivity.
Defined.

End SmoothWRRFacts.

(** ** The dubbo codec: frame attributes and the heartbeat reply *)

Module DubboAttrFacts.
Import GoInt Strconv Dubbo DubboAttr.
Import GoIntFacts StrconvFacts DubboFacts DubboStreamIDFacts.

Lemma wholeFrame_valid (f : list byte) :
  wholeFrame f ->
  16 <= Z.of_nat (length f) /\
  isValidDubboData f = (true, Z.of_nat (length f) - 16).
Proof.
  unfold wholeFrame. intros Hw.
  destruct (getDubboLen_cases f) as [Hneg | [Hlen Hv]]; [lia|].
  unfold DUBBO_HEADER_LEN in Hlen, Hv. rewrite Hw in Hlen, Hv.
  split; [exact Hlen | exact Hv].
Qed.

(** A whole frame is read as such whatever follows it, as long as the
    length of the buffer fits a [uint32]. *)
Lemma getDubboLen_app (f r : list byte) :
  wholeFrame f ->
  Z.of_nat (length (f ++ r)) < 2 ^ 32 ->
  getDubboLen (f ++ r) = Z.of_nat (length f).
Proof.
  intros Hw Hsmall. destruct (wholeFrame_valid f Hw) as [Hlen Hv].
  apply isValidDubboData_true in Hv as (_ & Hmagic & Hbody & _).
  assert (Hvf : isValidDubboData (f ++ r) = (true, Z.of_nat (length f) - 16)).
  { apply isValidDubboData_true. rewrite length_app in *. repeat split.
    - unfold DUBBO_HEADER_LEN. lia.
    - rewrite <- Hmagic. unfold slice. rewrite !drop_0. apply take_app_le. lia.
    - rewrite Hbody. unfold slice. rewrite drop_app_le by lia.
      rewrite take_app_le; [reflexivity|]. rewrite length_drop. lia.
    - unfold DUBBO_HEADER_LEN. change (uint32 16) with 16.
      replace (16 + (Z.of_nat (length f) - 16))
        with (Z.of_nat (length f)) by lia.
      unfold uint32. rewrite !Z.mod_small by lia. lia. }
  unfold getDubboLen. rewrite Hvf. cbn [negb]. unfold DUBBO_HEADER_LEN. lia.
Qed.

Lemma wholeFrames_count (frames : list (list byte)) :
  Forall wholeFrame frames ->
  (length frames <= length (concat frames))%nat.
Proof.
  induction 1 as [|f fs Hf _ IH]; cbn [concat length]; [lia|].
  apply wholeFrame_valid in Hf as [Hlen _]. rewrite length_app. lia.
Qed.

Lemma SplitFrame_loop_frames (frames : list (list byte)) :
  forall (fuel : nat) (done : list (list byte)),
    Forall wholeFrame frames ->
    Z.of_nat (length (concat done ++ concat frames)) < 2 ^ 32 ->
    (length frames < fuel)%nat ->
    SplitFrame_loop fuel (concat done ++ concat frames)
      (Z.of_nat (length (concat done)))
      (Z.of_nat (length (concat frames))) done
    = Some (done ++ frames).
Proof.
  induction frames as [|f fs IH]; intros fuel done Hall Hsmall Hfuel.
  - destruct fuel as [|fuel]; [cbn in Hfuel; lia|].
    cbn [SplitFrame_loop concat]. rewrite !app_nil_r, Nat2Z.id.
    rewrite drop_all. reflexivity.
  - destruct fuel as [|fuel]; [cbn in Hfuel; lia|].
    apply Forall_cons in Hall as [Hf Hfs].
    pose proof (wholeFrame_valid f Hf) as [Hlen _].
    cbn [SplitFrame_loop concat]. rewrite Nat2Z.id, drop_app_length.
    cbn [concat] in Hsmall. rewrite !length_app in Hsmall.
    rewrite getDubboLen_app by (rewrite ?length_app; (assumption || lia)).
    rewrite length_app.
    replace (0 <? Z.of_nat (length f)) with true by (symmetry; apply Z.ltb_lt; lia).
    replace (Z.of_nat (length f) <=? Z.of_nat (length f + length (concat fs)))
      with true by (symmetry; apply Z.leb_le; lia).
    cbn [andb].
    assert (Hslice :
      slice (concat done ++ f ++ concat fs)
            (length (concat done))
            (Z.to_nat (Z.of_nat (length (concat done)) + Z.of_nat (length f)))
      = f).
    { unfold slice. rewrite drop_app_length.
      replace (Z.to_nat (Z.of_nat (length (concat done)) + Z.of_nat (length f))
               - length (concat done))%nat with (length f) by lia.
      apply take_app_length. }
    rewrite Hslice.
    replace (Z.of_nat (length f + length (concat fs)) - Z.of_nat (length f))
      with (Z.of_nat (length (concat fs))) by lia.
    destruct (Z.eqb_spec (Z.of_nat (length (concat fs))) 0) as [Hz|Hnz].
    + pose proof (wholeFrames_count fs Hfs) as Hc.
      destruct fs as [|g gs]; [reflexivity|].
      cbn [length] in Hc. lia.
    + specialize (IH fuel (done ++ [f]) Hfs).
      rewrite concat_app in IH. cbn [concat] in IH.
      rewrite app_nil_r, <- !app_assoc, !length_app in IH.
      replace (Z.of_nat (length (concat done)) + Z.of_nat (length f))
        with (Z.of_nat (length (concat done) + length f)) by lia.
      rewrite IH; [reflexivity | lia | cbn [length] in Hfuel; lia].
Qed.

(** * X1.  SplitFrame cuts a buffer made of whole frames back into those
    frames.  The buffer is shorter than 2^32 bytes, the range in which
    [isValidDubboData] compares lengths. *)
Theorem SplitFrame_concat (frames : list (list byte)) :
  Forall wholeFrame frames ->
  Z.of_nat (length (concat frames)) < 2 ^ 32 ->
  SplitFrame (concat frames) = frames.
Proof.
  intros Hall Hsmall. unfold SplitFrame.
  pose proof (SplitFrame_loop_frames frames (S (length (concat frames))) []
                Hall Hsmall) as H.
  cbn [concat app length] in H. change (Z.of_nat 0) with 0 in H.
  rewrite H; [reflexivity|].
  pose proof (wholeFrames_count frames Hall). lia.
Qed.

Lemma SplitFrame_concat_witness :
  SplitFrame (concat [sample_frame; strEchoBytes]) = [sample_frame; strEchoBytes].
Proof.
  apply (SplitFrame_concat [sample_frame; strEchoBytes]).
  - repeat constructor.
  - reflexivity.
Defined.

Lemma SetStreamID_parsed (d : list byte) (s : string) (n : Z) :
  fst (isValidDubboData d) = true ->
  ParseInt s = Some n ->
  exists d',
    SetStreamID d s = Some d' /\
    slice d' 4 12 = BigEndian_PutUint64 (uint64 n) /\
    isValidDubboData d' = isValidDubboData d /\
    length d' = length d /\
    (forall i, (i < 4 \/ 12 <= i)%nat -> d' !! i = d !! i).
Proof.
  intros Hvalid Hparse.
  destruct (isValidDubboData d) as [rslt bodyLen] eqn:Hv.
  cbn [fst] in Hvalid. subst rslt.
  apply isValidDubboData_true in Hv as Hv'.
  destruct Hv' as (Hlen & _). unfold DUBBO_HEADER_LEN in Hlen.
  destruct (sixteen_bytes d) as
    (a0 & a1 & a2 & a3 & a4 & a5 & a6 & a7 & a8 & a9 & a10 & a11 & tl12 & Hd');
    [lia|].
  destruct Hd' as (a13 & a14 & a15 & tl & ->).
  unfold SetStreamID. rewrite Hv, Hparse. cbn [negb].
  unfold BigEndian_PutUint64. rewrite SetStreamID_loop_writes.
  eexists. split; [reflexivity|].
  split; [reflexivity|].
  split.
  { rewrite (isValidDubboData_id_bytes a0 a1 a2 a3 a4 a5 a6 a7 a8 a9 a10 a11).
    exact Hv. }
  split; [reflexivity|].
  intros i [Hi|Hi].
  - do 4 (destruct i as [|i]; [reflexivity|]). lia.
  - replace i with (12 + (i - 12))%nat by lia. reflexivity.
Qed.

Lemma GetStreamID_valid (d : list byte) :
  fst (isValidDubboData d) = true ->
  GetStreamID d = FormatUint (BigEndian_decode (slice d 4 12)).
Proof.
  intros Hv. unfold GetStreamID.
  destruct (isValidDubboData d) as [rslt bodyLen]. cbn [fst] in Hv.
  subst rslt. reflexivity.
Qed.

Lemma uint64_range (n : Z) : 0 <= uint64 n < 2 ^ 64.
Proof. unfold uint64. apply Z.mod_pos_bound. reflexivity. Qed.

Lemma SetStreamID_unparsed (d : list byte) (s : string) :
  fst (isValidDubboData d) = false \/ ParseInt s = None ->
  SetStreamID d s = Some d.
Proof.
  unfold SetStreamID. destruct (isValidDubboData d) as [[|] bodyLen];
    cbn [fst negb]; [|reflexivity].
  intros [H|H]; [discriminate | now rewrite H].
Qed.

Lemma SplitFrame_single (f : list byte) :
  wholeFrame f -> Z.of_nat (length f) < 2 ^ 32 -> SplitFrame f = [f].
Proof.
  intros Hw Hsmall. unfold SplitFrame.
  pose proof (SplitFrame_loop_frames [f] (S (length f)) []) as H.
  cbn [concat app length] in H. rewrite app_nil_r in H.
  change (Z.of_nat 0) with 0 in H.
  rewrite H; [reflexivity | now constructor | exact Hsmall |].
  apply wholeFrame_valid in Hw as [Hlen _]. lia.
Qed.

(** * X2.  SetStreamID always returns, and what it returns is the frame it was
    given but for bytes 4 to 11: the length, the validity and payload
    length read by [isValidDubboData] and every other byte are the same.
    Data that is no valid frame and an ID that [strconv.ParseInt] rejects
    leave the data as it is. *)
Theorem SetStreamID_keeps_frame (d : list byte) (s : string) :
  exists d',
    SetStreamID d s = Some d' /\
    length d' = length d /\
    isValidDubboData d' = isValidDubboData d /\
    (forall i, (i < 4 \/ 12 <= i)%nat -> d' !! i = d !! i) /\
    (fst (isValidDubboData d) = false \/ ParseInt s = None -> d' = d).
Proof.
  destruct (fst (isValidDubboData d)) eqn:Hv.
  - destruct (ParseInt s) as [n|] eqn:Hp.
    + destruct (SetStreamID_parsed d s n Hv Hp)
        as (d' & Hset & _ & Hvalid & Hlen & Hout).
      exists d'. repeat split; try assumption.
      intros [H|H]; discriminate.
    + exists d. rewrite SetStreamID_unparsed by now right.
      repeat split; reflexivity.
  - exists d. rewrite SetStreamID_unparsed by now left.
    repeat split; reflexivity.
Qed.

(** * X3.  A negative stream ID is written in two's complement and read back
    unsigned: for an ID string that parses to [n < 0] the ID read from the
    frame is the decimal form of [2^64 + n], which [strconv.ParseInt]
    rejects, so that the ID read back cannot be set again. *)
Theorem SetStreamID_negative (d : list byte) (s : string) (n : Z) :
  fst (isValidDubboData d) = true ->
  ParseInt s = Some n ->
  n < 0 ->
  exists d',
    SetStreamID d s = Some d' /\
    GetStreamID d' = FormatUint (2 ^ 64 + n) /\
    ParseInt (GetStreamID d') = None.
Proof.
  intros Hvalid Hparse Hneg.
  pose proof (ParseInt_range s n Hparse) as Hrange.
  change (2 ^ 63) with 9223372036854775808 in Hrange.
  destruct (SetStreamID_parsed d s n Hvalid Hparse)
    as (d' & Hset & Hid & Hv' & _).
  assert (Hu : uint64 n = 2 ^ 64 + n).
  { unfold uint64. change (2 ^ 64) with 18446744073709551616.
    symmetry. apply (Z.mod_unique_pos n _ (-1)); lia. }
  assert (Hget : GetStreamID d' = FormatUint (2 ^ 64 + n)).
  { rewrite GetStreamID_valid by (rewrite Hv'; exact Hvalid).
    rewrite Hid, BigEndian_Uint64_PutUint64 by apply uint64_range.
    now rewrite Hu. }
  exists d'. split; [exact Hset|]. split; [exact Hget|].
  rewrite Hget. set (m := 2 ^ 64 + n).
  assert (Hm : 2 ^ 63 <= m < 2 ^ 64).
  { subst m. change (2 ^ 63) with 9223372036854775808.
    change (2 ^ 64) with 18446744073709551616. lia. }
  assert (Hm0 : 0 <= m < 2 ^ 64)
    by (change (2 ^ 63) with 9223372036854775808 in Hm; lia).
  pose proof (parseDigits_FormatUint m Hm0) as Hp.
  unfold FormatUint in *.
  destruct (formatBits_head 19 m EmptyString) as (dg & s' & Hd & Hs); [lia|].
  rewrite Hs in *. unfold ParseInt.
  destruct (digit_char_not_sign dg Hd) as [-> ->].
  cbn [orb]. rewrite Hp. cbn [negb andb].
  destruct (Z.leb_spec (2 ^ 63) m); [reflexivity | lia].
Qed.

Lemma SetStreamID_negative_witness :
  exists d',
    SetStreamID sample_frame "-1" = Some d' /\
    GetStreamID d' = FormatUint (2 ^ 64 + -1) /\
    ParseInt (GetStreamID d') = None.
Proof.
  apply (SetStreamID_negative sample_frame "-1" (-1)).
  - reflexivity.
  - reflexivity.
  - lia.
Defined.

Example GetStreamID_minus_one :
  option_map GetStreamID (SetStreamID sample_frame "-1")
  = Some "18446744073709551615"%string.
Proof. reflexivity. Qed.

Lemma valid_flag_byte (data : list byte) :
  fst (isValidDubboData data) = true ->
  exists flag status,
    data !! DUBBO_FLAG_IDX = Some flag /\
    data !! DUBBO_STATUS_IDX = Some status.
Proof.
  intros Hvalid.
  destruct (isValidDubboData data) as [rslt bodyLen] eqn:Hv.
  cbn [fst] in Hvalid. subst rslt.
  apply isValidDubboData_true in Hv as (Hlen & _).
  unfold DUBBO_HEADER_LEN in Hlen.
  destruct (sixteen_bytes data) as (a0 & a1 & a2 & a3 & Hrest); [lia|].
  destruct Hrest as (a4 & a5 & a6 & a7 & a8 & a9 & a10 & a11 & Hrest).
  destruct Hrest as (a12 & a13 & a14 & a15 & tl & ->).
  exists a2, a3. split; reflexivity.
Qed.

(** * X4.  The heartbeat reply.  Without a stream-ID header
    [BuildHeartbeatResp] returns nil.  With one it returns a whole frame of
    18 bytes that [SplitFrame] hands back as one frame: a response (request
    bit clear) with the event bit set and serialization 2, whose stream ID
    is the one of the header as a [uint64], or 1, the ID of the template,
    when [strconv.ParseInt] rejects the header. *)
Theorem BuildHeartbeatResp_reply (HeaderXprotocolStreamId : string)
        (headers : gmap string string) :
  (headers !! HeaderXprotocolStreamId = None ->
   BuildHeartbeatResp HeaderXprotocolStreamId headers = Done None) /\
  (forall requestId,
      headers !! HeaderXprotocolStreamId = Some requestId ->
      exists resp,
        BuildHeartbeatResp HeaderXprotocolStreamId headers = Done (Some resp) /\
        length resp = 18%nat /\
        wholeFrame resp /\
        SplitFrame resp = [resp] /\
        (exists flag,
            resp !! DUBBO_FLAG_IDX = Some flag /\
            getEventPing flag = true /\
            isReqFrame flag = false /\
            getSerializeId flag = 2) /\
        GetStreamID resp
        = match ParseInt requestId with
          | Some n => FormatUint (uint64 n)
          | None => "1"%string
          end).
Proof.
  split.
  - intros Hnone. unfold BuildHeartbeatResp. now rewrite Hnone.
  - intros requestId Hsome. unfold BuildHeartbeatResp. rewrite Hsome.
    assert (Hset : exists resp,
               SetStreamID strEchoBytes requestId = Some resp /\
               length resp = 18%nat /\
               isValidDubboData resp = (true, 2) /\
               resp !! DUBBO_FLAG_IDX = Some x22 /\
               BigEndian_decode (slice resp 4 12)
               = match ParseInt requestId with
                 | Some n => uint64 n
                 | None => 1
                 end).
    { destruct (ParseInt requestId) as [n|] eqn:Hp.
      - destruct (SetStreamID_parsed strEchoBytes requestId n eq_refl Hp)
          as (resp & Hset & Hid & Hv & Hlen & Hout).
        exists resp. split; [exact Hset|]. split; [exact Hlen|].
        split; [exact Hv|].
        split; [rewrite Hout by (left; unfold DUBBO_FLAG_IDX; lia);
                reflexivity|].
        now rewrite Hid, BigEndian_Uint64_PutUint64 by apply uint64_range.
      - exists strEchoBytes. rewrite SetStreamID_unparsed by now right.
        repeat split; reflexivity. }
    destruct Hset as (resp & -> & Hlen & Hv & Hflag & Hid).
    exists resp. split; [reflexivity|]. split; [exact Hlen|].
    assert (Hwhole : wholeFrame resp).
    { unfold wholeFrame, getDubboLen. rewrite Hv, Hlen. reflexivity. }
    split; [exact Hwhole|].
    split; [apply SplitFrame_single; [exact Hwhole | now rewrite Hlen]|].
    split; [exists x22; repeat split; [exact Hflag | reflexivity..]|].
    rewrite GetStreamID_valid by now rewrite Hv.
    rewrite Hid. now destruct (ParseInt requestId).
Qed.

Section Hessian.

Variable Decoder : Type.
Variable NewDecoder : list byte -> Decoder.
Variable Decode : Decoder -> option Field * Decoder.
Variable descCount : string -> nat.
Variable HeaderXprotocolRespStatus : string.
Variable HeaderXprotocolRespIsException : string.

Local Abbreviation unSerialize :=
  (unSerialize Decoder NewDecoder Decode descCount).
Local Abbreviation dubboGetServiceName :=
  (dubboGetServiceName Decoder NewDecoder Decode descCount).
Local Abbreviation dubboGetMethodName :=
  (dubboGetMethodName Decoder NewDecoder Decode descCount).
Local Abbreviation dubboGetMeta :=
  (dubboGetMeta Decoder NewDecoder Decode descCount
                HeaderXprotocolRespStatus HeaderXprotocolRespIsException).

(** Up to the method name nothing in [unSerialize] can panic. *)
Lemma unSerialize_no_panic (serializeId : Z) (data : list byte) (parseCtl : Z) :
  parseCtl <= unserializeCtlMethod ->
  unSerialize serializeId data parseCtl <> Panic.
Proof.
  intros Hctl. unfold DubboAttr.unSerialize.
  destruct (serializeId =? 2); cbn [negb]; [|discriminate].
  destruct (Decode (NewDecoder data)) as [[[s1| | |]|] d1]; try discriminate.
  destruct (parseCtl <=? unserializeCtlDubboVersion); [discriminate|].
  destruct (Decode d1) as [[[s2| | |]|] d2]; try discriminate.
  destruct (parseCtl <=? unserializeCtlPath); [discriminate|].
  destruct (Decode d2) as [[[s3| | |]|] d3]; try discriminate.
  destruct (parseCtl <=? unserializeCtlVersion); [discriminate|].
  destruct (Decode d3) as [[[s4| | |]|] d4]; try discriminate.
  destruct (Z.leb_spec parseCtl unserializeCtlMethod); [discriminate | lia].
Qed.

Lemma unSerialize_not_hessian (serializeId : Z) (data : list byte) (parseCtl : Z) :
  serializeId <> 2 ->
  unSerialize serializeId data parseCtl = Done None.
Proof.
  intros Hid. unfold DubboAttr.unSerialize.
  destruct (Z.eqb_spec serializeId 2); [contradiction | reflexivity].
Qed.

Ltac names_empty :=
  split; [now exists ""%string|];
  split; [now exists ""%string|];
  intros _; split; reflexivity.

(** * X5.  The names read for tracing.  [dubboGetServiceName] and
    [dubboGetMethodName] never panic, whatever the bytes and whatever the
    hessian decoder does, and both are empty for data that is no valid
    frame, for a frame without payload, for an event (heartbeat) frame,
    for a response and for a request that is not serialized with
    hessian2 (serialization 2). *)
Theorem dubbo_names_never_panic (data : list byte) :
  (exists s, dubboGetServiceName data = Done s) /\
  (exists s, dubboGetMethodName data = Done s) /\
  (fst (isValidDubboData data) = false \/
   snd (isValidDubboData data) <= 0 \/
   (exists flag,
       data !! DUBBO_FLAG_IDX = Some flag /\
       (getEventPing flag = true \/ isReqFrame flag = false \/
        getSerializeId flag <> 2)) ->
   dubboGetServiceName data = Done ""%string /\
   dubboGetMethodName data = Done ""%string).
Proof.
  unfold DubboAttr.dubboGetServiceName, DubboAttr.dubboGetMethodName.
  destruct (fst (isValidDubboData data)) eqn:Hvalid.
  2:{ destruct (isValidDubboData data) as [rslt bodyLen].
      cbn [fst] in Hvalid. subst rslt. cbn [negb orb]. names_empty. }
  destruct (valid_flag_byte data Hvalid) as (flag & status & Hflag & _).
  destruct (isValidDubboData data) as [rslt bodyLen].
  cbn [fst snd] in *. subst rslt. cbn [negb orb]. rewrite Hflag.
  destruct (Z.leb_spec bodyLen 0) as [Hb|Hb]; [names_empty|].
  destruct (getEventPing flag) eqn:Hev; [names_empty|].
  destruct (isReqFrame flag) eqn:Hreq; cbn [negb]; [|names_empty].
  pose proof (unSerialize_no_panic (getSerializeId flag) (skipn 16 data)
                unserializeCtlPath) as Hp1.
  pose proof (unSerialize_no_panic (getSerializeId flag) (skipn 16 data)
                unserializeCtlMethod) as Hp2.
  split; [|split].
  - destruct (unSerialize _ _ unserializeCtlPath) as [[ret|]|]; eauto.
    exfalso. apply Hp1; [unfold unserializeCtlPath, unserializeCtlMethod; lia
                        | reflexivity].
  - destruct (unSerialize _ _ unserializeCtlMethod) as [[ret|]|]; eauto.
    exfalso. apply Hp2; [lia | reflexivity].
  - intros [H | [H | (flag' & Hflag' & H)]]; [discriminate | lia |].
    injection Hflag' as <-.
    destruct H as [H | [H | H]]; [congruence | congruence |].
    now rewrite !unSerialize_not_hessian by exact H.
Qed.

(** * X6.  An event frame is a heartbeat for the router and for the
    health check: for a valid frame with a payload whose event bit is set
    [dubboGetMeta] returns the one header
    [x-protocol-heartbeat = dubbo], without consulting the decoder, and on
    these headers the health-check filter that does not pass through stops
    the request and takes [dubbo] as its protocol. *)
Theorem dubboGetMeta_heartbeat (data : list byte) (flag : byte) :
  fst (isValidDubboData data) = true ->
  0 < snd (isValidDubboData data) ->
  data !! DUBBO_FLAG_IDX = Some flag ->
  getEventPing flag = true ->
  dubboGetMeta data
  = Done (Some {[ HealthCheck.HeaderXprotocolHeartbeat
                  := XPROTOCOL_PLUGIN_DUBBO ]}) /\
  HealthCheck.status
    (HealthCheck.OnReceive (HealthCheck.NewHealthCheckFilter false)
       {[ HealthCheck.HeaderXprotocolHeartbeat := XPROTOCOL_PLUGIN_DUBBO ]})
  = HealthCheck.StreamFilterStop /\
  HealthCheck.protocol
    (HealthCheck.filter
       (HealthCheck.OnReceive (HealthCheck.NewHealthCheckFilter false)
          {[ HealthCheck.HeaderXprotocolHeartbeat := XPROTOCOL_PLUGIN_DUBBO ]}))
  = XPROTOCOL_PLUGIN_DUBBO.
Proof.
  intros Hvalid Hbody Hflag Hev. split.
  - unfold DubboAttr.dubboGetMeta.
    destruct (isValidDubboData data) as [rslt bodyLen].
    cbn [fst snd] in *. subst rslt. cbn [negb orb].
    destruct (Z.leb_spec bodyLen 0); [lia|].
    now rewrite Hflag, Hev.
  - unfold HealthCheck.OnReceive. rewrite lookup_singleton_eq.
    split; reflexivity.
Qed.

(** * X7.  A request that [unSerialize] gives up on makes [dubboGetMeta]
    panic: the nil result is dereferenced.  This is so for every valid
    request frame with a payload whose serialization is not hessian2. *)
Theorem dubboGetMeta_request_not_hessian (data : list byte) (flag : byte) :
  fst (isValidDubboData data) = true ->
  0 < snd (isValidDubboData data) ->
  data !! DUBBO_FLAG_IDX = Some flag ->
  getEventPing flag = false ->
  isReqFrame flag = true ->
  getSerializeId flag <> 2 ->
  dubboGetMeta data = Panic.
Proof.
  intros Hvalid Hbody Hflag Hev Hreq Hid.
  unfold DubboAttr.dubboGetMeta.
  destruct (isValidDubboData data) as [rslt bodyLen].
  cbn [fst snd] in *. subst rslt. cbn [negb orb].
  destruct (Z.leb_spec bodyLen 0); [lia|].
  rewrite Hflag, Hev, Hreq. cbn [negb].
  now rewrite unSerialize_not_hessian by exact Hid.
Qed.

End Hessian.

Lemma dubboGetMeta_heartbeat_witness :
  dubboGetMeta unit (fun _ => tt) noDecode (fun _ => O)
               "status" "exception" strEchoBytes
  = Done (Some {[ HealthCheck.HeaderXprotocolHeartbeat
                  := XPROTOCOL_PLUGIN_DUBBO ]}) /\
  HealthCheck.status
    (HealthCheck.OnReceive (HealthCheck.NewHealthCheckFilter false)
       {[ HealthCheck.HeaderXprotocolHeartbeat := XPROTOCOL_PLUGIN_DUBBO ]})
  = HealthCheck.StreamFilterStop /\
  HealthCheck.protocol
    (HealthCheck.filter
       (HealthCheck.OnReceive (HealthCheck.NewHealthCheckFilter false)
          {[ HealthCheck.HeaderXprotocolHeartbeat := XPROTOCOL_PLUGIN_DUBBO ]}))
  = XPROTOCOL_PLUGIN_DUBBO.
Proof.
  apply (dubboGetMeta_heartbeat unit (fun _ => tt) noDecode (fun _ => O)
           "status" "exception" strEchoBytes x22);
    reflexivity.
Defined.

Lemma dubboGetMeta_request_not_hessian_witness :
  dubboGetMeta unit (fun _ => tt) noDecode (fun _ => O)
               "status" "exception" fastjson_frame
  = Panic.
Proof.
  apply (dubboGetMeta_request_not_hessian unit (fun _ => tt) noDecode
           (fun _ => O) "status" "exception" fastjson_frame xc6);
    try reflexivity.
  discriminate.
Defined.

End DubboAttrFacts.

(** ** Round-robin and random selection *)

Module RoundRobinFacts.
Import GoInt Cluster RandomLB.

Lemma hostAfter_is_Some (targets : list Host) (rrIndex j : Z) :
  targets <> [] -> exists h, hostAfter targets rrIndex j = Some h.
Proof.
  intros Hne. unfold hostAfter. apply lookup_lt_is_Some_2.
  assert (0 < Z.of_nat (length targets))
    by (destruct targets; [congruence | cbn [length]; lia]).
  pose proof (Z.mod_pos_bound (rrIndex + j) (Z.of_nat (length targets))).
  lia.
Qed.

(** The loop of [ChooseHost], as long as the index does not pass
    [2^32]: it stops at the first healthy host on its way. *)
Lemma ChooseHost_loop_cases (targets : list Host) :
  targets <> [] ->
  Z.of_nat (length targets) < 2 ^ 32 ->
  forall (m : nat) (idx : Z),
    0 <= idx -> idx + Z.of_nat m < 2 ^ 32 ->
    (RoundRobin.ChooseHost_loop m targets idx = (None, idx + Z.of_nat m) /\
     forall j, 1 <= j <= Z.of_nat m ->
               exists h, hostAfter targets idx j = Some h /\ Health h = false)
    \/
    (exists (k : Z) (h : Host),
        1 <= k <= Z.of_nat m /\
        RoundRobin.ChooseHost_loop m targets idx = (Some h, idx + k) /\
        hostAfter targets idx k = Some h /\ Health h = true /\
        forall j, 1 <= j < k ->
                  exists h', hostAfter targets idx j = Some h' /\
                             Health h' = false).
Proof.
  intros Hne Hn32 m. induction m as [|m IH]; intros idx Hidx Hwrap.
  - left. cbn [RoundRobin.ChooseHost_loop]. split; [f_equal; lia|].
    intros j Hj. lia.
  - cbn [RoundRobin.ChooseHost_loop].
    assert (Hn0 : 0 < Z.of_nat (length targets))
      by (destruct targets; [congruence | cbn [length]; lia]).
    assert (Hu1 : uint32 (idx + 1) = idx + 1)
      by (unfold uint32; apply Z.mod_small; lia).
    assert (Hun : uint32 (Z.of_nat (length targets)) = Z.of_nat (length targets))
      by (unfold uint32; apply Z.mod_small; lia).
    rewrite Hu1, Hun.
    destruct (hostAfter_is_Some targets idx 1 Hne) as [host Hhost].
    unfold hostAfter in Hhost. rewrite Hhost.
    destruct (Health host) eqn:Hh.
    + right. exists 1, host. repeat split; try assumption; try lia.
    + destruct (IH (idx + 1)) as [[Hloop Hall] | (k & h & Hk & Hloop & Hat & Hhl & Hbefore)];
        [lia | lia | |].
      * left. rewrite Hloop. split; [f_equal; lia|].
        intros j Hj. destruct (Z.eq_dec j 1) as [->|Hne1].
        -- exists host. split; assumption.
        -- destruct (Hall (j - 1)) as (h' & Hat' & Hh'); [lia|].
           exists h'. split; [|exact Hh'].
           unfold hostAfter in *. rewrite <- Hat'. do 3 f_equal. lia.
      * right. exists (k + 1), h. split; [lia|].
        split; [rewrite Hloop; f_equal; lia|].
        split; [unfold hostAfter in *; rewrite <- Hat; do 3 f_equal; lia|].
        split; [exact Hhl|].
        intros j Hj. destruct (Z.eq_dec j 1) as [->|Hne1].
        -- exists host. split; assumption.
        -- destruct (Hbefore (j - 1)) as (h' & Hat' & Hh'); [lia|].
           exists h'. split; [|exact Hh'].
           unfold hostAfter in *. rewrite <- Hat'. do 3 f_equal. lia.
Qed.

(** As many steps as there are hosts pass every host. *)
Lemma hostAfter_covers (targets : list Host) (idx : Z) (p : nat) (h : Host) :
  targets !! p = Some h ->
  exists j, 1 <= j <= Z.of_nat (length targets) /\
            hostAfter targets idx j = Some h.
Proof.
  intros Hp. pose proof (lookup_lt_Some _ _ _ Hp) as Hlt.
  set (n := Z.of_nat (length targets)).
  assert (Hn0 : 0 < n) by (subst n; lia).
  exists ((Z.of_nat p - idx - 1) mod n + 1).
  pose proof (Z.mod_pos_bound (Z.of_nat p - idx - 1) n Hn0).
  split; [lia|]. unfold hostAfter. fold n.
  replace (idx + ((Z.of_nat p - idx - 1) mod n + 1))
    with ((idx + 1) + (Z.of_nat p - idx - 1) mod n) by lia.
  rewrite Z.add_mod_idemp_r by lia.
  replace (idx + 1 + (Z.of_nat p - idx - 1)) with (Z.of_nat p) by lia.
  rewrite Z.mod_small by (subst n; lia).
  now rewrite Nat2Z.id.
Qed.

(** * X8.  Round-robin finds a healthy host whenever there is one.  On a host
    set with a healthy host, and as long as the index stays below [2^32]
    during the call, [ChooseHost] returns the first healthy host met from
    the position after the index, going round the host set; the hosts before
    it are unhealthy, and the index is left on the host returned. *)
Theorem roundRobin_first_healthy (lb : RoundRobin.roundRobinLoadBalancer) :
  Exists (fun h => Health h = true) (RoundRobin.hosts lb) ->
  0 <= RoundRobin.rrIndex lb ->
  RoundRobin.rrIndex lb + Z.of_nat (length (RoundRobin.hosts lb)) < 2 ^ 32 ->
  exists (k : Z) (h : Host),
    1 <= k <= Z.of_nat (length (RoundRobin.hosts lb)) /\
    RoundRobin.ChooseHost lb
    = (Some h, {| RoundRobin.hosts := RoundRobin.hosts lb;
                  RoundRobin.rrIndex := RoundRobin.rrIndex lb + k |}) /\
    hostAfter (RoundRobin.hosts lb) (RoundRobin.rrIndex lb) k = Some h /\
    Health h = true /\
    forall j, 1 <= j < k ->
              exists h', hostAfter (RoundRobin.hosts lb) (RoundRobin.rrIndex lb) j
                         = Some h' /\ Health h' = false.
Proof.
  destruct lb as [targets idx]. cbn [RoundRobin.hosts RoundRobin.rrIndex].
  intros Hex Hidx Hwrap.
  assert (Hne : targets <> []) by (intros ->; inversion Hex).
  assert (Hn0 : (length targets <> 0)%nat) by (destruct targets; cbn; congruence).
  unfold RoundRobin.ChooseHost. cbn [RoundRobin.hosts RoundRobin.rrIndex].
  apply Nat.eqb_neq in Hn0. rewrite Hn0.
  destruct (ChooseHost_loop_cases targets Hne ltac:(lia) (length targets) idx
              Hidx Hwrap)
    as [[_ Hall] | (k & h & Hk & Hloop & Hat & Hh & Hbefore)].
  - exfalso. apply Exists_exists in Hex as (h & Hin & Hh).
    apply list_elem_of_lookup in Hin as [p Hp].
    destruct (hostAfter_covers targets idx p h Hp) as (j & Hj & Hat).
    destruct (Hall j Hj) as (h' & Hat' & Hh'). congruence.
  - exists k, h. rewrite Hloop. repeat split; assumption || lia.
Qed.

Lemma roundRobin_first_healthy_witness :
  exists (k : Z) (h : Host),
    1 <= k <= Z.of_nat (length [Edf.downHost "a"; Edf.idleHost]) /\
    RoundRobin.ChooseHost
      {| RoundRobin.hosts := [Edf.downHost "a"; Edf.idleHost];
         RoundRobin.rrIndex := 1 |}
    = (Some h, {| RoundRobin.hosts := [Edf.downHost "a"; Edf.idleHost];
                  RoundRobin.rrIndex := 1 + k |}) /\
    hostAfter [Edf.downHost "a"; Edf.idleHost] 1 k = Some h /\
    Health h = true /\
    forall j, 1 <= j < k ->
              exists h', hostAfter [Edf.downHost "a"; Edf.idleHost] 1 j
                         = Some h' /\ Health h' = false.
Proof.
  apply (roundRobin_first_healthy
           {| RoundRobin.hosts := [Edf.downHost "a"; Edf.idleHost];
              RoundRobin.rrIndex := 1 |}).
  - apply Exists_cons_tl, Exists_cons_hd. reflexivity.
  - cbn. lia.
  - cbn. lia.
Defined.

(** Whatever the index, the loop returns healthy hosts of the set only. *)
Lemma roundRobin_loop_healthy (targets : list Host) :
  forall (m : nat) (idx : Z) (h : Host),
    fst (RoundRobin.ChooseHost_loop m targets idx) = Some h ->
    In h targets /\ Health h = true.
Proof.
  induction m as [|m IH]; intros idx h; cbn [RoundRobin.ChooseHost_loop fst];
    [discriminate|].
  destruct (targets !! _) as [host|] eqn:E; [|discriminate].
  destruct (Health host) eqn:Hh.
  - cbn [fst]. intros [= <-]. split; [|exact Hh].
    apply list_elem_of_In, list_elem_of_lookup. eauto.
  - apply IH.
Qed.

Lemma roundRobin_healthy (lb : RoundRobin.roundRobinLoadBalancer) (h : Host) :
  fst (RoundRobin.ChooseHost lb) = Some h ->
  In h (RoundRobin.hosts lb) /\ Health h = true.
Proof.
  unfold RoundRobin.ChooseHost.
  destruct (Nat.eqb (length (RoundRobin.hosts lb)) 0); [discriminate|].
  pose proof (roundRobin_loop_healthy (RoundRobin.hosts lb)
                (length (RoundRobin.hosts lb)) (RoundRobin.rrIndex lb) h) as H.
  destruct (RoundRobin.ChooseHost_loop _ _ _) as [o i]. exact H.
Qed.

(** * X9.  On a host set that is all healthy round-robin goes round the hosts
    in order: as long as the index stays below [2^32], the [j]-th of [k]
    calls in a row returns the host [j] places after the index, and the
    index has moved on by [k] in the end. *)
Theorem roundRobin_rotation (targets : list Host) (k : nat) (idx : Z) :
  Forall (fun h => Health h = true) targets ->
  targets <> [] ->
  0 <= idx ->
  idx + Z.of_nat k < 2 ^ 32 ->
  Z.of_nat (length targets) < 2 ^ 32 ->
  roundRobinPicks k {| RoundRobin.hosts := targets; RoundRobin.rrIndex := idx |}
  = (map (fun j => hostAfter targets idx (Z.of_nat j)) (seq 1 k),
     {| RoundRobin.hosts := targets;
        RoundRobin.rrIndex := idx + Z.of_nat k |}).
Proof.
  intros Hall Hne. revert idx.
  induction k as [|k IH]; intros idx Hidx Hwrap Hn32.
  - cbn [roundRobinPicks seq map]. do 2 f_equal. lia.
  - cbn [roundRobinPicks].
    assert (Hn0 : (length targets <> 0)%nat)
      by (destruct targets; cbn; congruence).
    unfold RoundRobin.ChooseHost at 1.
    cbn [RoundRobin.hosts RoundRobin.rrIndex].
    apply Nat.eqb_neq in Hn0 as Hn0'. rewrite Hn0'.
    destruct (length targets) as [|n'] eqn:Hlen; [congruence|].
    cbn [RoundRobin.ChooseHost_loop]. rewrite Hlen.
    assert (Hu1 : uint32 (idx + 1) = idx + 1)
      by (unfold uint32; apply Z.mod_small; lia).
    assert (Hun : uint32 (Z.of_nat (S n')) = Z.of_nat (S n'))
      by (unfold uint32; apply Z.mod_small; lia).
    rewrite Hu1, Hun.
    destruct (hostAfter_is_Some targets idx 1 Hne) as [host Hhost].
    unfold hostAfter in Hhost. rewrite Hlen in Hhost. rewrite Hhost.
    rewrite Forall_forall in Hall.
    rewrite (Hall host) by (apply list_elem_of_lookup; eauto).
    rewrite IH by lia.
    cbn [seq map]. f_equal.
    + f_equal.
      * unfold hostAfter. rewrite Hlen. exact (eq_sym Hhost).
      * rewrite <- (seq_shift k 1), map_map. apply map_ext. intros j.
        unfold hostAfter. do 3 f_equal. lia.
    + f_equal. lia.
Qed.

Lemma roundRobin_rotation_witness :
  roundRobinPicks 3
    {| RoundRobin.hosts := [Edf.busyHost; Edf.idleHost];
       RoundRobin.rrIndex := 0 |}
  = (map (fun j => hostAfter [Edf.busyHost; Edf.idleHost] 0 (Z.of_nat j))
         (seq 1 3),
     {| RoundRobin.hosts := [Edf.busyHost; Edf.idleHost];
        RoundRobin.rrIndex := 0 + Z.of_nat 3 |}).
Proof.
  apply (roundRobin_rotation [Edf.busyHost; Edf.idleHost] 3 0).
  - repeat constructor.
  - discriminate.
  - lia.
  - reflexivity.
  - reflexivity.
Defined.

Lemma ChooseHost_loop_finds (targets : list Host) (idx : Z) :
  Exists (fun h => Health h = true) targets ->
  0 <= idx ->
  idx + Z.of_nat (length targets) < 2 ^ 32 ->
  exists h i,
    RoundRobin.ChooseHost_loop (length targets) targets idx = (Some h, i) /\
    Health h = true.
Proof.
  intros Hex Hidx Hwrap.
  assert (Hne : targets <> []) by (intros ->; inversion Hex).
  destruct (ChooseHost_loop_cases targets Hne ltac:(lia) (length targets) idx
              Hidx Hwrap)
    as [[_ Hall] | (k & h & Hk & Hloop & Hat & Hh & Hbefore)].
  - exfalso. apply Exists_exists in Hex as (h & Hin & Hh).
    apply list_elem_of_lookup in Hin as [p Hp].
    destruct (hostAfter_covers targets idx p h Hp) as (j & Hj & Hat).
    destruct (Hall j Hj) as (h' & Hat' & Hh'). congruence.
  - eauto.
Qed.


End RoundRobinFacts.

(** ** Smooth weighted round-robin: health and the full cycle *)

Module SmoothWRRCycle.
Import GoInt Cluster SmoothWRR SmoothWRRFacts.

(** The loop of [ChooseHost] on any host set: it keeps the length of
    [hostsWeighted], skips the unhealthy hosts and selects among the healthy
    ones. *)
Lemma smoothWRR_loop_inv (hs : list Host) :
  forall (hws : list hostSmoothWeighted) (idx : nat) (total : Z)
         (sel : option (nat * Host * Z))
         (l : list hostSmoothWeighted) (t : Z) (s : option (nat * Host * Z)),
    length hws = length hs ->
    ChooseHost_loop hs hws idx total sel = (l, t, s) ->
    length l = length hws /\
    (forall i h, hs !! i = Some h -> Health h = false -> l !! i = hws !! i) /\
    (s = sel \/
     exists k h cw, s = Some ((idx + k)%nat, h, cw) /\
                    hs !! k = Some h /\ Health h = true) /\
    (s = None -> sel = None /\ Forall (fun h => Health h = false) hs) /\
    (Forall (fun h => Health h = false) hs -> s = sel).
Proof.
  induction hs as [|host hs IH]; intros hws idx total sel l t s Hlen Hloop.
  - destruct hws; [|discriminate]. cbn in Hloop. injection Hloop as <- <- <-.
    repeat split; auto.
  - destruct hws as [|hw hws]; [discriminate|].
    cbn [length] in Hlen. injection Hlen as Hlen.
    cbn [ChooseHost_loop] in Hloop.
    destruct (Health host) eqn:Hh; cbn [negb] in Hloop.
    + destruct (ChooseHost_loop hs hws (Datatypes.S idx) _ _)
        as [[l' t'] s'] eqn:Hrec.
      pose proof (IH _ _ _ _ _ _ _ Hlen Hrec)
        as (Hl & Hskip & Hsel & Hnone & Hall).
      injection Hloop as <- <- <-.
      split; [cbn [length]; now rewrite Hl|].
      split.
      { intros [|i] h Hi Hun; cbn in Hi |- *.
        - injection Hi as <-. congruence.
        - now apply (Hskip i h). }
      split.
      { destruct Hsel as [-> | (k & h & cw & -> & Hk & Hhk)].
        - destruct sel as [[[k0 h0] scw]|].
          + destruct (scw <? _); [right | now left].
            exists O, host, (int64 (currentWeight hw + effectiveWeight hw)).
            rewrite Nat.add_0_r. auto.
          + right.
            exists O, host, (int64 (currentWeight hw + effectiveWeight hw)).
            rewrite Nat.add_0_r. auto.
        - right. exists (Datatypes.S k), h, cw.
          replace (idx + Datatypes.S k)%nat with (Datatypes.S idx + k)%nat by lia.
          auto. }
      split.
      { intros ->. destruct (Hnone eq_refl) as [Hsome _].
        destruct sel as [[[k0 h0] scw]|]; [destruct (scw <? _)|]; discriminate. }
      intros Hall'. apply Forall_cons in Hall' as [Hc _]. congruence.
    + destruct (ChooseHost_loop hs hws (Datatypes.S idx) total sel)
        as [[l' t'] s'] eqn:Hrec.
      pose proof (IH hws (Datatypes.S idx) total sel l' t' s' Hlen Hrec)
        as (Hl & Hskip & Hsel & Hnone & Hall).
      injection Hloop as <- <- <-.
      split; [cbn [length]; now rewrite Hl|].
      split.
      { intros [|i] h Hi Hun; cbn in Hi |- *; [reflexivity|].
        now apply (Hskip i h). }
      split.
      { destruct Hsel as [-> | (k & h & cw & -> & Hk & Hhk)]; [now left|].
        right. exists (Datatypes.S k), h, cw.
        replace (idx + Datatypes.S k)%nat with (Datatypes.S idx + k)%nat by lia.
        auto. }
      split.
      { intros Hs. destruct (Hnone Hs) as [-> Hrest]. split; [reflexivity|].
        now constructor. }
      intros Hall'. apply Forall_cons in Hall' as [_ Hrest]. auto.
Qed.

(** * X11.  Smooth weighted round-robin and health.  For a balancer whose
    [hostsWeighted] has an entry per host, [ChooseHost] selects a healthy
    host of the set or nothing, and it selects nothing exactly when no host
    is healthy; the host set and the length of [hostsWeighted] are kept, and
    the entry of an unhealthy host is left as it is. *)
Theorem smoothWRR_selects_healthy (lb : smoothWeightedRRLoadBalancer) :
  length (hostsWeighted lb) = length (hosts lb) ->
  (forall k h, fst (ChooseHost lb) = Some (k, h) ->
               hosts lb !! k = Some h /\ Health h = true) /\
  (fst (ChooseHost lb) = None <->
   Forall (fun h => Health h = false) (hosts lb)) /\
  hosts (snd (ChooseHost lb)) = hosts lb /\
  length (hostsWeighted (snd (ChooseHost lb))) = length (hosts lb) /\
  (forall i h, hosts lb !! i = Some h -> Health h = false ->
               hostsWeighted (snd (ChooseHost lb)) !! i
               = hostsWeighted lb !! i).
Proof.
  intros Hlen. unfold ChooseHost.
  destruct (ChooseHost_loop (hosts lb) (hostsWeighted lb) 0 0 None)
    as [[l t] s] eqn:Hloop.
  destruct (smoothWRR_loop_inv (hosts lb) _ _ _ _ _ _ _ Hlen Hloop)
    as (Hl & Hskip & Hsel & Hnone & Hall).
  destruct s as [[[k h] cw]|]; cbn [fst snd hosts hostsWeighted].
  - destruct Hsel as [Hsel | (k' & h' & cw' & Hsel & Hk & Hh)]; [discriminate|].
    injection Hsel as -> -> ->. cbn [Nat.add] in *.
    split; [intros k h [= <- <-]; auto|].
    split; [split; [discriminate | intros Hun; now specialize (Hall Hun)]|].
    split; [reflexivity|].
    split; [rewrite length_alter; congruence|].
    intros i h Hi Hun.
    rewrite list_lookup_alter_ne by (intros ->; congruence).
    now apply (Hskip i h).
  - split; [discriminate|].
    split; [split; [intros _; now apply Hnone | reflexivity]|].
    split; [reflexivity|].
    split; [congruence|].
    exact Hskip.
Qed.

Lemma smoothWRR_selects_healthy_witness :
  (forall k h,
      fst (ChooseHost (newSmoothWeightedRRLoadBalancer
                         [Edf.downHost "a"; Edf.idleHost])) = Some (k, h) ->
      hosts (newSmoothWeightedRRLoadBalancer [Edf.downHost "a"; Edf.idleHost])
        !! k = Some h /\ Health h = true) /\
  (fst (ChooseHost (newSmoothWeightedRRLoadBalancer
                      [Edf.downHost "a"; Edf.idleHost])) = None <->
   Forall (fun h => Health h = false)
          (hosts (newSmoothWeightedRRLoadBalancer
                    [Edf.downHost "a"; Edf.idleHost]))) /\
  hosts (snd (ChooseHost (newSmoothWeightedRRLoadBalancer
                            [Edf.downHost "a"; Edf.idleHost])))
  = hosts (newSmoothWeightedRRLoadBalancer [Edf.downHost "a"; Edf.idleHost]) /\
  length (hostsWeighted
            (snd (ChooseHost (newSmoothWeightedRRLoadBalancer
                                [Edf.downHost "a"; Edf.idleHost]))))
  = length (hosts (newSmoothWeightedRRLoadBalancer
                     [Edf.downHost "a"; Edf.idleHost])) /\
  (forall i h,
      hosts (newSmoothWeightedRRLoadBalancer [Edf.downHost "a"; Edf.idleHost])
        !! i = Some h ->
      Health h = false ->
      hostsWeighted
        (snd (ChooseHost (newSmoothWeightedRRLoadBalancer
                            [Edf.downHost "a"; Edf.idleHost]))) !! i
      = hostsWeighted (newSmoothWeightedRRLoadBalancer
                         [Edf.downHost "a"; Edf.idleHost]) !! i).
Proof.
  apply (smoothWRR_selects_healthy
           (newSmoothWeightedRRLoadBalancer [Edf.downHost "a"; Edf.idleHost])).
  reflexivity.
Defined.

(** * X12.  The full cycle of smooth weighted round-robin.  On a fully healthy
    host set whose weights are small enough for an [int64] and sum up to
    [W > 0], any [W] picks in a row select host [i] exactly [w_i] times, and
    bring the balancer back to the state it was in before them. *)
Theorem smoothWRR_cycle (hostSet : list Host) (s i : nat) (h : Host) :
  Forall (fun h => Health h = true) hostSet ->
  totalWeight hostSet * (maxWeight hostSet + 1) < 2 ^ 63 ->
  0 < totalWeight hostSet ->
  hostSet !! i = Some h ->
  timesSelected i
    (fst (picks (Z.to_nat (totalWeight hostSet))
                (snd (picks s (newSmoothWeightedRRLoadBalancer hostSet)))))
  = Z.of_N (Weight h) /\
  snd (picks (Z.to_nat (totalWeight hostSet))
             (snd (picks s (newSmoothWeightedRRLoadBalancer hostSet))))
  = snd (picks s (newSmoothWeightedRRLoadBalancer hostSet)).
Proof.
  intros Hall Hsmall Hpos Hi.
  assert (Hne : hostSet <> []) by (intros ->; discriminate Hi).
  rewrite (picks_from_new hostSet s Hall Hsmall).
  rewrite (picks_refines hostSet Hall Hsmall (Z.to_nat (totalWeight hostSet)) s).
  cbn [fst snd]. split.
  - apply window_full; [assumption..|]. now apply lookup_weightsOf.
  - f_equal. rewrite Nat.add_comm. now apply idealAfter_shift.
Qed.

Lemma smoothWRR_cycle_witness :
  timesSelected 0
    (fst (picks (Z.to_nat (totalWeight abc))
                (snd (picks 3 (newSmoothWeightedRRLoadBalancer abc)))))
  = Z.of_N (Weight (weighted "a" 5)) /\
  snd (picks (Z.to_nat (totalWeight abc))
             (snd (picks 3 (newSmoothWeightedRRLoadBalancer abc))))
  = snd (picks 3 (newSmoothWeightedRRLoadBalancer abc)).
Proof.
  apply (smoothWRR_cycle abc 3 0 (weighted "a" 5)).
  - repeat constructor.
  - reflexivity.
  - reflexivity.
  - reflexivity.
Defined.

End SmoothWRRCycle.

(** ** The keep-alive and the events of its connection *)

Module KeepAliveConnFacts.
Import GoInt KeepAlive NetworkTypes KeepAliveConn.

Lemma Stop_stopped (kp : sofaRPCKeepAlive) : stopped kp = true -> Stop kp = kp.
Proof. destruct kp as [T c s r]. cbn. now intros ->. Qed.

Lemma deliver_stopped (kp : sofaRPCKeepAlive) (i : Input) :
  stopped kp = true -> deliver kp i = (kp, []).
Proof.
  intros Hs. destruct i as [event|id|id]; cbn [deliver].
  - unfold OnEvent. destruct (IsClose event || ConnectFailure event);
      [now rewrite Stop_stopped | reflexivity].
  - unfold HandleTimeout. now rewrite Hs.
  - unfold HandleSuccess. now rewrite Hs.
Qed.

Lemma deliverAll_stopped (inputs : list Input) :
  forall kp, stopped kp = true -> deliverAll kp inputs = (kp, []).
Proof.
  induction inputs as [|i rest IH]; intros kp Hs; cbn [deliverAll];
    [reflexivity|].
  rewrite deliver_stopped by exact Hs. now rewrite IH.
Qed.

(** * X13.  A closed connection ends the keep-alive for good.  After an event
    that is a close ([LocalClose], [RemoteClose], [OnReadErrClose],
    [OnWriteErrClose], [OnWriteTimeout]) or a failure to connect
    ([ConnectFailed], [ConnectTimeout]) nothing that reaches the keep-alive
    changes it or has an effect: no callback runs, no timer is stopped and
    the codec is not closed, whatever timers expire and whatever responses
    come in, and [SendKeepAlive] sends nothing.  The events [OnConnect], [Connected] and [OnReadTimeout] leave
    the keep-alive running. *)
Theorem keepalive_stops_on_close (kp : sofaRPCKeepAlive) (inputs : list Input) :
  (forall event,
      IsClose event = true \/ ConnectFailure event = true ->
      stopped (OnEvent kp event) = true /\
      requests (OnEvent kp event) = requests kp /\
      timeoutCount (OnEvent kp event) = timeoutCount kp /\
      deliverAll (OnEvent kp event) inputs = (OnEvent kp event, []) /\
      forall (A : Type) (sendKeepAlive : sofaRPCKeepAlive -> _ * list A),
        SendKeepAlive sendKeepAlive (OnEvent kp event)
        = (OnEvent kp event, [])) /\
  (forall event,
      In event [LocalClose; RemoteClose; OnReadErrClose; OnWriteErrClose;
                OnWriteTimeout; ConnectFailed; ConnectTimeout] ->
      IsClose event = true \/ ConnectFailure event = true) /\
  (forall event,
      In event [OnConnect; Connected; OnReadTimeout] -> OnEvent kp event = kp).
Proof.
  split; [|split].
  - intros event Hev.
    assert (Hc : IsClose event || ConnectFailure event = true)
      by (destruct Hev as [-> | ->]; [reflexivity | apply orb_true_r]).
    unfold OnEvent. rewrite Hc.
    repeat split; try reflexivity.
    now apply deliverAll_stopped.
  - intros event Hin. cbn [In] in Hin.
    repeat (destruct Hin as [<- | Hin]; [(now left) || (now right)|]).
    contradiction.
  - intros event Hin. cbn [In] in Hin.
    repeat (destruct Hin as [<- | Hin]; [reflexivity|]).
    contradiction.
Qed.

End KeepAliveConnFacts.

(** ** Client streams of an x-protocol connection *)

Module XStreamSenderFacts.
Import GoInt Strconv Dubbo XStream NetworkTypes XStreamSender.
Import GoIntFacts StrconvFacts DubboFacts XStreamFacts.

Lemma clientTable_step (conn : streamConnection) (n : Z) (e : Event) :
  clientTable conn n -> n + 1 < 2 ^ 64 -> clientTable (step conn e) (n + 1).
Proof.
  intros (Hsrv & Hcount & Hkeys) Hn.
  destruct e as [r | id r | s]; cbn [step].
  - unfold NewStream. cbn [snd].
    assert (Hu : uint64 (streamIDXprotocolCount conn + 1)
                 = streamIDXprotocolCount conn + 1)
      by (unfold uint64; apply Z.mod_small; lia).
    rewrite Hu. split; [exact Hsrv|]. split; [cbn; lia|].
    cbn [activeStream streamIDXprotocolCount]. intros key s Hlook.
    apply lookup_insert_Some in Hlook as [[<- _] | [_ Hlook]].
    + exists (streamIDXprotocolCount conn + 1). split; [lia | reflexivity].
    + destruct (Hkeys key s Hlook) as (k & Hk & ->). exists k. split; [lia | reflexivity].
  - unfold OnReceive. rewrite Hsrv.
    destruct (activeStream conn !! id) as [s|]; [|split; [exact Hsrv | split; [lia | exact Hkeys]]].
    destruct (direction s); [split; [exact Hsrv | split; [lia | exact Hkeys]]|].
    split; [exact Hsrv|]. split; [cbn; lia|].
    cbn [activeStream streamIDXprotocolCount with_table]. intros key s' Hlook.
    apply lookup_delete_Some in Hlook as [_ Hlook]. eauto.
  - unfold XStream.endStream.
    destruct (direction s); [|split; [exact Hsrv | split; [lia | exact Hkeys]]].
    split; [exact Hsrv|]. split; [cbn; lia|].
    cbn [activeStream streamIDXprotocolCount with_table]. intros key s' Hlook.
    apply lookup_delete_Some in Hlook as [_ Hlook]. eauto.
Qed.

Lemma clientTable_run (es : list Event) :
  forall (conn : streamConnection) (n : Z),
    clientTable conn n -> n + Z.of_nat (length es) < 2 ^ 64 ->
    clientTable (run conn es) (n + Z.of_nat (length es)).
Proof.
  unfold run. induction es as [|e es IH]; intros conn n Hinv Hn.
  - cbn [fold_left length]. destruct Hinv as (H1 & H2 & H3).
    split; [exact H1|]. split; [cbn; lia | exact H3].
  - cbn [fold_left]. cbn [length] in Hn.
    replace (n + Z.of_nat (length (e :: es)))
      with ((n + 1) + Z.of_nat (length es)) by (cbn [length]; lia).
    apply IH; [|lia]. apply clientTable_step; [exact Hinv | lia].
Qed.

Lemma ParseUint_FormatUint (n : Z) :
  0 <= n < 2 ^ 64 -> ParseUint (FormatUint n) = Some n.
Proof.
  intros Hn. pose proof (parseDigits_FormatUint n Hn) as Hp.
  unfold FormatUint in *.
  destruct (formatBits_head 19 n EmptyString) as (d & s' & Hd & Hs); [lia|].
  rewrite Hs in *. unfold ParseUint. rewrite Hp.
  destruct (Z.ltb_spec n (2 ^ 64)); [reflexivity | lia].
Qed.

(** * X14.  The life of a client stream.  On a connection without a server
    listener, and as long as fewer than [2^64 - 1] events have happened on
    it, [NewStream] gives the new stream an ID that is not in the table, so
    that no live stream is replaced and the number of active streams grows
    by one; [ID()] of the new stream is the new value of the counter; and
    the response that comes in under this ID takes the stream out of the
    table again, which is then as it was before [NewStream]. *)
Theorem client_stream_lifecycle (es : list Event) (r : nat) :
  Z.of_nat (length es) < 2 ^ 64 - 1 ->
  activeStream (run (newStreamConnection false) es)
    !! streamID (fst (NewStream (run (newStreamConnection false) es) r)) = None /\
  ActiveStreamsNum (snd (NewStream (run (newStreamConnection false) es) r))
  = S (ActiveStreamsNum (run (newStreamConnection false) es)) /\
  ID (fst (NewStream (run (newStreamConnection false) es) r))
  = streamIDXprotocolCount (run (newStreamConnection false) es) + 1 /\
  (forall r',
      activeStream
        (OnReceive (snd (NewStream (run (newStreamConnection false) es) r))
           (streamID (fst (NewStream (run (newStreamConnection false) es) r)))
           r')
      = activeStream (run (newStreamConnection false) es)).
Proof.
  intros Hlen.
  assert (Hinv : clientTable (run (newStreamConnection false) es)
                             (0 + Z.of_nat (length es))).
  { apply clientTable_run; [|lia].
    split; [reflexivity|]. split; [cbn; lia|].
    intros key s H. cbn in H. rewrite lookup_empty in H. discriminate. }
  set (conn := run (newStreamConnection false) es) in *.
  destruct Hinv as (Hsrv & Hcount & Hkeys).
  assert (Hu : uint64 (streamIDXprotocolCount conn + 1)
               = streamIDXprotocolCount conn + 1)
    by (unfold uint64; apply Z.mod_small; lia).
  unfold NewStream. cbn [fst snd streamID]. rewrite Hu.
  assert (Hfresh : activeStream conn
                     !! FormatUint (streamIDXprotocolCount conn + 1) = None).
  { destruct (activeStream conn !! _) as [s|] eqn:E; [|reflexivity].
    destruct (Hkeys _ s E) as (k & Hk & Heq).
    apply FormatUint_inj in Heq; lia. }
  split; [exact Hfresh|].
  split.
  { unfold ActiveStreamsNum. cbn [activeStream].
    now apply map_size_insert_None. }
  split.
  { unfold ID. cbn [streamID]. now rewrite ParseUint_FormatUint by lia. }
  intros r'. unfold OnReceive. cbn [hasServerListener activeStream].
  rewrite Hsrv. cbn [activeStream]. rewrite lookup_insert_eq.
  cbn [direction streamID with_table activeStream].
  rewrite delete_insert_eq. now apply delete_id.
Qed.

Lemma client_stream_lifecycle_witness :
  activeStream (run (newStreamConnection false) [EvNewStream 1])
    !! streamID (fst (NewStream (run (newStreamConnection false) [EvNewStream 1]) 2))
  = None /\
  ActiveStreamsNum (snd (NewStream (run (newStreamConnection false) [EvNewStream 1]) 2))
  = S (ActiveStreamsNum (run (newStreamConnection false) [EvNewStream 1])) /\
  ID (fst (NewStream (run (newStreamConnection false) [EvNewStream 1]) 2))
  = streamIDXprotocolCount (run (newStreamConnection false) [EvNewStream 1]) + 1 /\
  (forall r',
      activeStream
        (OnReceive (snd (NewStream (run (newStreamConnection false) [EvNewStream 1]) 2))
           (streamID (fst (NewStream (run (newStreamConnection false) [EvNewStream 1]) 2)))
           r')
      = activeStream (run (newStreamConnection false) [EvNewStream 1])).
Proof.
  apply (client_stream_lifecycle [EvNewStream 1] 2).
  cbn. lia.
Defined.

(** * X15.  A request goes out under the ID of its stream.  For a client stream
    just made by [NewStream] and a valid dubbo frame, [AppendData] with
    end-of-stream writes one buffer: the frame with the stream's counter
    value in bytes 4 to 11 and nothing else changed, whose [GetStreamID] is
    the ID of the stream, so that the response that carries this ID finds
    the stream in [OnReceive] and takes it out of the table.  The stream
    stays in the table until then.  This holds for counter values below
    [2^63]; from [2^63] on [strconv.ParseInt] rejects the ID and the frame
    is written as it came. *)
Theorem request_carries_stream_ID (conn : streamConnection) (r : nat)
        (data : list byte) :
  0 <= streamIDXprotocolCount conn ->
  streamIDXprotocolCount conn + 1 < 2 ^ 64 ->
  fst (isValidDubboData data) = true ->
  exists f',
    AppendData (snd (NewStream conn r)) (newSender (fst (NewStream conn r)))
               data true
    = Some ({| self := fst (NewStream conn r); encodedData := Some f' |},
            {| after := snd (NewStream conn r); written := [f'];
               destroyed := false |}) /\
    length f' = length data /\
    (forall i, (i < 4 \/ 12 <= i)%nat -> f' !! i = data !! i) /\
    (streamIDXprotocolCount conn + 1 < 2 ^ 63 ->
     GetStreamID f' = streamID (fst (NewStream conn r)) /\
     forall resp r',
       GetStreamID resp = GetStreamID f' ->
       activeStream (OnReceive (snd (NewStream conn r)) (GetStreamID resp) r')
         !! streamID (fst (NewStream conn r)) = None) /\
    (2 ^ 63 <= streamIDXprotocolCount conn + 1 -> f' = data).
Proof.
  intros Hcount Hwrap Hvalid.
  assert (Hu : uint64 (streamIDXprotocolCount conn + 1)
               = streamIDXprotocolCount conn + 1)
    by (unfold uint64; apply Z.mod_small; lia).
  unfold NewStream. cbn [fst snd]. rewrite Hu.
  set (n := streamIDXprotocolCount conn + 1) in *.
  set (s := {| streamID := FormatUint n; direction := ClientStream;
               streamReceiver := r |}).
  set (conn' := {| streamIDXprotocolCount := n;
                   activeStream := <[FormatUint n := s]> (activeStream conn);
                   hasServerListener := hasServerListener conn |}).
  unfold AppendData, newSender. cbn [self streamID s].
  destruct (Z.lt_ge_cases n (2 ^ 63)) as [Hsmall | Hbig].
  - pose proof (ParseInt_FormatUint n ltac:(lia)) as Hparse.
    destruct (DubboAttrFacts.SetStreamID_parsed data (FormatUint n) n Hvalid Hparse)
      as (f' & Hset & Hid & Hv & Hlen & Hout).
    rewrite Hset. exists f'. unfold XStreamSender.endStream, Get.
    cbn [self encodedData streamID direction s activeStream conn'].
    rewrite lookup_insert_eq.
    split; [reflexivity|]. split; [exact Hlen|]. split; [exact Hout|].
    assert (Hget : GetStreamID f' = FormatUint n).
    { rewrite DubboAttrFacts.GetStreamID_valid by (rewrite Hv; exact Hvalid).
      rewrite Hid, Hu. now rewrite BigEndian_Uint64_PutUint64 by lia. }
    split; [|intros; lia].
    intros _. split; [exact Hget|].
    intros resp r' Hresp. rewrite Hresp, Hget.
    unfold OnReceive.
    assert (Hdet : activeStream
                     (if hasServerListener conn'
                      then onNewStreamDetected conn' (FormatUint n) r'
                      else conn') = activeStream conn').
    { destruct (hasServerListener conn'); [|reflexivity].
      unfold onNewStreamDetected, Has. cbn [activeStream conn'].
      rewrite lookup_insert_eq.
      rewrite bool_decide_eq_true_2 by eauto. reflexivity. }
    destruct (hasServerListener conn') eqn:Hsrv.
    + unfold onNewStreamDetected, Has. cbn [activeStream conn'].
      rewrite lookup_insert_eq.
      rewrite bool_decide_eq_true_2 by eauto.
      cbn [activeStream conn']. rewrite lookup_insert_eq.
      cbn [direction s streamID with_table activeStream].
      apply lookup_delete_eq.
    + cbn [activeStream conn']. rewrite lookup_insert_eq.
      cbn [direction s streamID with_table activeStream].
      apply lookup_delete_eq.
  - assert (Hparse : ParseInt (FormatUint n) = None).
    { pose proof (parseDigits_FormatUint n ltac:(lia)) as Hp.
      unfold FormatUint in *.
      destruct (formatBits_head 19 n EmptyString) as (dg & s' & Hd & Hs); [lia|].
      rewrite Hs in *. unfold ParseInt.
      destruct (digit_char_not_sign dg Hd) as [-> ->].
      cbn [orb]. rewrite Hp. cbn [negb andb].
      destruct (Z.leb_spec (2 ^ 63) n); [reflexivity | lia]. }
    rewrite DubboAttrFacts.SetStreamID_unparsed by now right.
    exists data. unfold XStreamSender.endStream, Get.
    cbn [self encodedData streamID direction s activeStream conn'].
    rewrite lookup_insert_eq.
    split; [reflexivity|]. split; [reflexivity|]. split; [reflexivity|].
    split; [intros; lia | reflexivity].
Qed.

Lemma request_carries_stream_ID_witness :
  exists f',
    AppendData (snd (NewStream (newStreamConnection false) 1))
               (newSender (fst (NewStream (newStreamConnection false) 1)))
               sample_frame true
    = Some ({| self := fst (NewStream (newStreamConnection false) 1);
               encodedData := Some f' |},
            {| after := snd (NewStream (newStreamConnection false) 1);
               written := [f']; destroyed := false |}) /\
    length f' = length sample_frame /\
    (forall i, (i < 4 \/ 12 <= i)%nat -> f' !! i = sample_frame !! i) /\
    (streamIDXprotocolCount (newStreamConnection false) + 1 < 2 ^ 63 ->
     GetStreamID f' = streamID (fst (NewStream (newStreamConnection false) 1)) /\
     forall resp r',
       GetStreamID resp = GetStreamID f' ->
       activeStream (OnReceive (snd (NewStream (newStreamConnection false) 1))
                               (GetStreamID resp) r')
         !! streamID (fst (NewStream (newStreamConnection false) 1)) = None) /\
    (2 ^ 63 <= streamIDXprotocolCount (newStreamConnection false) + 1 ->
     f' = sample_frame).
Proof.
  apply (request_carries_stream_ID (newStreamConnection false) 1 sample_frame).
  - cbn. lia.
  - reflexivity.
  - reflexivity.
Defined.

Lemma SetStreamID_returns (d : list byte) (s : string) :
  exists d', SetStreamID d s = Some d'.
Proof.
  destruct (fst (isValidDubboData d)) eqn:Hv.
  - destruct (ParseInt s) as [n|] eqn:Hp.
    + destruct (DubboAttrFacts.SetStreamID_parsed d s n Hv Hp) as (d' & H & _).
      now exists d'.
    + exists d. apply DubboAttrFacts.SetStreamID_unparsed. now right.
  - exists d. apply DubboAttrFacts.SetStreamID_unparsed. now left.
Qed.

(** * X16.  The response of a server stream is written once.  On a connection
    with a server listener a request under an ID that is not in the table
    puts a server stream under this ID.  [AppendData] with end-of-stream on
    it writes one buffer, the data with the ID set, destroys the stream and
    leaves the connection as it was before the request; [AppendTrailers]
    after that finds no stream to end and writes nothing. *)
Theorem server_stream_response_once (conn : streamConnection) (id : string)
        (r : nat) (data : list byte) :
  hasServerListener conn = true ->
  activeStream conn !! id = None ->
  activeStream (OnReceive conn id r)
  = <[id := {| streamID := id; direction := ServerStream;
               streamReceiver := r |}]> (activeStream conn) /\
  exists f',
    SetStreamID data id = Some f' /\
    AppendData (OnReceive conn id r)
               (newSender {| streamID := id; direction := ServerStream;
                             streamReceiver := r |})
               data true
    = Some ({| self := {| streamID := id; direction := ServerStream;
                          streamReceiver := r |};
               encodedData := Some f' |},
            {| after := conn; written := [f']; destroyed := true |}) /\
    AppendTrailers conn
                   {| self := {| streamID := id; direction := ServerStream;
                                 streamReceiver := r |};
                      encodedData := Some f' |}
    = {| after := conn; written := []; destroyed := true |}.
Proof.
  intros Hsrv Hnone.
  set (s := {| streamID := id; direction := ServerStream;
               streamReceiver := r |}).
  assert (Hrecv : OnReceive conn id r
                  = with_table conn (<[id := s]> (activeStream conn))).
  { unfold OnReceive. rewrite Hsrv. unfold onNewStreamDetected, Has.
    rewrite Hnone. rewrite bool_decide_eq_false_2 by (intros [x Hx]; discriminate).
    fold s. cbn [activeStream with_table]. rewrite lookup_insert_eq.
    reflexivity. }
  rewrite Hrecv. split; [reflexivity|].
  destruct (SetStreamID data id) as [f'|] eqn:Hset.
  2:{ destruct (SetStreamID_returns data id) as (d' & Hd').
      congruence. }
  exists f'. split; [reflexivity|].
  unfold AppendData, AppendTrailers, newSender, XStreamSender.endStream, Get.
  cbn [self encodedData streamID direction s activeStream with_table].
  rewrite Hset. cbn [self encodedData streamID direction].
  rewrite lookup_insert_eq, Hnone, delete_insert_eq.
  rewrite delete_id by exact Hnone.
  destruct conn as [c m l]. cbn [with_table streamIDXprotocolCount
    hasServerListener activeStream] in *.
  split; reflexivity.
Qed.

Lemma server_stream_response_once_witness :
  activeStream (OnReceive (newStreamConnection true) "7" 1)
  = <["7"%string := {| streamID := "7"; direction := ServerStream;
                       streamReceiver := 1 |}]>
      (activeStream (newStreamConnection true)) /\
  exists f',
    SetStreamID sample_frame "7" = Some f' /\
    AppendData (OnReceive (newStreamConnection true) "7" 1)
               (newSender {| streamID := "7"; direction := ServerStream;
                             streamReceiver := 1 |})
               sample_frame true
    = Some ({| self := {| streamID := "7"; direction := ServerStream;
                          streamReceiver := 1 |};
               encodedData := Some f' |},
            {| after := newStreamConnection true; written := [f'];
               destroyed := true |}) /\
    AppendTrailers (newStreamConnection true)
                   {| self := {| streamID := "7"; direction := ServerStream;
                                 streamReceiver := 1 |};
                      encodedData := Some f' |}
    = {| after := newStreamConnection true; written := [];
         destroyed := true |}.
Proof.
  apply (server_stream_response_once (newStreamConnection true) "7" 1
                                     sample_frame).
  - reflexivity.
  - reflexivity.
Defined.

End XStreamSenderFacts.

(** ** The HTTP/2 frame scanner *)

Module Http2Facts.
Import GoInt Http2 GoIntFacts.

Lemma copyHeader_take (h b : list byte) :
  length h = 9%nat -> (9 <= length b)%nat -> copyHeader h b = Some (take 9 b).
Proof.
  intros Hh Hb.
  do 9 (destruct h as [|? h]; [discriminate|]).
  destruct h; [|discriminate].
  do 9 (destruct b as [|? b]; [cbn in Hb; lia|]).
  reflexivity.
Qed.

Lemma lor_bound (a b k : Z) :
  0 < k -> 0 <= a < 2 ^ k -> 0 <= b < 2 ^ k -> 0 <= Z.lor a b < 2 ^ k.
Proof.
  intros Hk Ha Hb.
  assert (Hnn : 0 <= Z.lor a b) by (apply Z.lor_nonneg; lia).
  split; [exact Hnn|].
  destruct (Z.eq_dec (Z.lor a b) 0) as [-> | Hnz];
    [apply Z.pow_pos_nonneg; lia|].
  apply Z.log2_lt_pow2; [lia|].
  rewrite Z.log2_lor by lia.
  assert (Hlog : forall x, 0 <= x < 2 ^ k -> Z.log2 x < k).
  { intros x Hx. destruct (Z.eq_dec x 0) as [-> | Hx0]; [cbn; lia|].
    apply Z.log2_lt_pow2; lia. }
  apply Z.max_lub_lt; now apply Hlog.
Qed.

Lemma frameLength_range (b : list byte) : 0 <= frameLength b < 2 ^ 24.
Proof.
  unfold frameLength, uint32.
  pose proof (u8_range (nth 0 b x00)) as H0.
  pose proof (u8_range (nth 1 b x00)) as H1.
  pose proof (u8_range (nth 2 b x00)) as H2.
  rewrite !Z.shiftl_mul_pow2 by lia.
  rewrite !Z.mod_small by lia.
  apply lor_bound; [lia| |lia].
  apply lor_bound; lia.
Qed.

Lemma int64_small (z : Z) : - 2 ^ 63 <= z < 2 ^ 63 -> int64 z = z.
Proof. intros Hz. unfold int64. rewrite Z.mod_small; lia. Qed.

(** More fuel does not change what the loop comes to. *)
Lemma Decode_loop_mono (fuel : nat) :
  forall fuel' buf size p off calls o,
    Decode_loop fuel buf size p off calls = Some o ->
    (fuel <= fuel')%nat ->
    Decode_loop fuel' buf size p off calls = Some o.
Proof.
  induction fuel as [|fuel IH]; intros fuel' buf size p off calls o Hrun Hle;
    [discriminate|].
  destruct fuel' as [|fuel']; [lia|].
  cbn [Decode_loop] in *.
  destruct (parseHeader p).
  - destruct (int64 (off + http2frameHeaderLen) >? size); [assumption|].
    destruct (copyHeader (header p) (drop (Z.to_nat off) buf)); [|assumption].
    apply (IH fuel'); [assumption | lia].
  - destruct (int64 (off + frameLength (header p)) >? size); [assumption|].
    apply (IH fuel'); [assumption | lia].
Qed.

(** The loop ends, and without a panic. *)
Lemma Decode_loop_returns (fuel : nat) :
  forall (buf : list byte) (p : protocols) (off : Z) (calls : nat),
    Z.of_nat (length buf) < 2 ^ 62 ->
    length (header p) = 9%nat ->
    0 <= off <= Z.of_nat (length buf) ->
    2 * (Z.of_nat (length buf) - off) + (if parseHeader p then 2 else 3)
    <= Z.of_nat fuel ->
    exists p' off' calls',
      Decode_loop fuel buf (Z.of_nat (length buf)) p off calls
      = Some (Returned p' off' calls') /\
      preface p' = preface p /\
      length (header p') = 9%nat /\
      off <= off' <= Z.of_nat (length buf) /\
      (calls <= calls')%nat /\
      Z.of_nat calls' - Z.of_nat calls
      <= 2 * ((off' - off) / 9) + (if parseHeader p then 0 else 1) + 1 /\
      (if parseHeader p'
       then Z.of_nat (length buf) < off' + http2frameHeaderLen
       else Z.of_nat (length buf) < off' + frameLength (header p')).
Proof.
  unfold http2frameHeaderLen.
  induction fuel as [|fuel IH]; intros buf p off calls Hsize Hh Hoff Hfuel.
  - destruct (parseHeader p); lia.
  - cbn [Decode_loop]. unfold http2frameHeaderLen.
    destruct (parseHeader p) eqn:Hph.
    + rewrite int64_small by lia.
      destruct (Z.gtb_spec (off + 9) (Z.of_nat (length buf))) as [Hgt|Hle].
      * exists p, off, calls. rewrite Hph.
        repeat split; try lia; try reflexivity; try assumption.
        rewrite !Z.sub_diag. change (0 / 9) with 0. lia.
      * rewrite (copyHeader_take (header p) (drop (Z.to_nat off) buf))
          by (try rewrite length_drop; lia).
        destruct (IH buf
                    {| preface := preface p; parseHeader := false;
                       header := take 9 (drop (Z.to_nat off) buf) |}
                    (off + 9) (S calls))
          as (p' & off' & calls' & Hrun & Hpre & Hlen & Hoff' & Hcalls & Hcount & Hstop);
          cbn [parseHeader header preface];
          try lia.
        { rewrite length_take, length_drop. lia. }
        exists p', off', calls'. rewrite Hrun.
        cbn [parseHeader preface] in *.
        repeat split; try lia; try assumption.
        replace (off' - off) with ((off' - (off + 9)) + 1 * 9) by lia.
        rewrite Z.div_add by lia. lia.
    + pose proof (frameLength_range (header p)) as Hrange.
      rewrite int64_small by lia.
      destruct (Z.gtb_spec (off + frameLength (header p))
                           (Z.of_nat (length buf))) as [Hgt|Hle].
      * exists p, off, calls. rewrite Hph.
        repeat split; try lia; try reflexivity; try assumption.
        rewrite !Z.sub_diag. change (0 / 9) with 0. lia.
      * destruct (IH buf
                    {| preface := preface p; parseHeader := true;
                       header := header p |}
                    (off + frameLength (header p)) (S calls))
          as (p' & off' & calls' & Hrun & Hpre & Hlen & Hoff' & Hcalls & Hcount & Hstop);
          cbn [parseHeader header preface];
          try lia; try assumption.
        exists p', off', calls'. rewrite Hrun.
        cbn [parseHeader preface] in *.
        repeat split; try lia; try assumption.
        assert ((off' - (off + frameLength (header p))) / 9 <= (off' - off) / 9)
          by (apply Z.div_le_mono; lia).
        lia.
Qed.

(** * X17.  [Decode] always returns.  Whatever the decoder has seen before and
    whatever the bytes are, [Decode] ends without a panic (the loop ends
    although a frame without payload does not move the offset).  It calls
    the filter at most [2 * (len / 9) + 2] times, keeps the offset within
    the buffer, and stops only where the bytes left are fewer than the
    header or the payload that comes next.  The preface is taken as seen
    once 24 bytes have come in one buffer, whatever they are; a shorter
    first buffer changes nothing and calls nothing. *)
Theorem Decode_returns (p : protocols) (buf : list byte) :
  length (header p) = 9%nat ->
  Z.of_nat (length buf) < 2 ^ 62 ->
  exists p' off calls,
    Decode p buf = Some (Returned p' off calls) /\
    length (header p') = 9%nat /\
    0 <= off <= Z.of_nat (length buf) /\
    Z.of_nat calls <= 2 * (Z.of_nat (length buf) / 9) + 2 /\
    preface p' = preface p || (24 <=? Z.of_nat (length buf)) /\
    (preface p' = true ->
     if parseHeader p'
     then Z.of_nat (length buf) < off + http2frameHeaderLen
     else Z.of_nat (length buf) < off + frameLength (header p')) /\
    (preface p' = false -> p' = p /\ off = 0 /\ calls = O).
Proof.
  intros Hh Hsize. unfold Decode.
  change (Z.of_nat (String.length clientPreface)) with 24.
  destruct (preface p) eqn:Hpre; cbn [negb orb].
  - destruct (Decode_loop_returns (2 * length buf + 4) buf p 0 0)
      as (p' & off' & calls' & Hrun & Hp & Hlen & Hoff & _ & Hcount & Hstop);
      try assumption; try lia.
    { destruct (parseHeader p); lia. }
    exists p', off', calls'. rewrite Hrun.
    split; [reflexivity|]. split; [assumption|]. split; [lia|].
    assert ((off' - 0) / 9 <= Z.of_nat (length buf) / 9)
      by (apply Z.div_le_mono; lia).
    split; [destruct (parseHeader p); lia|].
    split; [congruence|]. split; [intros _; exact Hstop|].
    intros Hf. congruence.
  - destruct (Z.geb_spec (Z.of_nat (length buf)) 24) as [Hge|Hlt].
    + destruct (Decode_loop_returns (2 * length buf + 4) buf
                  {| preface := true; parseHeader := true; header := header p |}
                  24 1)
        as (p' & off' & calls' & Hrun & Hp & Hlen & Hoff & _ & Hcount & Hstop);
        cbn [parseHeader header preface] in *; try assumption; try lia.
      exists p', off', calls'. rewrite Hrun.
      split; [reflexivity|]. split; [assumption|]. split; [lia|].
      assert (Hdiv : (off' - 24) / 9 + 2 <= Z.of_nat (length buf) / 9).
      { replace (Z.of_nat (length buf))
          with ((Z.of_nat (length buf) - 18) + 2 * 9) by lia.
        rewrite Z.div_add by lia.
        assert ((off' - 24) / 9 <= (Z.of_nat (length buf) - 18) / 9)
          by (apply Z.div_le_mono; lia).
        lia. }
      split; [lia|].
      destruct (Z.leb_spec 24 (Z.of_nat (length buf))); [|lia].
      split; [assumption|]. split; [intros _; exact Hstop|].
      intros Hf. congruence.
    + exists p, 0, O.
      split; [reflexivity|]. split; [assumption|]. split; [lia|].
      assert (0 <= Z.of_nat (length buf) / 9) by (apply Z.div_pos; lia).
      split; [lia|].
      destruct (Z.leb_spec 24 (Z.of_nat (length buf))); [lia|].
      split; [assumption|]. split; [congruence|]. auto.
Qed.

Lemma Decode_returns_witness :
  exists p' off calls,
    Decode NewProtocols (prefaceBytes ++ [x00; x00; x00]) =
      Some (Returned p' off calls) /\
    length (header p') = 9%nat /\
    0 <= off <= Z.of_nat (length (prefaceBytes ++ [x00; x00; x00])) /\
    Z.of_nat calls
    <= 2 * (Z.of_nat (length (prefaceBytes ++ [x00; x00; x00])) / 9) + 2 /\
    preface p'
    = preface NewProtocols
      || (24 <=? Z.of_nat (length (prefaceBytes ++ [x00; x00; x00]))) /\
    (preface p' = true ->
     if parseHeader p'
     then Z.of_nat (length (prefaceBytes ++ [x00; x00; x00]))
          < off + http2frameHeaderLen
     else Z.of_nat (length (prefaceBytes ++ [x00; x00; x00]))
          < off + frameLength (header p')) /\
    (preface p' = false -> p' = NewProtocols /\ off = 0 /\ calls = O).
Proof.
  apply (Decode_returns NewProtocols (prefaceBytes ++ [x00; x00; x00])).
  - reflexivity.
  - vm_compute. reflexivity.
Defined.

Lemma lastHeader_cons (h f : list byte) (fs : list (list byte)) :
  lastHeader h (f :: fs) = lastHeader (take 9 f) fs.
Proof.
  unfold lastHeader. rewrite last_cons. now destruct (last fs).
Qed.

Lemma wholeFrame_length (f : list byte) :
  wholeFrame f -> (9 <= length f)%nat.
Proof.
  unfold wholeFrame, http2frameHeaderLen. intros Hf.
  pose proof (frameLength_range (take 9 f)). lia.
Qed.

Lemma frames_count (frames : list (list byte)) :
  Forall wholeFrame frames -> (length frames <= length (concat frames))%nat.
Proof.
  induction 1 as [|f fs Hf _ IH]; [reflexivity|].
  cbn [concat length]. rewrite length_app.
  apply wholeFrame_length in Hf. lia.
Qed.

(** The loop on whole frames: two calls of the filter for each. *)
Lemma Decode_loop_frames (frames : list (list byte)) :
  forall (done tail : list byte) (p : protocols) (calls : nat),
    Forall wholeFrame frames ->
    (length tail < 9)%nat ->
    Z.of_nat (length (done ++ concat frames ++ tail)) < 2 ^ 62 ->
    length (header p) = 9%nat ->
    parseHeader p = true ->
    Decode_loop (2 * length frames + 1) (done ++ concat frames ++ tail)
                (Z.of_nat (length (done ++ concat frames ++ tail)))
                p (Z.of_nat (length done)) calls
    = Some (Returned {| preface := preface p; parseHeader := true;
                        header := lastHeader (header p) frames |}
                     (Z.of_nat (length done + length (concat frames)))
                     (calls + 2 * length frames)).
Proof.
  induction frames as [|f fs IH]; intros done tail p calls Hall Htail Hsize Hh Hph.
  - cbn [length concat Nat.mul Nat.add Decode_loop]. rewrite Hph.
    unfold http2frameHeaderLen. rewrite !length_app in *. cbn [length] in *.
    rewrite int64_small by lia.
    destruct (Z.gtb_spec (Z.of_nat (length done) + 9)
                         (Z.of_nat (length done + (0 + length tail))));
      [|lia].
    destruct p as [pre ph h]. cbn in *. subst ph.
    do 3 f_equal; lia.
  - apply Forall_cons in Hall as [Hf Hfs].
    pose proof (wholeFrame_length f Hf) as Hf9.
    pose proof (frameLength_range (take 9 f)) as Hrange.
    unfold wholeFrame, http2frameHeaderLen in Hf.
    replace (2 * length (f :: fs) + 1)%nat
      with (S (S (2 * length fs + 1))) by (cbn [length]; lia).
    cbn [concat] in *.
    assert (Hlen : Z.of_nat (length (done ++ (f ++ concat fs) ++ tail))
                   = Z.of_nat (length done) + Z.of_nat (length f)
                     + Z.of_nat (length (concat fs)) + Z.of_nat (length tail))
      by (rewrite !length_app; lia).
    cbn [Decode_loop]. rewrite Hph. unfold http2frameHeaderLen.
    rewrite int64_small by lia.
    destruct (Z.gtb_spec (Z.of_nat (length done) + 9)
                (Z.of_nat (length (done ++ (f ++ concat fs) ++ tail))));
      [lia|].
    rewrite Nat2Z.id.
    assert (Hdrop : drop (length done) (done ++ (f ++ concat fs) ++ tail)
                    = f ++ concat fs ++ tail)
      by (rewrite drop_app_length; now rewrite <- app_assoc).
    rewrite Hdrop.
    rewrite copyHeader_take by (try rewrite length_app; lia).
    rewrite take_app_le by lia.
    cbn [parseHeader header preface].
    rewrite int64_small by lia.
    destruct (Z.gtb_spec (Z.of_nat (length done) + 9 + frameLength (take 9 f))
                (Z.of_nat (length (done ++ (f ++ concat fs) ++ tail))));
      [lia|].
    replace (Z.of_nat (length done) + 9 + frameLength (take 9 f))
      with (Z.of_nat (length (done ++ f))) by (rewrite length_app; lia).
    replace (done ++ (f ++ concat fs) ++ tail)
      with ((done ++ f) ++ concat fs ++ tail)
      by (now rewrite <- !app_assoc).
    rewrite (IH (done ++ f) tail
               {| preface := preface p; parseHeader := true;
                  header := take 9 f |} (S (S calls)));
      cbn [preface parseHeader header]; try assumption; try reflexivity.
    + rewrite lastHeader_cons. rewrite !length_app. cbn [length].
      do 2 f_equal; lia.
    + rewrite <- !app_assoc. rewrite <- !app_assoc in Hsize. exact Hsize.
    + rewrite length_take. lia.
Qed.

(** * X18.  Whole frames are scanned two calls at a time.  A decoder that has
    not seen the preface, given one buffer with 24 bytes of preface, any
    number of whole frames (nine bytes of header, the payload length in the
    first three, and the payload) and fewer than nine bytes more, calls the
    filter once for the preface and twice for each frame, stops behind the
    last frame in the header state, and holds the header of the last frame.
    The bytes of the preface are not looked at. *)
Theorem Decode_whole_frames (p : protocols) (pre tail : list byte)
        (frames : list (list byte)) :
  preface p = false ->
  length (header p) = 9%nat ->
  length pre = 24%nat ->
  Forall wholeFrame frames ->
  (length tail < 9)%nat ->
  Z.of_nat (length (pre ++ concat frames ++ tail)) < 2 ^ 62 ->
  Decode p (pre ++ concat frames ++ tail)
  = Some (Returned {| preface := true; parseHeader := true;
                      header := lastHeader (header p) frames |}
                   (24 + Z.of_nat (length (concat frames)))
                   (1 + 2 * length frames)).
Proof.
  intros Hpre Hh Hlen Hall Htail Hsize. unfold Decode. rewrite Hpre.
  cbn [negb]. change (Z.of_nat (String.length clientPreface)) with 24.
  destruct (Z.geb_spec (Z.of_nat (length (pre ++ concat frames ++ tail))) 24)
    as [_|Hlt]; [|rewrite length_app in Hlt; lia].
  pose proof (Decode_loop_frames frames pre tail
                {| preface := true; parseHeader := true; header := header p |}
                1 Hall Htail Hsize Hh eq_refl) as Hrun.
  rewrite Hlen in Hrun. cbn [preface header] in Hrun.
  apply (Decode_loop_mono _ (2 * length (pre ++ concat frames ++ tail) + 4))
    in Hrun.
  - change (Z.of_nat 24) with 24 in Hrun. rewrite Hrun.
    do 2 f_equal. lia.
  - pose proof (frames_count frames Hall). rewrite !length_app. lia.
Qed.

Lemma Decode_whole_frames_witness :
  Decode NewProtocols
         (prefaceBytes ++ concat [settingsFrame; dataFrame] ++ [x00])
  = Some (Returned {| preface := true; parseHeader := true;
                      header := lastHeader (header NewProtocols)
                                           [settingsFrame; dataFrame] |}
                   (24 + Z.of_nat (length (concat [settingsFrame; dataFrame])))
                   (1 + 2 * length [settingsFrame; dataFrame])).
Proof.
  apply (Decode_whole_frames NewProtocols prefaceBytes [x00]
                             [settingsFrame; dataFrame]).
  - reflexivity.
  - reflexivity.
  - reflexivity.
  - repeat constructor.
  - cbn. lia.
  - vm_compute. reflexivity.
Defined.

End Http2Facts.

(** ** The xDS start parameters *)

Module XdsFlagsFacts.
Import XdsFlags.

Lemma cutAtFirst_colon (s : string) :
  cutAtFirst serviceMetaSeparator s
  = match s with
    | EmptyString => None
    | String c s' =>
        if Ascii.eqb c ":" then Some (EmptyString, s')
        else match cutAtFirst serviceMetaSeparator s' with
             | Some (before, after) => Some (String c before, after)
             | None => None
             end
    end.
Proof.
  destruct s as [|c s']; [reflexivity|].
  unfold serviceMetaSeparator. cbn [cutAtFirst String.prefix String.length].
  destruct (ascii_dec ":" c) as [<- | Hne].
  - destruct s'; reflexivity.
  - destruct (Ascii.eqb_spec c ":") as [-> | _]; [congruence|].
    reflexivity.
Qed.

(** The pieces, put together again, are the string, and the first is free
    of the separator. *)
Lemma cutAtFirst_Some (s : string) :
  forall key value : string,
    cutAtFirst serviceMetaSeparator s = Some (key, value) <->
    s = (key ++ serviceMetaSeparator ++ value)%string /\ noSeparator key.
Proof.
  unfold noSeparator.
  induction s as [|c s IH]; intros key value; rewrite cutAtFirst_colon.
  - split; [discriminate|]. intros [H _]. destruct key; discriminate.
  - destruct (Ascii.eqb_spec c ":") as [-> | Hne].
    + split.
      * intros [= <- <-]. split; reflexivity.
      * intros [H Hk]. destruct key as [|d key].
        -- cbn in H. now injection H as ->.
        -- cbn in H. injection H as <- _.
           rewrite cutAtFirst_colon in Hk. cbn in Hk. discriminate.
    + split.
      * intros H.
        destruct (cutAtFirst serviceMetaSeparator s) as [[b a]|] eqn:E;
          [|discriminate].
        injection H as <- <-.
        destruct (proj1 (IH b a) eq_refl) as [-> Hb]. split; [reflexivity|].
        rewrite cutAtFirst_colon.
        destruct (Ascii.eqb_spec c ":"); [congruence|]. now rewrite Hb.
      * intros [H Hk]. destruct key as [|d key].
        -- cbn in H. injection H as -> _. congruence.
        -- cbn in H. injection H as <- ->.
           rewrite cutAtFirst_colon in Hk.
           destruct (Ascii.eqb_spec c ":"); [congruence|].
           destruct (cutAtFirst serviceMetaSeparator key) as [[? ?]|] eqn:Ek;
             [discriminate|].
           rewrite (proj2 (IH key value) (conj eq_refl Ek)). reflexivity.
Qed.

Lemma addMeta_cases (fields : gmap string string) (keyValue : string) :
  (exists key value,
      cutAtFirst serviceMetaSeparator keyValue = Some (key, value) /\
      addMeta fields keyValue = <[key := value]> fields) \/
  (cutAtFirst serviceMetaSeparator keyValue = None /\
   addMeta fields keyValue = fields).
Proof.
  unfold addMeta, SplitN2.
  destruct (cutAtFirst serviceMetaSeparator keyValue) as [[k v]|].
  - left. now exists k, v.
  - right. split; reflexivity.
Qed.

(** * X19.  The metadata of the xDS start parameters.  [InitXdsFlags] stores
    the cluster and the node and makes the metadata anew: an entry
    [key:value] is cut at its first separator, so that the value may hold
    separators and the key may be empty; an entry without a separator is
    skipped; and of several entries with one key the last one counts. *)
Theorem InitXdsFlags_metadata (serviceCluster serviceNode : string)
        (serviceMeta : list string) :
  ServiceCluster (InitXdsFlags serviceCluster serviceNode serviceMeta)
  = serviceCluster /\
  ServiceNode (InitXdsFlags serviceCluster serviceNode serviceMeta)
  = serviceNode /\
  exists fields,
    Metadata (InitXdsFlags serviceCluster serviceNode serviceMeta)
    = Some fields /\
    forall key value,
      fields !! key = Some value <->
      exists before after,
        serviceMeta
        = before ++ (key ++ serviceMetaSeparator ++ value)%string :: after /\
        noSeparator key /\
        Forall (fun keyValue =>
                  forall v, keyValue
                            <> (key ++ serviceMetaSeparator ++ v)%string)
               after.
Proof.
  split; [reflexivity|]. split; [reflexivity|].
  exists (fold_left addMeta serviceMeta ∅). split; [reflexivity|].
  induction serviceMeta as [|e l IH] using rev_ind; intros key value.
  - cbn [fold_left]. rewrite lookup_empty. split; [discriminate|].
    intros (b & a & H & _). destruct b; discriminate.
  - rewrite fold_left_app. cbn [fold_left].
    destruct (addMeta_cases (fold_left addMeta l ∅) e)
      as [(k & v & Hcut & ->) | [Hcut ->]].
    + apply cutAtFirst_Some in Hcut as Hparts. destruct Hparts as [-> Hk].
      destruct (decide (k = key)) as [-> | Hne].
      * rewrite lookup_insert_eq. split.
        -- intros [= ->]. exists l, []. split; [reflexivity|].
           split; [assumption | constructor].
        -- intros (b & a & Heq & Hkey & Hafter).
           destruct a as [|x a _] using rev_ind.
           ++ apply app_inj_tail in Heq as [_ Heq].
              assert (Hc : cutAtFirst serviceMetaSeparator
                             (key ++ serviceMetaSeparator ++ v)
                           = Some (key, value)).
              { rewrite Heq. apply cutAtFirst_Some. now split. }
              rewrite (proj2 (cutAtFirst_Some _ key v) (conj eq_refl Hk)) in Hc.
              congruence.
           ++ rewrite app_comm_cons, app_assoc in Heq.
              apply app_inj_tail in Heq as [_ Heq].
              apply Forall_app in Hafter as [_ Hx].
              apply Forall_cons in Hx as [Hx _].
              exfalso. apply (Hx v). now symmetry.
      * rewrite lookup_insert_ne by assumption. rewrite IH. split.
        -- intros (b & a & -> & Hkey & Hafter).
           exists b, (a ++ [(k ++ serviceMetaSeparator ++ v)%string]).
           split; [now rewrite <- app_assoc|]. split; [assumption|].
           apply Forall_app. split; [assumption|].
           constructor; [|constructor].
           intros v' Heq.
           assert (Hc : cutAtFirst serviceMetaSeparator
                          (k ++ serviceMetaSeparator ++ v) = Some (key, v')).
           { rewrite Heq. apply cutAtFirst_Some. now split. }
           rewrite (proj2 (cutAtFirst_Some _ k v) (conj eq_refl Hk)) in Hc.
           congruence.
        -- intros (b & a & Heq & Hkey & Hafter).
           destruct a as [|x a _] using rev_ind.
           ++ apply app_inj_tail in Heq as [_ Heq].
              assert (Hc : cutAtFirst serviceMetaSeparator
                             (k ++ serviceMetaSeparator ++ v)
                           = Some (key, value)).
              { rewrite Heq. apply cutAtFirst_Some. now split. }
              rewrite (proj2 (cutAtFirst_Some _ k v) (conj eq_refl Hk)) in Hc.
              congruence.
           ++ rewrite app_comm_cons, app_assoc in Heq.
              apply app_inj_tail in Heq as [-> _].
              apply Forall_app in Hafter as [Ha _].
              exists b, a. auto.
    + rewrite IH. split.
      * intros (b & a & -> & Hkey & Hafter).
        exists b, (a ++ [e]). split; [now rewrite <- app_assoc|].
        split; [assumption|]. apply Forall_app. split; [assumption|].
        constructor; [|constructor].
        intros v' ->.
        rewrite (proj2 (cutAtFirst_Some _ key v') (conj eq_refl Hkey)) in Hcut.
        discriminate.
      * intros (b & a & Heq & Hkey & Hafter).
        destruct a as [|x a _] using rev_ind.
        -- apply app_inj_tail in Heq as [_ ->].
           rewrite (proj2 (cutAtFirst_Some _ key value) (conj eq_refl Hkey))
             in Hcut.
           discriminate.
        -- rewrite app_comm_cons, app_assoc in Heq.
           apply app_inj_tail in Heq as [-> _].
           apply Forall_app in Hafter as [Ha _].
           exists b, a. auto.
Qed.

(** The entries of a start command, with a value that holds the separator,
    a key that comes twice and an entry without separator. *)
Example InitXdsFlags_sample :
  Metadata (InitXdsFlags "c" "n"
              ["zone:a"; "addr:10.0.0.1:80"; "flag"; "zone:b"; ":x"])
  = Some {[ "zone" := "b"; "addr" := "10.0.0.1:80"; "" := "x" ]}.
Proof.
  vm_compute. reflexivity.
Qed.

End XdsFlagsFacts.

(** ** The feature gate *)

Module FeatureGateFacts.
Import FeatureGate.

Example testGate_known :
  fst (Add NewFeatureGate testSpecs) = None /\
  Enabled testGate "TestAlpha" = false /\
  Enabled testGate "TestLockedTrue" = true /\
  Enabled testGate "missingFeature" = false.
Proof. vm_compute. auto. Qed.

(** [sort.Strings] sorts by a total order. *)
Lemma string_le_trans (a b c : string) :
  string_le a b -> string_le b c -> string_le a c.
Proof.
  unfold string_le, String.leb. revert b c.
  induction a as [|x a IH]; intros [|y b] [|z c]; cbn;
    try congruence; try reflexivity.
  unfold Ascii.compare.
  destruct (N.compare_spec (N_of_ascii x) (N_of_ascii y)) as [Hxy|Hxy|Hxy],
           (N.compare_spec (N_of_ascii y) (N_of_ascii z)) as [Hyz|Hyz|Hyz],
           (N.compare_spec (N_of_ascii x) (N_of_ascii z)) as [Hxz|Hxz|Hxz];
    try congruence; try reflexivity; try lia.
  apply IH.
Qed.

#[local] Instance string_le_transitive : Transitive string_le.
Proof. intros a b c. apply string_le_trans. Qed.

#[local] Instance string_le_antisym : AntiSymm eq string_le.
Proof. intros a b. apply String.leb_antisym. Qed.

#[local] Instance string_le_total : Total string_le.
Proof. intros a b. apply String.leb_total. Qed.

(** The info string does not depend on the order in which [enabled] is
    ranged over. *)
Lemma infoOf_any_order (enabled : gmap Feature bool)
      (l : list (Feature * bool)) :
  l ≡ₚ map_to_list enabled ->
  Join (merge_sort string_le (map (fun kv => pair_string (fst kv) (snd kv)) l))
       ","
  = infoOf enabled.
Proof.
  intros Hperm. unfold infoOf. f_equal.
  apply (Sorted_unique string_le).
  - apply Sorted_merge_sort, _.
  - apply Sorted_merge_sort, _.
  - rewrite !merge_sort_Permutation. now rewrite Hperm.
Qed.

Lemma setUnsetAlphaGates_lookup (known : gmap Feature FeatureSpec)
      (enabled : gmap Feature bool) (val : bool) (k : Feature) :
  setUnsetAlphaGates known enabled val !! k
  = match enabled !! k with
    | Some b => Some b
    | None =>
        match known !! k with
        | Some v => if String.eqb (PreRelease v) Alpha then Some val else None
        | None => None
        end
    end.
Proof.
  unfold setUnsetAlphaGates. revert k.
  apply (map_fold_weak_ind
           (fun (r : gmap Feature bool) (m : gmap Feature FeatureSpec) =>
              forall k,
                r !! k
                = match enabled !! k with
                  | Some b => Some b
                  | None =>
                      match m !! k with
                      | Some v =>
                          if String.eqb (PreRelease v) Alpha
                          then Some val else None
                      | None => None
                      end
                  end)).
  - intros k. rewrite lookup_empty. now destruct (enabled !! k).
  - intros i x m r Hi IH k.
    destruct (decide (k = i)) as [-> | Hne].
    + rewrite lookup_insert_eq.
      destruct (String.eqb (PreRelease x) Alpha).
      * pose proof (IH i) as Hr. rewrite Hi in Hr.
        destruct (r !! i) as [b|] eqn:Er.
        -- rewrite Er. destruct (enabled !! i); [exact Hr | discriminate].
        -- rewrite lookup_insert_eq. now destruct (enabled !! i).
      * rewrite IH, Hi. reflexivity.
    + rewrite lookup_insert_ne by congruence.
      destruct (String.eqb (PreRelease x) Alpha); [|apply IH].
      destruct (r !! i); [apply IH|].
      rewrite lookup_insert_ne by congruence. apply IH.
Qed.

Lemma valueOf_cons (k0 : string) (v0 : bool) (m : list (string * bool))
      (k : string) :
  valueOf ((k0, v0) :: m) k = if decide (k = k0) then Some v0 else valueOf m k.
Proof.
  unfold valueOf. cbn [list_to_map foldr]. cbn.
  destruct (decide (k = k0)) as [-> | Hne].
  - apply lookup_insert_eq.
  - now apply lookup_insert_ne.
Qed.

Lemma valueOf_not_in (m : list (string * bool)) (k : string) :
  k ∉ m.*1 -> valueOf m k = None.
Proof. intros Hk. unfold valueOf. now apply not_elem_of_list_to_map_1. Qed.

(** What the loop of [SetFromMap] makes of [enabled]. *)
Lemma SetFromMap_loop_enabled (known : gmap Feature FeatureSpec)
      (m : list (string * bool)) :
  NoDup m.*1 ->
  forall enabled enabled',
    SetFromMap_loop known enabled m = inr enabled' ->
    forall k,
      enabled' !! k
      = match valueOf m k with
        | Some v => Some v
        | None =>
            match enabled !! k with
            | Some b => Some b
            | None =>
                match valueOf m allAlphaGate, known !! k with
                | Some a, Some spec =>
                    if String.eqb (PreRelease spec) Alpha
                    then Some a else None
                | _, _ => None
                end
            end
        end.
Proof.
  induction m as [|[k0 v0] m IH]; intros Hnd enabled enabled' Hrun k.
  - cbn in Hrun. injection Hrun as <-. cbn. now destruct (enabled !! k).
  - cbn [fmap list_fmap fst] in Hnd. apply NoDup_cons in Hnd as [Hk0 Hnd].
    cbn [SetFromMap_loop] in Hrun.
    destruct (known !! k0) as [spec0|] eqn:Ek0; [|discriminate].
    destruct (LockToDefault spec0 && negb (Bool.eqb (Default spec0) v0));
      [discriminate|].
    rewrite (IH Hnd _ _ Hrun k). rewrite !valueOf_cons.
    pose proof (valueOf_not_in m k0 Hk0) as Hnone.
    unfold special.
    destruct (decide (k = k0)) as [-> | Hne].
    + rewrite Hnone.
      destruct (String.eqb_spec k0 allAlphaGate) as [-> | Hs].
      * rewrite setUnsetAlphaGates_lookup, lookup_insert_eq. reflexivity.
      * now rewrite lookup_insert_eq.
    + destruct (valueOf m k) as [v|]; [reflexivity|].
      destruct (String.eqb_spec k0 allAlphaGate) as [-> | Hs].
      * rewrite setUnsetAlphaGates_lookup.
        rewrite lookup_insert_ne by congruence.
        rewrite decide_True by reflexivity.
        rewrite Hnone.
        destruct (enabled !! k); [reflexivity|].
        destruct (known !! k) as [spec|]; [|reflexivity].
        now destruct (String.eqb (PreRelease spec) Alpha).
      * rewrite lookup_insert_ne by congruence.
        rewrite decide_False by congruence. reflexivity.
Qed.

(** The loop fails exactly on an entry that cannot be set. *)
Lemma SetFromMap_loop_settable (known : gmap Feature FeatureSpec)
      (m : list (string * bool)) :
  forall enabled,
    (exists enabled', SetFromMap_loop known enabled m = inr enabled') <->
    Forall (settable known) m.
Proof.
  induction m as [|[k0 v0] m IH]; intros enabled.
  - split; [constructor | intros _; now exists enabled].
  - cbn [SetFromMap_loop]. split.
    + intros [enabled' Hrun].
      destruct (known !! k0) as [spec0|] eqn:Ek0; [|discriminate].
      destruct (LockToDefault spec0) eqn:El;
        destruct (Bool.eqb (Default spec0) v0) eqn:Ed;
        cbn [andb negb] in Hrun; try discriminate.
      all: constructor; [|eapply IH; eauto].
      all: exists spec0; cbn [fst snd]; split; [assumption|].
      all: intros Hl; try congruence; now apply Bool.eqb_prop.
    + intros Hall. apply Forall_cons in Hall as [(spec0 & Hk & Hlock) Hall].
      cbn [fst snd] in *. rewrite Hk.
      destruct (LockToDefault spec0) eqn:El; cbn [andb].
      * rewrite (Hlock eq_refl), Bool.eqb_reflx. cbn [negb].
        now apply IH.
      * now apply IH.
Qed.

Lemma SetFromMap_fst (f : defaultFeatureGate) (m : list (string * bool)) :
  fst (SetFromMap f m) = None <->
  exists enabled', SetFromMap_loop (known f) (enabled f) m = inr enabled'.
Proof.
  unfold SetFromMap.
  destruct (SetFromMap_loop (known f) (enabled f) m) as [e|en]; cbn [fst].
  - split; [discriminate | intros [? ?]; discriminate].
  - split; [eauto | reflexivity].
Qed.

Lemma valueOf_Permutation (m m' : list (string * bool)) (k : string) :
  NoDup m.*1 -> m' ≡ₚ m -> valueOf m' k = valueOf m k.
Proof.
  intros Hnd Hperm. unfold valueOf.
  now rewrite (list_to_map_proper (M := gmap string) m m' Hnd
                 (symmetry Hperm)).
Qed.

Lemma SetFromMap_settable (f : defaultFeatureGate)
      (m : list (string * bool)) :
  fst (SetFromMap f m) = None <-> Forall (settable (known f)) m.
Proof. rewrite SetFromMap_fst. apply SetFromMap_loop_settable. Qed.

Lemma SetFromMap_unchanged (f : defaultFeatureGate)
      (m : list (string * bool)) :
  fst (SetFromMap f m) <> None -> snd (SetFromMap f m) = f.
Proof.
  unfold SetFromMap.
  destruct (SetFromMap_loop (known f) (enabled f) m); cbn [fst snd];
    [reflexivity | congruence].
Qed.

Lemma SetFromMap_enabled (f : defaultFeatureGate) (m : list (string * bool)) :
  NoDup m.*1 ->
  fst (SetFromMap f m) = None ->
  known (snd (SetFromMap f m)) = known f /\
  forall k,
    enabled (snd (SetFromMap f m)) !! k
    = match valueOf m k with
      | Some v => Some v
      | None =>
          match enabled f !! k with
          | Some b => Some b
          | None =>
              match valueOf m allAlphaGate, known f !! k with
              | Some a, Some spec =>
                  if String.eqb (PreRelease spec) Alpha then Some a else None
              | _, _ => None
              end
          end
      end.
Proof.
  intros Hnd. unfold SetFromMap.
  destruct (SetFromMap_loop (known f) (enabled f) m) as [e|en] eqn:Hrun;
    cbn [fst snd]; [discriminate|]. intros _.
  split; [reflexivity|]. now apply SetFromMap_loop_enabled.
Qed.

(** * X20.  What [SetFromMap] does.  For a map [m], ranged over in whatever
    order: the call fails exactly when [m] holds a feature that is not
    known, or a value for a locked feature that is not its default, and
    then the gate is left as it is.  When it succeeds, a feature of [m] has
    the value [m] gives it; of the others, those that had a value keep it,
    and a known alpha feature without one takes the value of [AllAlpha],
    should [m] hold it; nothing else of the gate changes but the info
    string, which is made of the pairs of [enabled] in sorted order.
    Neither the outcome nor the gate depends on the order of the range. *)
Theorem SetFromMap_outcome (f : defaultFeatureGate)
        (m : list (string * bool)) :
  NoDup m.*1 ->
  (fst (SetFromMap f m) = None <-> Forall (settable (known f)) m) /\
  (fst (SetFromMap f m) <> None -> snd (SetFromMap f m) = f) /\
  (fst (SetFromMap f m) = None ->
   known (snd (SetFromMap f m)) = known f /\
   closed (snd (SetFromMap f m)) = closed f /\
   ready (snd (SetFromMap f m)) = ready f /\
   broadcasters (snd (SetFromMap f m)) = broadcasters f /\
   (forall k,
       enabled (snd (SetFromMap f m)) !! k
       = match valueOf m k with
         | Some v => Some v
         | None =>
             match enabled f !! k with
             | Some b => Some b
             | None =>
                 match valueOf m allAlphaGate, known f !! k with
                 | Some a, Some spec =>
                     if String.eqb (PreRelease spec) Alpha
                     then Some a else None
                 | _, _ => None
                 end
             end
         end) /\
   (forall l,
       l ≡ₚ map_to_list (enabled (snd (SetFromMap f m))) ->
       info (snd (SetFromMap f m))
       = Join (merge_sort string_le
                 (map (fun kv => pair_string (fst kv) (snd kv)) l)) ",")) /\
  (forall m',
      m' ≡ₚ m ->
      (fst (SetFromMap f m') = None <-> fst (SetFromMap f m) = None) /\
      snd (SetFromMap f m') = snd (SetFromMap f m)).
Proof.
  intros Hnd.
  pose proof (SetFromMap_settable f) as Hok.
  split; [apply Hok|]. split; [apply SetFromMap_unchanged|]. split.
  - unfold SetFromMap.
    destruct (SetFromMap_loop (known f) (enabled f) m) as [e|en] eqn:Hrun;
      cbn [fst snd]; [discriminate|]. intros _.
    cbn [known closed ready broadcasters enabled info].
    repeat (split; [reflexivity|]). split.
    + now apply SetFromMap_loop_enabled.
    + intros l Hl. symmetry. now apply infoOf_any_order.
  - intros m' Hperm.
    assert (Hnd' : NoDup m'.*1) by now rewrite Hperm.
    assert (Hiff : fst (SetFromMap f m') = None <-> fst (SetFromMap f m) = None)
      by (rewrite !Hok; now rewrite Hperm).
    split; [exact Hiff|].
    unfold SetFromMap in *.
    destruct (SetFromMap_loop (known f) (enabled f) m) as [e|en] eqn:Hrun,
             (SetFromMap_loop (known f) (enabled f) m') as [e'|en'] eqn:Hrun';
      cbn [fst snd] in *.
    + reflexivity.
    + destruct Hiff as [Hiff _]. specialize (Hiff eq_refl). discriminate.
    + destruct Hiff as [_ Hiff]. specialize (Hiff eq_refl). discriminate.
    + assert (Heq : en' = en).
      { apply map_eq. intros k.
        pose proof (SetFromMap_loop_enabled _ _ Hnd' _ _ Hrun' k) as H1.
        pose proof (SetFromMap_loop_enabled _ _ Hnd _ _ Hrun k) as H2.
        rewrite !(valueOf_Permutation m m') in H1 by assumption.
        etransitivity; [exact H1|]. symmetry. exact H2. }
      now rewrite Heq.
Qed.

Lemma SetFromMap_outcome_witness :
  (fst (SetFromMap testGate [("AllAlpha", true); ("TestBeta", false)]%string)
   = None) /\
  Enabled (snd (SetFromMap testGate
                  [("AllAlpha", true); ("TestBeta", false)]%string))
          "TestAlpha" = true /\
  (forall m',
      m' ≡ₚ [("AllAlpha", true); ("TestBeta", false)]%string ->
      snd (SetFromMap testGate m')
      = snd (SetFromMap testGate
               [("AllAlpha", true); ("TestBeta", false)]%string)).
Proof.
  destruct (SetFromMap_outcome testGate
              [("AllAlpha", true); ("TestBeta", false)]%string)
    as (_ & _ & _ & Hperm).
  - apply (bool_decide_unpack _). vm_compute. exact I.
  - split; [reflexivity|]. split; [reflexivity|].
    intros m' Hm'. exact (proj2 (Hperm m' Hm')).
Defined.

Lemma Enabled_lookup (f : defaultFeatureGate) (k : Feature)
      (spec : FeatureSpec) :
  known f !! k = Some spec ->
  enabled f !! k = None \/ enabled f !! k = Some (Default spec) ->
  Enabled f k = Default spec.
Proof.
  intros Hk [He | He]; unfold Enabled;
    rewrite He; [now rewrite Hk | reflexivity].
Qed.

(** * X21.  A lock holds against [SetFromMap], but not against [AllAlpha].  A
    locked feature that is at its default stays there through every call of
    [SetFromMap] that names it or does not set [AllAlpha], and whatever the
    call if the feature is not an alpha feature.  A locked alpha feature
    that has no value yet and is not named takes the value of [AllAlpha],
    its default or not. *)
Theorem SetFromMap_locked (f : defaultFeatureGate) (m : list (string * bool))
        (k : Feature) (spec : FeatureSpec) :
  NoDup m.*1 ->
  known f !! k = Some spec ->
  LockToDefault spec = true ->
  enabled f !! k = None \/ enabled f !! k = Some (Default spec) ->
  (PreRelease spec <> Alpha \/ valueOf m allAlphaGate = None \/
   valueOf m k <> None \/ enabled f !! k <> None ->
   Enabled (snd (SetFromMap f m)) k = Default spec /\
   (enabled (snd (SetFromMap f m)) !! k = None \/
    enabled (snd (SetFromMap f m)) !! k = Some (Default spec))) /\
  (forall a,
      PreRelease spec = Alpha ->
      enabled f !! k = None ->
      valueOf m k = None ->
      valueOf m allAlphaGate = Some a ->
      fst (SetFromMap f m) = None ->
      Enabled (snd (SetFromMap f m)) k = a).
Proof.
  intros Hnd Hk Hlock Hen.
  pose proof (SetFromMap_unchanged f m) as Hfail.
  pose proof (SetFromMap_enabled f m Hnd) as Hsucc.
  pose proof (SetFromMap_settable f m) as Hok.
  destruct (fst (SetFromMap f m)) as [e|] eqn:Hfst.
  - rewrite Hfail by discriminate. split.
    + intros _. split; [now apply (Enabled_lookup f k spec) | exact Hen].
    + discriminate.
  - destruct (Hsucc eq_refl) as (Hknown & Hlook).
    assert (Hall : Forall (settable (known f)) m) by now apply Hok.
    assert (Hnamed : forall v, valueOf m k = Some v -> v = Default spec).
    { intros v Hv. unfold valueOf in Hv.
      apply elem_of_list_to_map_2 in Hv.
      rewrite Forall_forall in Hall.
      destruct (Hall _ Hv) as (spec' & Hk' & Hd). cbn [fst snd] in *.
      rewrite Hk in Hk'. injection Hk' as <-.
      symmetry. now apply Hd. }
    specialize (Hlook k). rewrite Hk in Hlook.
    split.
    + intros Hcase.
      assert (Hres : enabled (snd (SetFromMap f m)) !! k = None \/
                     enabled (snd (SetFromMap f m)) !! k
                     = Some (Default spec)).
      { rewrite Hlook.
        destruct (valueOf m k) as [v|] eqn:Ev.
        - right. f_equal. now apply Hnamed.
        - destruct Hen as [He | He]; rewrite He in *; [|now right].
          destruct (valueOf m allAlphaGate) as [a|]; [|now left].
          destruct (String.eqb_spec (PreRelease spec) Alpha) as [Ha|Ha];
            [|now left].
          destruct Hcase as [Hc | [Hc | [Hc | Hc]]]; congruence. }
      split; [|exact Hres].
      apply (Enabled_lookup _ k spec); [|exact Hres].
      now rewrite Hknown.
    + intros a Ha He Hv Hall' _.
      unfold Enabled.
      rewrite Hlook, Hv, He, Hall', Ha. reflexivity.
Qed.

Lemma SetFromMap_locked_witness :
  Enabled (snd (SetFromMap testGate [("TestLockedFalse", false)]%string))
          "TestLockedFalse" = false /\
  fst (SetFromMap testGate [("TestLockedFalse", true)]%string)
  = Some (ErrLocked "TestLockedFalse" true false).
Proof.
  destruct (SetFromMap_locked testGate [("TestLockedFalse", false)]%string
              "TestLockedFalse"
              {| Default := false; LockToDefault := true; PreRelease := GA;
                 InitFunc := None |})
    as [Hkeep _].
  - apply (bool_decide_unpack _). vm_compute. exact I.
  - reflexivity.
  - reflexivity.
  - left. reflexivity.
  - split; [|reflexivity]. apply Hkeep. left. discriminate.
Defined.

(** A locked alpha feature, enabled through [AllAlpha] against its
    default. *)
Example AllAlpha_unlocks :
  exists f,
    fst (AddFeatureSpec NewFeatureGate "Frozen"
           {| Default := false; LockToDefault := true; PreRelease := Alpha;
              InitFunc := None |}) = None /\
    f = snd (AddFeatureSpec NewFeatureGate "Frozen"
               {| Default := false; LockToDefault := true;
                  PreRelease := Alpha; InitFunc := None |}) /\
    fst (SetFromMap f [("Frozen", true)]%string)
    = Some (ErrLocked "Frozen" true false) /\
    fst (SetFromMap f [("AllAlpha", true)]%string) = None /\
    Enabled (snd (SetFromMap f [("AllAlpha", true)]%string)) "Frozen" = true.
Proof. eexists. repeat split; reflexivity. Qed.

Lemma DeepEqual_true (a b : FeatureSpec) :
  DeepEqual a b = true <-> a = b /\ InitFunc b = None.
Proof.
  destruct a as [d l p i], b as [d' l' p' i']. unfold DeepEqual.
  cbn [Default LockToDefault PreRelease InitFunc].
  rewrite !andb_true_iff, !Bool.eqb_true_iff, String.eqb_eq. split.
  - intros [[[-> ->] ->] Hi]. destruct i, i'; try discriminate. auto.
  - intros [[= -> -> -> ->] ->]. auto.
Qed.

(** * X22.  Adding one feature.  [AddFeatureSpec] on a gate that [AddFlag] has
    closed fails and changes nothing.  On an open gate a new feature becomes
    known, with a broadcaster that has not notified unless one was there,
    and is enabled as its default says unless a value is set for it; no
    other feature is touched.  A feature that is known can be added again
    only with the spec it has and only if that spec has no [InitFunc]
    ([reflect.DeepEqual] takes two funcs for different unless both are
    nil): adding the very same spec a second time fails when it has one.
    Adding a known feature leaves the gate as it is, error or not. *)
Theorem AddFeatureSpec_outcome (f : defaultFeatureGate) (key : Feature)
        (spec : FeatureSpec) :
  (closed f = true -> AddFeatureSpec f key spec = (Some ErrClosed, f)) /\
  (closed f = false ->
   known f !! key = None ->
   fst (AddFeatureSpec f key spec) = None /\
   known (snd (AddFeatureSpec f key spec)) = <[key := spec]> (known f) /\
   enabled (snd (AddFeatureSpec f key spec)) = enabled f /\
   ready (snd (AddFeatureSpec f key spec)) = ready f /\
   closed (snd (AddFeatureSpec f key spec)) = false /\
   broadcasters (snd (AddFeatureSpec f key spec)) !! key
   = Some (default {| notified := false; closedChannel := false |}
                   (broadcasters f !! key)) /\
   (forall k, k <> key ->
              broadcasters (snd (AddFeatureSpec f key spec)) !! k
              = broadcasters f !! k /\
              Enabled (snd (AddFeatureSpec f key spec)) k = Enabled f k) /\
   Enabled (snd (AddFeatureSpec f key spec)) key
   = default (Default spec) (enabled f !! key) /\
   (fst (AddFeatureSpec (snd (AddFeatureSpec f key spec)) key spec) = None
    <-> InitFunc spec = None)) /\
  (closed f = false ->
   forall existingSpec,
     known f !! key = Some existingSpec ->
     (fst (AddFeatureSpec f key spec) = None
      <-> existingSpec = spec /\ InitFunc spec = None) /\
     snd (AddFeatureSpec f key spec) = f).
Proof.
  unfold AddFeatureSpec, Add. split; [|split].
  - intros ->. reflexivity.
  - intros Hc Hk. rewrite Hc. cbn [Add_loop].
    rewrite Hk. cbn [fst snd known enabled ready closed broadcasters].
    repeat (split; [reflexivity|]). split; [|split; [|split]].
    + destruct (broadcasters f !! key) as [b|] eqn:Eb; cbn [default].
      * exact Eb.
      * apply lookup_insert_eq.
    + intros k Hne. split.
      * destruct (broadcasters f !! key); [reflexivity|].
        now apply lookup_insert_ne.
      * unfold Enabled. cbn [enabled known].
        now rewrite lookup_insert_ne by congruence.
    + unfold Enabled. cbn [enabled known].
      rewrite lookup_insert_eq. now destruct (enabled f !! key).
    + cbn [Add_loop closed known broadcasters]. rewrite ?Hc.
      cbn [Add_loop]. rewrite lookup_insert_eq.
      destruct (DeepEqual spec spec) eqn:Ed; cbn [fst].
      * apply DeepEqual_true in Ed as [_ Hi]. split; auto.
      * split; [discriminate|]. intros Hi.
        assert (DeepEqual spec spec = true) by now apply DeepEqual_true.
        congruence.
  - intros Hc existingSpec Hk. rewrite Hc. cbn [Add_loop].
    rewrite Hk.
    destruct (DeepEqual existingSpec spec) eqn:Ed; cbn [fst snd].
    + apply DeepEqual_true in Ed. split; [split; auto|].
      destruct f; cbn in *. now subst.
    + split.
      * split; [discriminate|]. intros Heq.
        apply DeepEqual_true in Heq. congruence.
      * destruct f; cbn in *. now subst.
Qed.

Lemma IsReady_call (f : defaultFeatureGate) (c : Call) (k : Feature) :
  IsReady f k = true -> IsReady (call f c) k = true.
Proof.
  unfold IsReady. intros Hr.
  destruct c as [m | features | | key]; cbn [call].
  - unfold SetFromMap. now destruct (SetFromMap_loop _ _ _).
  - unfold Add. destruct (closed f); [assumption|].
    now destruct (Add_loop _ _ _) as [[[e|] kn] br].
  - exact Hr.
  - unfold updateToReady. destruct (known f !! key); [|assumption].
    destruct (negb (Enabled f key)); [assumption|].
    destruct (broadcasters f !! key) as [b|]; [|assumption].
    destruct (notified b); [assumption|].
    cbn [snd doUpdateToReady ready].
    destruct (decide (k = key)) as [-> | Hne].
    + now rewrite lookup_insert_eq.
    + now rewrite lookup_insert_ne by congruence.
Qed.


(** The values of [ready] are all true. *)
Lemma ready_true_call (f : defaultFeatureGate) (c : Call) :
  (forall k v, ready f !! k = Some v -> v = true) ->
  forall k v, ready (call f c) !! k = Some v -> v = true.
Proof.
  intros Hinv k v.
  destruct c as [m | features | | key]; cbn [call].
  - unfold SetFromMap. destruct (SetFromMap_loop _ _ _); apply Hinv.
  - unfold Add. destruct (closed f); [apply Hinv|].
    destruct (Add_loop _ _ _) as [[[e|] kn] br]; apply Hinv.
  - apply Hinv.
  - unfold updateToReady. destruct (known f !! key); [|apply Hinv].
    destruct (negb (Enabled f key)); [apply Hinv|].
    destruct (broadcasters f !! key) as [b|]; [|apply Hinv].
    destruct (notified b); [apply Hinv|].
    cbn [snd doUpdateToReady ready].
    destruct (decide (k = key)) as [-> | Hne].
    + rewrite lookup_insert_eq. congruence.
    + rewrite lookup_insert_ne by congruence. apply Hinv.
Qed.

Lemma ready_true_calls (cs : list Call) :
  forall f,
    (forall k v, ready f !! k = Some v -> v = true) ->
    forall k v, ready (calls f cs) !! k = Some v -> v = true.
Proof.
  unfold calls. induction cs as [|c cs IH]; intros f Hinv; cbn [fold_left];
    [exact Hinv|].
  apply IH. now apply ready_true_call.
Qed.

(** * X24.  [DeepCopy] turns readiness into enablement.  For every gate made
    from a new one by [SetFromMap], [Add], [AddFlag] and [updateToReady]:
    the copy knows the same features and is closed when the gate is, but no
    feature is ready in the copy, and a feature is enabled in the copy when
    it is ready or enabled in the gate, so that a feature that became ready
    and was disabled afterwards is enabled again in the copy. *)
Theorem DeepCopy_ready_enabled (cs : list Call) (k : Feature) :
  known (DeepCopy (calls NewFeatureGate cs)) = known (calls NewFeatureGate cs) /\
  closed (DeepCopy (calls NewFeatureGate cs))
  = closed (calls NewFeatureGate cs) /\
  IsReady (DeepCopy (calls NewFeatureGate cs)) k = false /\
  Enabled (DeepCopy (calls NewFeatureGate cs)) k
  = IsReady (calls NewFeatureGate cs) k
    || Enabled (calls NewFeatureGate cs) k.
Proof.
  split; [reflexivity|]. split; [reflexivity|]. split; [reflexivity|].
  pose proof (ready_true_calls cs NewFeatureGate) as Hinv.
  specialize (Hinv ltac:(intros ? ? H; cbn in H; now rewrite lookup_empty in H) k).
  unfold Enabled, IsReady, DeepCopy. cbn [enabled known ready].
  rewrite lookup_union.
  destruct (ready (calls NewFeatureGate cs) !! k) as [v|].
  - rewrite (Hinv v eq_refl).
    now destruct (enabled (calls NewFeatureGate cs) !! k).
  - now destruct (enabled (calls NewFeatureGate cs) !! k).
Qed.

(** A feature that is enabled by default becomes ready and is disabled
    then: the gate has it disabled and ready, its copy enabled and not
    ready. *)
Example DeepCopy_enables_again :
  exists f,
    f = calls NewFeatureGate
          [CallAdd [("F"%string,
                     {| Default := true; LockToDefault := false;
                        PreRelease := Beta; InitFunc := None |})];
           CallUpdateToReady "F";
           CallSetFromMap [("F"%string, false)]] /\
    Enabled f "F" = false /\ IsReady f "F" = true /\
    Enabled (DeepCopy f) "F" = true /\ IsReady (DeepCopy f) "F" = false.
Proof. eexists. repeat split; reflexivity. Qed.

End FeatureGateFacts.

(** ** The weights of the hosts *)

Module ConfigFacts.
Import GoInt Config.

Lemma transHostWeight_range (weight : Z) :
  1 <= transHostWeight weight <= 128 /\
  (1 <= weight <= 128 -> transHostWeight weight = weight) /\
  (weight < 1 -> transHostWeight weight = 1) /\
  (128 < weight -> transHostWeight weight = 128).
Proof.
  unfold transHostWeight, MaxHostWeight, MinHostWeight, uint32.
  change (1 mod 2 ^ 32) with 1. change (128 mod 2 ^ 32) with 128.
  destruct (Z.gtb_spec weight 128), (Z.ltb_spec weight 1); lia.
Qed.

Lemma parseHostConfig_map {A : Type} (hosts : list (Host A)) :
  parseHostConfig hosts
  = map (fun host => {| Weight := transHostWeight (Weight host);
                        others := others host |}) hosts.
Proof.
  unfold parseHostConfig.
  enough (H : forall acc,
             fold_left (fun hs host =>
                          hs ++ [{| Weight := transHostWeight (Weight host);
                                    others := others host |}]) hosts acc
             = acc ++ map (fun host =>
                             {| Weight := transHostWeight (Weight host);
                                others := others host |}) hosts)
    by apply (H []).
  induction hosts as [|h hosts IH]; intros acc; cbn [fold_left map].
  - now rewrite app_nil_r.
  - rewrite IH. now rewrite <- app_assoc.
Qed.

(** * X25.  The weights the parser hands out.  [parseHostConfig] keeps the
    hosts, their order and everything but the weight; the weight of every
    host it returns lies between 1 and 128: a weight in this range is kept,
    a smaller one becomes 1 and a greater one 128.  Parsing a second time
    changes nothing. *)
Theorem parseHostConfig_weights {A : Type} (hosts : list (Host A)) :
  length (parseHostConfig hosts) = length hosts /\
  (forall i host,
      hosts !! i = Some host ->
      exists host',
        parseHostConfig hosts !! i = Some host' /\
        others host' = others host /\
        1 <= Weight host' <= 128 /\
        Weight host' = Z.max 1 (Z.min 128 (Weight host))) /\
  parseHostConfig (parseHostConfig hosts) = parseHostConfig hosts.
Proof.
  rewrite !parseHostConfig_map. split; [apply length_map|]. split.
  - intros i host Hi.
    exists {| Weight := transHostWeight (Weight host);
              others := others host |}.
    rewrite list_lookup_fmap, Hi. split; [reflexivity|].
    split; [reflexivity|]. cbn [Weight].
    pose proof (transHostWeight_range (Weight host)) as (Hr & Hin & Hlo & Hhi).
    split; [exact Hr|].
    destruct (Z.lt_ge_cases (Weight host) 1);
      [rewrite Hlo by lia; lia|].
    destruct (Z.lt_ge_cases 128 (Weight host));
      [rewrite Hhi by lia; lia|].
    rewrite Hin by lia. lia.
  - rewrite map_map. apply map_ext. intros host. cbn [Weight others].
    f_equal.
    pose proof (transHostWeight_range (Weight host)) as (Hr & _).
    now apply transHostWeight_range.
Qed.

Import Cluster SmoothWRR SmoothWRRFacts.

Lemma parsed_weights_bound (hostSet : list Cluster.Host) :
  Forall parsedWeight hostSet ->
  Z.of_nat (length hostSet) <= totalWeight hostSet
  <= 128 * Z.of_nat (length hostSet) /\
  maxWeight hostSet <= 128.
Proof.
  unfold totalWeight, maxWeight, weightsOf.
  induction 1 as [|h hs (w & _ & Hw) _ IH]; cbn [map sumZ fold_right length].
  - lia.
  - pose proof (transHostWeight_range w) as (Hr & _).
    rewrite Hw. lia.
Qed.

(** * X26.  Parsed weights never overflow the smooth weighted round-robin.  On a
    host set that is all healthy, not empty, of fewer than [2^48] hosts and
    with weights as the parser hands them out, the sums of the balancer stay
    within an [int64]: the total weight [W] is positive, any [W] picks in a
    row select host [i] exactly as often as its weight says, and bring the
    balancer back to where it was. *)
Theorem parsed_weights_cycle (hostSet : list Cluster.Host) (s i : nat)
        (h : Cluster.Host) :
  Forall (fun h => Health h = true) hostSet ->
  Forall parsedWeight hostSet ->
  Z.of_nat (length hostSet) < 2 ^ 48 ->
  hostSet !! i = Some h ->
  0 < totalWeight hostSet /\
  totalWeight hostSet * (maxWeight hostSet + 1) < 2 ^ 63 /\
  1 <= Z.of_N (Cluster.Weight h) <= 128 /\
  timesSelected i
    (fst (picks (Z.to_nat (totalWeight hostSet))
                (snd (picks s (newSmoothWeightedRRLoadBalancer hostSet)))))
  = Z.of_N (Cluster.Weight h) /\
  snd (picks (Z.to_nat (totalWeight hostSet))
             (snd (picks s (newSmoothWeightedRRLoadBalancer hostSet))))
  = snd (picks s (newSmoothWeightedRRLoadBalancer hostSet)).
Proof.
  intros Hall Hparsed Hlen Hi.
  assert (Hne : hostSet <> []) by (intros ->; discriminate Hi).
  destruct (parsed_weights_bound hostSet Hparsed) as [Htotal Hmax].
  pose proof (maxWeight_nonneg hostSet) as Hmax0.
  assert (Hpos : 0 < totalWeight hostSet)
    by (destruct hostSet; [congruence | cbn [length] in Htotal; lia]).
  assert (Hsmall : totalWeight hostSet * (maxWeight hostSet + 1) < 2 ^ 63) by nia.
  split; [exact Hpos|]. split; [exact Hsmall|]. split.
  { rewrite Forall_forall in Hparsed.
    destruct (Hparsed h) as (w & _ & Hw);
      [apply list_elem_of_lookup; eauto|].
    rewrite Hw. apply transHostWeight_range. }
  rewrite (picks_from_new hostSet s Hall Hsmall).
  rewrite (picks_refines hostSet Hall Hsmall (Z.to_nat (totalWeight hostSet)) s).
  cbn [fst snd]. split.
  - apply window_full; [assumption..|]. now apply lookup_weightsOf.
  - f_equal. rewrite Nat.add_comm. now apply idealAfter_shift.
Qed.

Lemma parsed_weights_cycle_witness :
  0 < totalWeight abc /\
  totalWeight abc * (maxWeight abc + 1) < 2 ^ 63 /\
  1 <= Z.of_N (Cluster.Weight (weighted "a" 5)) <= 128 /\
  timesSelected 0
    (fst (picks (Z.to_nat (totalWeight abc))
                (snd (picks 2 (newSmoothWeightedRRLoadBalancer abc)))))
  = Z.of_N (Cluster.Weight (weighted "a" 5)) /\
  snd (picks (Z.to_nat (totalWeight abc))
             (snd (picks 2 (newSmoothWeightedRRLoadBalancer abc))))
  = snd (picks 2 (newSmoothWeightedRRLoadBalancer abc)).
Proof.
  apply (parsed_weights_cycle abc 2 0 (weighted "a" 5)).
  - repeat constructor.
  - repeat constructor; [exists 5 | exists 1 | exists 1];
      (split; [lia | reflexivity]).
  - cbn. lia.
  - reflexivity.
Defined.

End ConfigFacts.

(** ** The websocket stream connection *)

Module WebSocketFacts.
Import NetworkTypes WebSocket.

Lemma dispatched_cons (i : Input) (inputs : list Input) :
  dispatched (i :: inputs)
  = match i with
    | InDispatch b => b :: dispatched inputs
    | InEvent _ => dispatched inputs
    end.
Proof. now destruct i. Qed.

Lemma forwarded_app (a b : list ProxyCall) :
  forwarded (a ++ b) = forwarded a ++ forwarded b.
Proof. apply omap_app. Qed.

Lemma websocket_run_app (a b : list Input) :
  forall conn,
    run conn (a ++ b)
    = match run conn a with
      | Some (conn', calls) =>
          match run conn' b with
          | Some (conn'', calls') => Some (conn'', calls ++ calls')
          | None => None
          end
      | None => None
      end.
Proof.
  induction a as [|i a IH]; intros conn; cbn [app run].
  - now destruct (run conn b) as [[? ?]|].
  - destruct (step conn i) as [[conn1 c1]|]; [|reflexivity].
    rewrite IH. destruct (run conn1 a) as [[conn2 c2]|]; [|reflexivity].
    destruct (run conn2 b) as [[conn3 c3]|]; [|reflexivity].
    now rewrite app_assoc.
Qed.

Lemma step_other_event (conn : streamConnection) (event : ConnectionEvent) :
  event <> NetworkTypes.Connected -> step conn (InEvent event) = Some (conn, []).
Proof.
  intros Hne. cbn [step]. unfold OnEvent.
  destruct (String.eqb event NetworkTypes.OnConnect); [reflexivity|].
  destruct (String.eqb_spec event NetworkTypes.Connected); [congruence|].
  reflexivity.
Qed.

(** Before the upstream is connected, with the proxy in place: everything
    dispatched goes into the queue, where the last buffer stays. *)
Lemma run_queueing (inputs : list Input) :
  forall q,
    notConnected inputs ->
    run {| proxy := true; queueData := q; state := PreConnect |} inputs
    = Some ({| proxy := true;
               queueData := match last (dispatched inputs) with
                            | Some b => Some b
                            | None => q
                            end;
               state := PreConnect |}, []).
Proof.
  induction inputs as [|i inputs IH]; intros q Hnc; [reflexivity|].
  apply Forall_cons in Hnc as [Hi Hnc]. cbn [run].
  destruct i as [b|event].
  - cbn [step Dispatch proxy state]. rewrite (IH _ Hnc).
    rewrite dispatched_cons, last_cons.
    now destruct (last (dispatched inputs)).
  - rewrite step_other_event by congruence. rewrite (IH _ Hnc).
    now rewrite dispatched_cons.
Qed.

(** Once the upstream is connected everything dispatched is forwarded. *)
Lemma run_connected (inputs : list Input) :
  forall p,
    exists conn calls,
      run {| proxy := p; queueData := None; state := Connected |} inputs
      = Some (conn, calls) /\
      state conn = Connected /\ queueData conn = None /\
      forwarded calls = dispatched inputs.
Proof.
  induction inputs as [|i inputs IH]; intros p.
  - eexists _, _. split; [reflexivity|]. auto.
  - cbn [run]. destruct i as [b|event].
    + cbn [step]. unfold Dispatch. cbn [proxy state].
      destruct p.
      * destruct (IH true) as (conn & calls & -> & Hs & Hq & Hf).
        eexists _, _. split; [reflexivity|]. repeat split; try assumption.
        rewrite dispatched_cons, forwarded_app, Hf. reflexivity.
      * cbn [Upgrade queueData state].
        destruct (IH true) as (conn & calls & -> & Hs & Hq & Hf).
        eexists _, _. split; [reflexivity|]. repeat split; try assumption.
        rewrite dispatched_cons, forwarded_app, Hf. reflexivity.
    + assert (Hstep : step {| proxy := p; queueData := None;
                              state := Connected |} (InEvent event)
                      = Some ({| proxy := p; queueData := None;
                                 state := Connected |}, [])).
      { cbn [step]. unfold OnEvent.
        destruct (String.eqb event NetworkTypes.OnConnect); [reflexivity|].
        now destruct (String.eqb event NetworkTypes.Connected). }
      rewrite Hstep. destruct (IH p) as (conn & calls & -> & Hs & Hq & Hf).
      eexists _, _. split; [reflexivity|]. rewrite dispatched_cons. auto.
Qed.

(** From a new connection, before the upstream is connected. *)
Lemma run_preconnect (inputs : list Input) :
  notConnected inputs ->
  exists calls,
    run newStreamConnection inputs
    = Some ({| proxy := bool_decide (dispatched inputs <> []);
               queueData := last (drop 1 (dispatched inputs));
               state := PreConnect |}, calls) /\
    forwarded calls = take 1 (dispatched inputs).
Proof.
  unfold newStreamConnection.
  induction inputs as [|i inputs IH]; intros Hnc.
  - exists []. split; reflexivity.
  - apply Forall_cons in Hnc as [Hi Hnc]. cbn [run].
    destruct i as [b|event].
    + cbn [step]. unfold Dispatch. cbn [proxy Upgrade queueData state].
      rewrite (run_queueing inputs None Hnc).
      rewrite dispatched_cons. cbn [drop].
      rewrite bool_decide_eq_true_2 by discriminate.
      replace (match last (dispatched inputs) with
               | Some b0 => Some b0
               | None => None
               end)
        with (last (dispatched inputs))
        by now destruct (last (dispatched inputs)).
      eexists. split; reflexivity.
    + rewrite step_other_event by congruence.
      destruct (IH Hnc) as (calls & -> & Hf).
      exists calls. rewrite dispatched_cons. split; [reflexivity | exact Hf].
Qed.

(** * X27.  What the websocket connection hands to the proxy.  From a new
    connection no sequence of dispatched data and upstream events leads to
    a call on a nil proxy.  Until the upstream is connected only the first
    buffer dispatched is handed to the proxy; of the buffers that follow
    the last one alone is kept in the queue.  The event [Connected] hands
    this one on, and from then on every buffer is handed on as it comes: a
    buffer dispatched between the second one and the last one before the
    event is never seen by the proxy. *)
Theorem websocket_forwarding (before after : list Input) :
  notConnected before ->
  (exists calls,
      run newStreamConnection before
      = Some ({| proxy := bool_decide (dispatched before <> []);
                 queueData := last (drop 1 (dispatched before));
                 state := PreConnect |}, calls) /\
      forwarded calls = take 1 (dispatched before)) /\
  (exists conn calls,
      run newStreamConnection
          (before ++ InEvent NetworkTypes.Connected :: after)
      = Some (conn, calls) /\
      state conn = Connected /\
      queueData conn = None /\
      forwarded calls
      = take 1 (dispatched before)
        ++ option_list (last (drop 1 (dispatched before)))
        ++ dispatched after).
Proof.
  intros Hnc. split; [now apply run_preconnect|].
  destruct (run_preconnect before Hnc) as (calls & Hrun & Hf).
  rewrite websocket_run_app, Hrun. cbn [run step].
  unfold OnEvent. cbn [String.eqb Ascii.eqb Bool.eqb NetworkTypes.Connected
                       NetworkTypes.OnConnect].
  unfold onConnectionSuccess. cbn [state queueData proxy].
  destruct (dispatched before) as [|b0 rest] eqn:Ed.
  - cbn [drop last]. 
    destruct (run_connected after false) as (conn & c2 & Hr2 & Hs & Hq & Hf2).
    rewrite bool_decide_eq_false_2 by (intros H; now apply H).
    cbn [proxy queueData state]. rewrite Hr2. eexists _, _. split; [reflexivity|].
    repeat split; try assumption.
    rewrite !forwarded_app, Hf, Hf2. reflexivity.
  - rewrite bool_decide_eq_true_2 by discriminate.
    change (drop 1 (b0 :: rest)) with rest.
    destruct (run_connected after true) as (conn & c2 & Hr2 & Hs & Hq & Hf2).
    destruct (last rest) as [bl|] eqn:El; cbn [proxy queueData state].
    + rewrite Hr2. eexists _, _. split; [reflexivity|].
      repeat split; try assumption.
      rewrite !forwarded_app, Hf, Hf2. reflexivity.
    + rewrite Hr2. eexists _, _. split; [reflexivity|].
      repeat split; try assumption.
      rewrite !forwarded_app, Hf, Hf2. reflexivity.
Qed.

Lemma websocket_forwarding_witness :
  exists conn calls,
    run newStreamConnection
        ([InDispatch [x01]; InDispatch [x02]; InDispatch [x03]]
           ++ InEvent NetworkTypes.Connected :: [InDispatch [x04]])
    = Some (conn, calls) /\
    state conn = Connected /\
    queueData conn = None /\
    forwarded calls = [[x01]; [x03]; [x04]].
Proof.
  destruct (websocket_forwarding
              [InDispatch [x01]; InDispatch [x02]; InDispatch [x03]]
              [InDispatch [x04]]) as [_ H].
  - repeat constructor; discriminate.
  - exact H.
Defined.

End WebSocketFacts.

(** ** When the configuration is dumped *)

Module ConfigDumpFacts.
Import ConfigDump.

Lemma dump_run_app (a b : list Event) :
  forall dumping,
    run dumping (a ++ b)
    = (fst (run (fst (run dumping a)) b),
       snd (run dumping a) ++ snd (run (fst (run dumping a)) b)).
Proof.
  induction a as [|e a IH]; intros dumping; cbn [app run fst snd].
  - now destruct (run dumping b).
  - destruct e as [dirty|].
    + apply IH.
    + destruct (DumpConfig dumping) as [d' w]. rewrite IH.
      destruct (run d' a) as [d1 ws1]. cbn [fst snd].
      now destruct (run d1 b).
Qed.

(** Between two dumps the flag is set exactly when something was marked
    dirty. *)
Lemma run_marks (es : list Event) :
  forall dumping,
    noDumpConfig es -> dumping = 0 \/ dumping = 1 ->
    run dumping es
    = ((if (dumping =? 1) || marked es then 1 else 0), []).
Proof.
  induction es as [|e es IH]; intros dumping Hno Hd.
  - cbn. destruct Hd as [-> | ->]; reflexivity.
  - apply Forall_cons in Hno as [He Hno]. destruct e as [dirty|]; [|congruence].
    cbn [run marked existsb]. fold (marked es).
    rewrite IH; [|assumption|].
    + destruct dirty; cbn [dump]; [|reflexivity].
      destruct Hd as [-> | ->]; cbn; now destruct (marked es).
    + destruct dirty; cbn [dump]; [|assumption].
      destruct Hd as [-> | ->]; cbn; auto.
Qed.

Lemma run_flag (es : list Event) :
  forall dumping,
    dumping = 0 \/ dumping = 1 ->
    fst (run dumping es) = 0 \/ fst (run dumping es) = 1.
Proof.
  induction es as [|e es IH]; intros dumping Hd; cbn [run]; [assumption|].
  destruct e as [dirty|].
  - apply IH. destruct dirty; cbn [dump]; [|assumption].
    destruct Hd as [-> | ->]; cbn; auto.
  - destruct (DumpConfig dumping) as [d' w] eqn:E.
    specialize (IH d'). destruct (run d' es) as [d ws]. cbn [fst] in *.
    apply IH. unfold DumpConfig, getDump, CompareAndSwapInt32 in E.
    destruct Hd as [-> | ->]; cbn in E; injection E as <- _; auto.
Qed.



End ConfigDumpFacts.
